(** * Credential capture CLI ([scripts/get_refresh_token.py])

    A shallow embedding of [run_flow] and of the library behaviour it relies
    on (text encoding, [json.dump], [pathlib] directory creation and file
    writes), followed by the properties of the written sinks.

    Conventions.
    - A Python [str] is a list of Unicode code points ([pystr]); a file holds
      bytes.  Text files are opened with [encoding="utf-8"] on a POSIX host,
      so a newline is written as the single byte 10.
    - The OAuth library is an external collaborator: it is a [Delegate]
      record whose three entry points return either a value or an exception.
      Every call made to it is recorded in the [calls] log of the world.
    - [stdout] collects what this program prints with [print]. *)

From Stdlib Require Import ZArith Lia List Ascii String Bool.
From stdpp Require Import gmap list fin_maps.

Local Open Scope Z_scope.

(** ** Python text *)

Abbreviation pystr := (list Z) (only parsing).

Fixpoint lit (s : string) : pystr :=
  match s with
  | EmptyString => []
  | String a s' => Z.of_N (N_of_ascii a) :: lit s'
  end.

Arguments lit : simpl never.

Definition dquote : Z := 34.
Definition backslash : Z := 92.
Definition nl : Z := 10.

(** [sep.join(xs)] *)
Fixpoint join (sep : pystr) (xs : list pystr) : pystr :=
  match xs with
  | [] => []
  | [x] => x
  | x :: rest => x ++ sep ++ join sep rest
  end.

(** Values the payload can hold: [None] or a [str]. *)
Inductive PyVal : Type :=
  | PyNone
  | PyStr (s : pystr).

(** [str(v)], which is what an f-string replacement field [{v}] inserts. *)
Definition py_str (v : PyVal) : pystr :=
  match v with
  | PyNone => lit "None"
  | PyStr s => s
  end.

(** ** UTF-8, as used by [open(..., encoding="utf-8")] *)

Definition is_surrogate (c : Z) : bool := (55296 <=? c) && (c <=? 57343).
Definition is_high_surrogate (c : Z) : bool := (55296 <=? c) && (c <=? 56319).
Definition is_low_surrogate (c : Z) : bool := (56320 <=? c) && (c <=? 57343).

(** A code point of a [str]: [0 <= c <= 0x10FFFF]. *)
Definition is_code_point (c : Z) : bool := (0 <=? c) && (c <=? 1114111).

Definition utf8_encode_char (c : Z) : option (list Z) :=
  if c <? 0 then None
  else if c <? 128 then Some [c]
  else if c <? 2048 then
    Some [Z.lor 192 (Z.shiftr c 6); Z.lor 128 (Z.land c 63)]
  else if is_surrogate c then None
  else if c <? 65536 then
    Some [Z.lor 224 (Z.shiftr c 12);
          Z.lor 128 (Z.land (Z.shiftr c 6) 63);
          Z.lor 128 (Z.land c 63)]
  else if c <? 1114112 then
    Some [Z.lor 240 (Z.shiftr c 18);
          Z.lor 128 (Z.land (Z.shiftr c 12) 63);
          Z.lor 128 (Z.land (Z.shiftr c 6) 63);
          Z.lor 128 (Z.land c 63)]
  else None.

(** [s.encode("utf-8")] with the default strict error handler: [None]
    stands for [UnicodeEncodeError]. *)
Fixpoint utf8_encode (s : pystr) : option (list Z) :=
  match s with
  | [] => Some []
  | c :: s' =>
      match utf8_encode_char c, utf8_encode s' with
      | Some bs, Some rest => Some (bs ++ rest)
      | _, _ => None
      end
  end.

(** [bs.decode("utf-8")], strict: shortest form only, no surrogates. *)
Definition is_cont (b : Z) : bool := (128 <=? b) && (b <? 192).

Fixpoint utf8_decode_fuel (fuel : nat) (bs : list Z) : option pystr :=
  match fuel with
  | O => match bs with [] => Some [] | _ => None end
  | S fuel' =>
      match bs with
      | [] => Some []
      | b0 :: r0 =>
          if (0 <=? b0) && (b0 <? 128) then
            option_map (cons b0) (utf8_decode_fuel fuel' r0)
          else if (194 <=? b0) && (b0 <? 224) then
            match r0 with
            | b1 :: r1 =>
                if is_cont b1 then
                  option_map
                    (cons (Z.lor (Z.shiftl (Z.land b0 31) 6) (Z.land b1 63)))
                    (utf8_decode_fuel fuel' r1)
                else None
            | _ => None
            end
          else if (224 <=? b0) && (b0 <? 240) then
            match r0 with
            | b1 :: b2 :: r2 =>
                let c := Z.lor (Z.shiftl (Z.land b0 15) 12)
                           (Z.lor (Z.shiftl (Z.land b1 63) 6) (Z.land b2 63)) in
                if is_cont b1 && is_cont b2 && (2048 <=? c)
                   && negb (is_surrogate c) then
                  option_map (cons c) (utf8_decode_fuel fuel' r2)
                else None
            | _ => None
            end
          else if (240 <=? b0) && (b0 <? 245) then
            match r0 with
            | b1 :: b2 :: b3 :: r3 =>
                let c := Z.lor (Z.shiftl (Z.land b0 7) 18)
                           (Z.lor (Z.shiftl (Z.land b1 63) 12)
                              (Z.lor (Z.shiftl (Z.land b2 63) 6)
                                 (Z.land b3 63))) in
                if is_cont b1 && is_cont b2 && is_cont b3
                   && (65536 <=? c) && (c <? 1114112) then
                  option_map (cons c) (utf8_decode_fuel fuel' r3)
                else None
            | _ => None
            end
          else None
      end
  end.

Definition utf8_decode (bs : list Z) : option pystr :=
  utf8_decode_fuel (length bs) bs.

(** ** [json.dumps] (default [ensure_ascii=True]) *)

Definition hex_digit (d : Z) : Z :=
  if d <? 10 then 48 + d else 87 + d.

(** ['{0:04x}'.format(n)] for [0 <= n < 0x10000]. *)
Definition hex4 (n : Z) : pystr :=
  [hex_digit (n / 4096 mod 16); hex_digit (n / 256 mod 16);
   hex_digit (n / 16 mod 16); hex_digit (n mod 16)].

Definition u_escape (n : Z) : pystr := backslash :: 117 :: hex4 n.

(** The replacement that [py_encode_basestring_ascii] applies to one
    character: [ESCAPE_DCT] first, then every character outside
    [' '..'~'] as [\uXXXX], with a surrogate pair above the BMP. *)
Definition escape_char (c : Z) : pystr :=
  if c =? backslash then [backslash; backslash]
  else if c =? dquote then [backslash; dquote]
  else if c =? 8 then [backslash; 98]
  else if c =? 12 then [backslash; 102]
  else if c =? 10 then [backslash; 110]
  else if c =? 13 then [backslash; 114]
  else if c =? 9 then [backslash; 116]
  else if (32 <=? c) && (c <=? 126) then [c]
  else if c <? 65536 then u_escape c
  else
    let n := c - 65536 in
    u_escape (Z.lor 55296 (Z.land (Z.shiftr n 10) 1023))
      ++ u_escape (Z.lor 56320 (Z.land n 1023)).

Fixpoint escape_chars (s : pystr) : pystr :=
  match s with
  | [] => []
  | c :: s' => escape_char c ++ escape_chars s'
  end.

Definition encode_basestring_ascii (s : pystr) : pystr :=
  dquote :: escape_chars s ++ [dquote].

(** The encoder on the value forms a payload holds. *)
Definition encode_value (v : PyVal) : pystr :=
  match v with
  | PyNone => lit "null"
  | PyStr s => encode_basestring_ascii s
  end.

(** A [dict] with [str] keys, in insertion order. *)
Definition pydict := list (pystr * PyVal).

Definition encode_item (indent : Z) (kv : pystr * PyVal) : pystr :=
  repeat 32 (Z.to_nat indent) ++ encode_basestring_ascii kv.1
    ++ lit ": " ++ encode_value kv.2.

(** [json.dumps(d, indent=indent)] for a flat dict: items are separated by
    a comma and a newline, each at one indentation level; an empty dict is
    the two braces. *)
Definition json_dumps (indent : Z) (d : pydict) : pystr :=
  match d with
  | [] => lit "{}"
  | _ => lit "{" ++ [nl] ++ join (lit "," ++ [nl]) (map (encode_item indent) d)
           ++ [nl] ++ lit "}"
  end.

(** ** [json.loads], on the fragment the writer emits

    The scanner follows [json.decoder]: [scanstring] in strict mode,
    [JSONObject] for a brace-delimited object, and [scan_once] restricted to
    the value forms [null] and string (any other value form is a parse
    failure of this model).  [None] stands for [JSONDecodeError]. *)

Definition is_ws (c : Z) : bool :=
  (c =? 32) || (c =? 9) || (c =? 10) || (c =? 13).

Fixpoint skip_ws (s : pystr) : pystr :=
  match s with
  | c :: r => if is_ws c then skip_ws r else s
  | [] => []
  end.

Definition hex_val (c : Z) : option Z :=
  if (48 <=? c) && (c <=? 57) then Some (c - 48)
  else if (97 <=? c) && (c <=? 102) then Some (c - 87)
  else if (65 <=? c) && (c <=? 70) then Some (c - 55)
  else None.

(** [_decode_uXXXX]: four hexadecimal digits. *)
Definition decode_uXXXX (s : pystr) : option (Z * pystr) :=
  match s with
  | a :: b :: c :: d :: r =>
      match hex_val a, hex_val b, hex_val c, hex_val d with
      | Some x3, Some x2, Some x1, Some x0 =>
          Some (4096 * x3 + 256 * x2 + 16 * x1 + x0, r)
      | _, _, _, _ => None
      end
  | _ => None
  end.

(** The [BACKSLASH] table of the decoder. *)
Definition unescape (e : Z) : option Z :=
  if e =? dquote then Some dquote
  else if e =? backslash then Some backslash
  else if e =? 47 then Some 47
  else if e =? 98 then Some 8
  else if e =? 102 then Some 12
  else if e =? 110 then Some 10
  else if e =? 114 then Some 13
  else if e =? 116 then Some 9
  else None.

Definition prepend (c : Z) (r : option (pystr * pystr)) : option (pystr * pystr) :=
  match r with
  | Some (s, rest) => Some (c :: s, rest)
  | None => None
  end.

(** [s[end:end + 2] == '\\u'] *)
Definition starts_with_u (s : pystr) : bool :=
  match s with
  | b :: u :: _ => (b =? backslash) && (u =? 117)
  | _ => false
  end.

(** [scanstring(s, end)], started just after the opening quote: the decoded
    string and the text after the closing quote.  A [\uXXXX] escape in the
    high-surrogate range that is followed by a [\uXXXX] escape in the
    low-surrogate range is decoded as one code point. *)
Fixpoint scanstring (fuel : nat) (s : pystr) : option (pystr * pystr) :=
  match fuel with
  | O => None
  | S fuel' =>
      match s with
      | [] => None
      | c :: r =>
          if c =? dquote then Some ([], r)
          else if c =? backslash then
            match r with
            | [] => None
            | e :: r1 =>
                if e =? 117 then
                  match decode_uXXXX r1 with
                  | None => None
                  | Some (uni, r2) =>
                      if is_high_surrogate uni && starts_with_u r2 then
                        match decode_uXXXX (skipn 2 r2) with
                        | None => None
                        | Some (uni2, r4) =>
                            if is_low_surrogate uni2 then
                              prepend
                                (65536 + Z.lor (Z.shiftl (uni - 55296) 10)
                                           (uni2 - 56320))
                                (scanstring fuel' r4)
                            else prepend uni (scanstring fuel' r2)
                        end
                      else prepend uni (scanstring fuel' r2)
                  end
                else
                  match unescape e with
                  | Some ch => prepend ch (scanstring fuel' r1)
                  | None => None
                  end
            end
          else if c <? 32 then None
          else prepend c (scanstring fuel' r)
      end
  end.

(** [scan_once] on the modelled value forms. *)
Definition scan_value (fuel : nat) (s : pystr) : option (PyVal * pystr) :=
  match s with
  | 34 :: r =>
      match scanstring fuel r with
      | Some (v, rest) => Some (PyStr v, rest)
      | None => None
      end
  | 110 :: 117 :: 108 :: 108 :: r => Some (PyNone, r)
  | _ => None
  end.

(** The loop of [JSONObject], entered just after the opening quote of a
    key; it returns the pairs in source order. *)
Fixpoint scan_pairs (fuel : nat) (s : pystr) : option (list (pystr * PyVal) * pystr) :=
  match fuel with
  | O => None
  | S fuel' =>
      match scanstring (length s) s with
      | None => None
      | Some (key, r) =>
          match skip_ws r with
          | 58 :: r1 =>
              match scan_value (length r1) (skip_ws r1) with
              | None => None
              | Some (v, r2) =>
                  match skip_ws r2 with
                  | 125 :: r3 => Some ([(key, v)], r3)
                  | 44 :: r3 =>
                      match skip_ws r3 with
                      | 34 :: r4 =>
                          match scan_pairs fuel' r4 with
                          | Some (ps, rest) => Some ((key, v) :: ps, rest)
                          | None => None
                          end
                      | _ => None
                      end
                  | _ => None
                  end
              end
          | _ => None
          end
      end
  end.

Definition pystr_eqb (a b : pystr) : bool := bool_decide (a = b).

(** [d[k] = v] on an insertion-ordered dict. *)
Fixpoint dict_set (d : pydict) (k : pystr) (v : PyVal) : pydict :=
  match d with
  | [] => [(k, v)]
  | (k', v') :: d' =>
      if pystr_eqb k' k then (k', v) :: d' else (k', v') :: dict_set d' k v
  end.

Definition dict_of_pairs (ps : list (pystr * PyVal)) : pydict :=
  fold_left (fun d kv => dict_set d kv.1 kv.2) ps [].

Fixpoint dict_get (d : pydict) (k : pystr) : option PyVal :=
  match d with
  | [] => None
  | (k', v) :: d' => if pystr_eqb k' k then Some v else dict_get d' k
  end.

(** [json.loads(text)] for a text whose top-level value is an object. *)
Definition json_loads (text : pystr) : option pydict :=
  match skip_ws text with
  | 123 :: r =>
      match skip_ws r with
      | 125 :: rest =>
          match skip_ws rest with [] => Some [] | _ => None end
      | 34 :: r1 =>
          match scan_pairs (length r1) r1 with
          | Some (ps, rest) =>
              match skip_ws rest with
              | [] => Some (dict_of_pairs ps)
              | _ => None
              end
          | None => None
          end
      | _ => None
      end
  | _ => None
  end.

(** [json.load(fh)] on the bytes of a file opened as UTF-8 text. *)
Definition json_load_bytes (bs : list Z) : option pydict :=
  match utf8_decode bs with
  | Some text => json_loads text
  | None => None
  end.

(** ** [datetime.isoformat] *)

Definition is_leap (y : Z) : bool :=
  (y mod 4 =? 0) && (negb (y mod 100 =? 0) || (y mod 400 =? 0)).

Definition days_in_month (y m : Z) : Z :=
  if m =? 2 then (if is_leap y then 29 else 28)
  else if (m =? 4) || (m =? 6) || (m =? 9) || (m =? 11) then 30
  else 31.

Definition datetime_ok (y mo d h mi s us : Z) : bool :=
  (1 <=? y) && (y <=? 9999) && (1 <=? mo) && (mo <=? 12)
  && (1 <=? d) && (d <=? days_in_month y mo)
  && (0 <=? h) && (h <? 24) && (0 <=? mi) && (mi <? 60)
  && (0 <=? s) && (s <? 60) && (0 <=? us) && (us <? 1000000).

(** A naive [datetime] (no [tzinfo]), which is what the credentials object
    documents for [expiry]; the constructor's range checks are the
    [dt_valid] field. *)
Record datetime : Type := mk_datetime {
  year : Z; month : Z; day : Z;
  hour : Z; minute : Z; second : Z; microsecond : Z;
  dt_valid : datetime_ok year month day hour minute second microsecond = true
}.

(** ["%0<w>d" % n] for [0 <= n < 10^w]. *)
Fixpoint zpad (w : nat) (n : Z) : pystr :=
  match w with
  | O => []
  | S w' => zpad w' (n / 10) ++ [48 + n mod 10]
  end.

(** [d.isoformat()]: [YYYY-MM-DDTHH:MM:SS], followed by [.ffffff] when the
    microsecond field is not zero. *)
Definition isoformat (d : datetime) : pystr :=
  zpad 4 (year d) ++ lit "-" ++ zpad 2 (month d) ++ lit "-" ++ zpad 2 (day d)
    ++ lit "T" ++ zpad 2 (hour d) ++ lit ":" ++ zpad 2 (minute d)
    ++ lit ":" ++ zpad 2 (second d)
    ++ (if microsecond d =? 0 then [] else lit "." ++ zpad 6 (microsecond d)).

(** ** The world: file system, standard output, delegate call log *)

(** A [pathlib.Path] is its list of parts below a fixed base directory
    (the root or the working directory); [[]] is the base itself. *)
Abbreviation Path := (list (list Z)) (only parsing).

Inductive node : Type :=
  | Dir
  | File (content : list Z).

Definition parent (p : Path) : Path := removelast p.

(** [str(path)] *)
Definition path_str (p : Path) : pystr :=
  match p with
  | [] => lit "."
  | _ => join (lit "/") p
  end.

Inductive Call : Type :=
  | CallFromClientSecretsFile (path : pystr) (scopes : list pystr)
  | CallRunConsole
  | CallRunLocalServer (port : Z).

Record World : Type := mk_world {
  fs : gmap (list (list Z)) node;
  stdout : pystr;
  calls : list Call
}.

Inductive Errno : Type := ENOENT | EEXIST | ENOTDIR | EISDIR.

Inductive exn : Type :=
  | FileNotFoundError (msg : pystr)
  | OSError (e : Errno) (p : Path)
  | KeyError (k : pystr)
  | UnicodeEncodeError
  | DelegateError (msg : pystr).

Inductive Result (A : Type) : Type :=
  | Ok (a : A)
  | Raise (e : exn).
Arguments Ok {A} a.
Arguments Raise {A} e.

(** Computations that read and change the world and may raise. *)
Definition M (A : Type) : Type := World -> Result A * World.

Definition ret {A} (a : A) : M A := fun w => (Ok a, w).
Definition raise {A} (e : exn) : M A := fun w => (Raise e, w).
Definition bind {A B} (m : M A) (k : A -> M B) : M B :=
  fun w =>
    match m w with
    | (Ok a, w') => k a w'
    | (Raise e, w') => (Raise e, w')
    end.

Notation "'let!' x ':=' m 'in' k" := (bind m (fun x => k))
  (at level 10, x name, m at level 100, k at level 200).
Notation "m '>>' k" := (bind m (fun _ => k))
  (at level 65, right associativity).

Definition lift_result {A} (r : Result A) : M A := fun w => (r, w).

Definition set_fs (f : gmap (list (list Z)) node) (w : World) : World :=
  mk_world f (stdout w) (calls w).

(** The base directory always exists. *)
Definition node_at (f : gmap (list (list Z)) node) (p : Path) : option node :=
  match p with
  | [] => Some Dir
  | _ => f !! p
  end.

(** [path.exists()] *)
Definition path_exists (p : Path) : M bool :=
  fun w => (Ok (bool_decide (is_Some (node_at (fs w) p))), w).

Definition is_dir (f : gmap (list (list Z)) node) (p : Path) : bool :=
  match node_at f p with
  | Some Dir => true
  | _ => false
  end.

(** [os.mkdir(p)] *)
Definition os_mkdir (p : Path) : M unit :=
  fun w =>
    match p with
    | [] => (Raise (OSError EEXIST p), w)
    | _ =>
        match node_at (fs w) (parent p) with
        | None => (Raise (OSError ENOENT p), w)
        | Some (File _) => (Raise (OSError ENOTDIR p), w)
        | Some Dir =>
            match fs w !! p with
            | Some _ => (Raise (OSError EEXIST p), w)
            | None => (Ok tt, set_fs (<[p := Dir]> (fs w)) w)
            end
        end
    end.

(** [p.mkdir(parents=False, exist_ok=True)]: an [OSError] other than a
    missing parent is swallowed when [p] is already a directory. *)
Definition mkdir_exist_ok (p : Path) : M unit :=
  fun w =>
    match os_mkdir p w with
    | (Ok u, w') => (Ok u, w')
    | (Raise (OSError ENOENT q), w') => (Raise (OSError ENOENT q), w')
    | (Raise e, w') => if is_dir (fs w') p then (Ok tt, w') else (Raise e, w')
    end.

(** [p.mkdir(parents=True, exist_ok=True)] where [p] is given by its parts
    in reverse order, so that the recursion on [p.parent] is structural:
    try [os.mkdir]; when the parent is missing, create it the same way and
    retry once. *)
Fixpoint mkdir_parents_rev (rp : list (list Z)) : M unit :=
  fun w =>
    match os_mkdir (rev rp) w with
    | (Ok u, w') => (Ok u, w')
    | (Raise (OSError ENOENT q), w') =>
        match rp with
        | [] => (Raise (OSError ENOENT q), w')
        | _ :: rparent =>
            (mkdir_parents_rev rparent >> mkdir_exist_ok (rev rp)) w'
        end
    | (Raise e, w') =>
        if is_dir (fs w') (rev rp) then (Ok tt, w') else (Raise e, w')
    end.

Definition mkdir_parents (p : Path) : M unit := mkdir_parents_rev (rev p).

(** [open(p, "w")]: creates or truncates a regular file. *)
Definition open_w (p : Path) : M unit :=
  fun w =>
    match p with
    | [] => (Raise (OSError EISDIR p), w)
    | _ =>
        match node_at (fs w) (parent p) with
        | None => (Raise (OSError ENOENT p), w)
        | Some (File _) => (Raise (OSError ENOTDIR p), w)
        | Some Dir =>
            match fs w !! p with
            | Some Dir => (Raise (OSError EISDIR p), w)
            | _ => (Ok tt, set_fs (<[p := File []]> (fs w)) w)
            end
        end
    end.

(** [fh.write(text)] on the handle of the file opened at [p]: the text is
    encoded first, so an unencodable text writes nothing. *)
Definition fh_write (p : Path) (text : pystr) : M unit :=
  fun w =>
    match utf8_encode text with
    | None => (Raise UnicodeEncodeError, w)
    | Some bs =>
        match fs w !! p with
        | Some (File old) => (Ok tt, set_fs (<[p := File (old ++ bs)]> (fs w)) w)
        | _ => (Ok tt, w)
        end
    end.

(** [print(text)] *)
Definition print (text : pystr) : M unit :=
  fun w => (Ok tt, mk_world (fs w) (stdout w ++ text ++ [nl]) (calls w)).

Definition log_call (c : Call) : M unit :=
  fun w => (Ok tt, mk_world (fs w) (stdout w) (calls w ++ [c])).

(** [d[k]] *)
Definition subscript (d : pydict) (k : pystr) : M PyVal :=
  match dict_get d k with
  | Some v => ret v
  | None => raise (KeyError k)
  end.

(** ** The OAuth library *)

Record Flow : Type := mk_flow {
  client_config : pydict
}.

Record Credentials : Type := mk_credentials {
  refresh_token : PyVal;
  token : PyVal;
  expiry : option datetime
}.

(** [InstalledAppFlow]: the constructor reads the client-secret file; the
    two consent variants return the credentials or raise.  Their outcome
    depends on the user and the network, so they are left arbitrary. *)
Record Delegate : Type := mk_delegate {
  from_client_secrets_file :
    gmap (list (list Z)) node -> pystr -> list pystr -> Result Flow;
  run_console : Flow -> Result Credentials;
  run_local_server : Flow -> Z -> Result Credentials
}.

(** ** [run_flow] *)

Section RunFlow.

Variable delegate : Delegate.

Definition call_from_client_secrets_file (path : pystr) (scopes : list pystr)
  : M Flow :=
  log_call (CallFromClientSecretsFile path scopes) >>
  fun w => (from_client_secrets_file delegate (fs w) path scopes, w).

Definition call_run_console (flow : Flow) : M Credentials :=
  log_call CallRunConsole >> lift_result (run_console delegate flow).

Definition call_run_local_server (flow : Flow) (port : Z) : M Credentials :=
  log_call (CallRunLocalServer port)
  >> lift_result (run_local_server delegate flow port).

(** [creds.expiry.isoformat() if creds.expiry else None]; a [datetime] is
    always truthy. *)
Definition token_expiry (creds : Credentials) : PyVal :=
  match expiry creds with
  | Some e => PyStr (isoformat e)
  | None => PyNone
  end.

(** The dict literal of lines 74-80, once its two subscripts are
    evaluated. *)
Definition payload_of (cid csecret : PyVal) (creds : Credentials) : pydict :=
  [ (lit "client_id", cid);
    (lit "client_secret", csecret);
    (lit "refresh_token", refresh_token creds);
    (lit "access_token", token creds);
    (lit "token_expiry", token_expiry creds) ].

(** Lines 74-80. *)
Definition build_payload (flow : Flow) (creds : Credentials) : M pydict :=
  let! cid := subscript (client_config flow) (lit "client_id") in
  let! csecret := subscript (client_config flow) (lit "client_secret") in
  ret (payload_of cid csecret creds).

(** Lines 83-86; the chunks that [json.dump] writes are taken as one
    write of their concatenation. *)
Definition write_output (output : Path) (payload : pydict) : M unit :=
  mkdir_parents (parent output) >>
  open_w output >>
  fh_write output (json_dumps 2 payload) >>
  fh_write output [nl].

(** The f-string [f'NAME="{v}"'], with [name] standing for [NAME=]. *)
Definition env_line (name : pystr) (v : PyVal) : pystr :=
  name ++ [dquote] ++ py_str v ++ [dquote].

(** Lines 90-94. *)
Definition env_lines (payload : pydict) : M (list pystr) :=
  let! cid := subscript payload (lit "client_id") in
  let! csecret := subscript payload (lit "client_secret") in
  let! rtoken := subscript payload (lit "refresh_token") in
  ret [ env_line (lit "YOUTUBE_CLIENT_ID=") cid;
        env_line (lit "YOUTUBE_CLIENT_SECRET=") csecret;
        env_line (lit "YOUTUBE_REFRESH_TOKEN=") rtoken ].

(** [p.write_text(data, encoding="utf-8")] *)
Definition write_text (p : Path) (data : pystr) : M unit :=
  open_w p >> fh_write p data.

(** Lines 89-95. *)
Definition write_env (env_file : Path) (payload : pydict) : M unit :=
  mkdir_parents (parent env_file) >>
  let! lines := env_lines payload in
  write_text env_file (join [nl] lines ++ [nl]).

Definition banner : pystr :=
  [nl] ++ lit "Copy these values into your environment (store securely):"
       ++ [nl].

Definition export_hint : pystr :=
  [nl] ++ lit "Export the client_id, client_secret, and refresh_token as env vars before running the service.".

(** Lines 98-100. *)
Definition narrate (payload : pydict) : M unit :=
  print banner >>
  print (json_dumps 2 payload) >>
  print export_hint.

Definition client_secret_missing (client_secret_path : Path) : exn :=
  FileNotFoundError
    (lit "Client secret file not found: " ++ path_str client_secret_path).

(** Lines 64-80: everything up to the payload. *)
Definition obtain_payload (client_secret_path : Path) (scopes : list pystr)
    (use_console : bool) : M pydict :=
  let! found := path_exists client_secret_path in
  if negb found then raise (client_secret_missing client_secret_path)
  else
    let! flow :=
      call_from_client_secrets_file (path_str client_secret_path) scopes in
    let! creds :=
      (if use_console then call_run_console flow
       else call_run_local_server flow 0) in
    build_payload flow creds.

(** Lines 82-100: the sinks.  A [Path] object is always truthy, so
    [if output:] tests for [None] only. *)
Definition emit (payload : pydict) (output env_file : option Path)
    (quiet : bool) : M unit :=
  match output with
  | Some p => write_output p payload
  | None => ret tt
  end >>
  match env_file with
  | Some q => write_env q payload
  | None => ret tt
  end >>
  if negb quiet then narrate payload else ret tt.

Definition run_flow (client_secret_path : Path) (scopes : list pystr)
    (use_console : bool) (output env_file : option Path) (quiet : bool)
  : M unit :=
  let! payload := obtain_payload client_secret_path scopes use_console in
  emit payload output env_file quiet.

End RunFlow.


(** * Notions used in the statements *)

(** A computation keeps a component of the world when, whatever its
    outcome, that component is the same afterwards. *)
Definition keeps {A C} (proj : World -> C) (m : M A) : Prop :=
  forall w, proj (m w).2 = proj w.

Definition is_ascii (c : Z) : bool := (0 <=? c) && (c <? 128).
Definition all_ascii (s : pystr) : bool := forallb is_ascii s.

(** Directory creation only adds directories at paths that were free. *)
Definition grows_by_dirs (f f' : gmap (list (list Z)) node) : Prop :=
  forall x, f' !! x = f !! x \/ (f !! x = None /\ f' !! x = Some Dir).

(** The text handed to [write_text] for given values. *)
Definition env_text (cid csecret rtoken : PyVal) : pystr :=
  join [nl] [ env_line (lit "YOUTUBE_CLIENT_ID=") cid;
              env_line (lit "YOUTUBE_CLIENT_SECRET=") csecret;
              env_line (lit "YOUTUBE_REFRESH_TOKEN=") rtoken ] ++ [nl].

Inductive Sink : Type := OutputSink | EnvSink.

Definition write_sink (s : Sink) : list (list Z) -> pydict -> M unit :=
  match s with
  | OutputSink => write_output
  | EnvSink => write_env
  end.

(** The text a sink hands to the file, as a function of the payload
    alone. *)
Definition sink_text (s : Sink) (pl : pydict) : option pystr :=
  match s with
  | OutputSink => Some (json_dumps 2 pl ++ [nl])
  | EnvSink =>
      match dict_get pl (lit "client_id"), dict_get pl (lit "client_secret"),
            dict_get pl (lit "refresh_token") with
      | Some cid, Some csecret, Some rtoken =>
          Some (env_text cid csecret rtoken)
      | _, _, _ => None
      end
  end.

(** What a run obtained from the delegate: the client-secret file exists,
    the flow was constructed from it, the selected consent variant returned
    [creds], and the client configuration holds [cid] and [csecret]. *)
Definition acquired (d : Delegate) (f : gmap (list (list Z)) node)
    (client_secret_path : list (list Z)) (scopes : list pystr)
    (use_console : bool) (cid csecret : PyVal) (creds : Credentials) : Prop :=
  is_Some (node_at f client_secret_path)
  /\ exists flow,
       from_client_secrets_file d f (path_str client_secret_path) scopes
         = Ok flow
       /\ (if use_console then run_console d flow
           else run_local_server d flow 0) = Ok creds
       /\ dict_get (client_config flow) (lit "client_id") = Some cid
       /\ dict_get (client_config flow) (lit "client_secret") = Some csecret.

(** The calls a run makes to the delegate once the flow is constructed. *)
Definition delegate_calls (client_secret_path : list (list Z))
    (scopes : list pystr) (use_console : bool) : list Call :=
  [ CallFromClientSecretsFile (path_str client_secret_path) scopes;
    if use_console then CallRunConsole else CallRunLocalServer 0 ].

(** The documented layout of the output file, written out: an object with
    the five keys in this order, one per line at two spaces, and a trailing
    newline. *)
Definition quoted (s : pystr) : pystr := [dquote] ++ s ++ [dquote].

Definition json_line (key : string) (v : PyVal) : pystr :=
  lit "  " ++ quoted (lit key) ++ lit ": " ++ encode_value v.

Definition output_text (cid csecret rtoken atoken expiry_value : PyVal)
  : pystr :=
  lit "{" ++ [nl]
  ++ json_line "client_id" cid ++ lit "," ++ [nl]
  ++ json_line "client_secret" csecret ++ lit "," ++ [nl]
  ++ json_line "refresh_token" rtoken ++ lit "," ++ [nl]
  ++ json_line "access_token" atoken ++ lit "," ++ [nl]
  ++ json_line "token_expiry" expiry_value ++ [nl]
  ++ lit "}" ++ [nl].

(** The shape [YYYY-MM-DDTHH:MM:SS] or [YYYY-MM-DDTHH:MM:SS.ffffff] of an
    ISO-8601 date and time. *)
Definition is_digit (c : Z) : bool := (48 <=? c) && (c <=? 57).

Fixpoint take_digits (n : nat) (s : pystr) : option pystr :=
  match n with
  | O => Some s
  | S n' =>
      match s with
      | c :: r => if is_digit c then take_digits n' r else None
      | [] => None
      end
  end.

Definition expect (c : Z) (s : pystr) : option pystr :=
  match s with
  | c' :: r => if c' =? c then Some r else None
  | [] => None
  end.

Definition and_then {A B} (o : option A) (k : A -> option B) : option B :=
  match o with
  | Some a => k a
  | None => None
  end.

Definition iso8601_shape (s : pystr) : bool :=
  match
    and_then (take_digits 4 s) (fun s =>
    and_then (expect 45 s) (fun s =>
    and_then (take_digits 2 s) (fun s =>
    and_then (expect 45 s) (fun s =>
    and_then (take_digits 2 s) (fun s =>
    and_then (expect 84 s) (fun s =>
    and_then (take_digits 2 s) (fun s =>
    and_then (expect 58 s) (fun s =>
    and_then (take_digits 2 s) (fun s =>
    and_then (expect 58 s) (fun s =>
    take_digits 2 s))))))))))
  with
  | Some [] => true
  | Some (46 :: r) =>
      match take_digits 6 r with
      | Some [] => true
      | _ => false
      end
  | _ => false
  end.

(** Characters that the JSON encoder copies unchanged. *)
Definition is_plain (c : Z) : bool :=
  (32 <=? c) && (c <=? 126) && negb (c =? dquote) && negb (c =? backslash).

(** The world once the calls [cs] are added to the log. *)
Definition logged (w : World) (cs : list Call) : World :=
  mk_world (fs w) (stdout w) (calls w ++ cs).

(** What a run that is not quiet prints. *)
Definition narration (pl : pydict) : pystr :=
  banner ++ [nl] ++ json_dumps 2 pl ++ [nl] ++ export_hint ++ [nl].

(** ** All-or-nothing, as the specification words it *)

(** A requested sink is written when a regular file is at its path. *)
Definition sink_present (f : gmap (list (list Z)) node)
    (o : option (list (list Z))) : Prop :=
  match o with
  | Some p => exists c, f !! p = Some (File c)
  | None => True
  end.

(** No output file was produced: every regular file of [f'] was already in
    [f] with the same content. *)
Definition no_file_produced (f f' : gmap (list (list Z)) node) : Prop :=
  forall p c, f' !! p = Some (File c) -> f !! p = Some (File c).

Definition all_or_nothing (d : Delegate) (secret : list (list Z))
    (scopes : list pystr) (use_console : bool)
    (output env_file : option (list (list Z))) (quiet : bool) (w : World)
  : Prop :=
  let r := run_flow d secret scopes use_console output env_file quiet w in
  (r.1 = Ok tt /\ sink_present (fs r.2) output
   /\ sink_present (fs r.2) env_file)
  \/ ((exists e, r.1 = Raise e) /\ no_file_produced (fs w) (fs r.2)).

(** Errors that come from writing a sink: an operating-system error or an
    encoding error. *)
Definition is_sink_error (e : exn) : bool :=
  match e with
  | OSError _ _ | UnicodeEncodeError => true
  | _ => false
  end.

Definition sink_error (e : exn) : Prop := is_sink_error e = true.

(** A computation raises only exceptions satisfying [P]. *)
Definition raises_only {A} (P : exn -> Prop) (m : M A) : Prop :=
  forall w e w', m w = (Raise e, w') -> P e.

(** ** Shell reading of a double-quoted assignment

    Inside double quotes the shell ends the string at the first unescaped
    double quote; a backslash escapes a dollar sign, a backquote, a double
    quote or a backslash, is dropped together with a following newline, and
    is literal before any other character; an unescaped dollar sign or
    backquote starts an expansion, so the text is not a literal. *)
Definition sh_escapable (c : Z) : bool :=
  (c =? 36) || (c =? 96) || (c =? dquote) || (c =? backslash).

Fixpoint sh_dquoted (s : pystr) : option (pystr * pystr) :=
  match s with
  | [] => None
  | c :: r =>
      if c =? dquote then Some ([], r)
      else if (c =? 36) || (c =? 96) then None
      else if c =? backslash then
        match r with
        | [] => None
        | e :: r' =>
            if sh_escapable e then prepend e (sh_dquoted r')
            else if e =? nl then sh_dquoted r'
            else prepend backslash (prepend e (sh_dquoted r'))
        end
      else prepend c (sh_dquoted r)
  end.

Fixpoint strip_prefix (pre s : pystr) : option pystr :=
  match pre, s with
  | [], _ => Some s
  | a :: pre', b :: s' => if a =? b then strip_prefix pre' s' else None
  | _ :: _, [] => None
  end.

(** The value that the line [line] assigns when it is exactly
    [name] (ending in [=]) followed by one double-quoted string. *)
Definition sh_assigned_value (name line : pystr) : option pystr :=
  match strip_prefix name line with
  | Some (34 :: body) =>
      match sh_dquoted body with
      | Some (v, []) => Some v
      | _ => None
      end
  | _ => None
  end.

(** Characters that stand for themselves inside double quotes. *)
Definition sh_plain (c : Z) : bool :=
  negb (sh_escapable c).

(** ** A mocked delegate and concrete worlds *)

Definition mock_config : pydict :=
  [ (lit "client_id", PyStr (lit "abc"));
    (lit "client_secret", PyStr (lit "xyz")) ].

(** A delegate that accepts any client-secret file and returns [creds]
    from either consent variant. *)
Definition mock_delegate (creds : Credentials) : Delegate :=
  mk_delegate (fun _ _ _ => Ok (mk_flow mock_config))
              (fun _ => Ok creds)
              (fun _ _ => Ok creds).

Definition creds_r1 : Credentials :=
  mk_credentials (PyStr (lit "r1")) (PyStr (lit "a1")) None.

Definition creds_no_refresh : Credentials :=
  mk_credentials PyNone (PyStr (lit "a1")) None.

Definition expiry_2024 : datetime :=
  mk_datetime 2024 2 29 13 5 9 0 eq_refl.

Definition creds_with_expiry : Credentials :=
  mk_credentials (PyStr (lit "r1")) (PyStr (lit "a1")) (Some expiry_2024).

(** A refresh token holding a double quote, between [r] and [1]. *)
Definition creds_quote : Credentials :=
  mk_credentials (PyStr [114; dquote; 49]) (PyStr (lit "a1")) None.

(** A refresh token made of a lone high surrogate followed by a lone low
    surrogate: the two code points U+D83D U+DE00. *)
Definition creds_surrogates : Credentials :=
  mk_credentials (PyStr [55357; 56832]) (PyStr (lit "a1")) None.

Definition secret_path : list (list Z) := [lit "client_secret.json"].
Definition out_path : list (list Z) := [lit "out"; lit "creds.json"].
Definition env_path : list (list Z) := [lit "out"; lit "youtube.env"].
Definition upload_scope : list (list Z) :=
  [lit "https://www.googleapis.com/auth/youtube.upload"].

(** The client-secret file is present; nothing else is. *)
Definition world_secret : World :=
  mk_world {[ secret_path := File (lit "{}") ]} [] [].

(** As [world_secret], with a directory [conf] besides. *)
Definition world_conf_dir : World :=
  mk_world (<[ [lit "conf"] := Dir ]> {[ secret_path := File (lit "{}") ]})
           [] [].

(** An empty working directory. *)
Definition world_empty : World := mk_world ∅ [] [].

(** ** Round trip through the output file, as the specification words it *)

(** No high surrogate is immediately followed by a low surrogate. *)
Fixpoint no_surrogate_pair (s : pystr) : bool :=
  match s with
  | c :: r =>
      match r with
      | c2 :: _ => negb (is_high_surrogate c && is_low_surrogate c2)
      | [] => true
      end && no_surrogate_pair r
  | [] => true
  end.

(** A [str]: code points only; and without such a pair. *)
Definition str_ok (s : pystr) : bool :=
  forallb is_code_point s && no_surrogate_pair s.

Definition val_ok (v : PyVal) : bool :=
  match v with
  | PyNone => true
  | PyStr s => str_ok s
  end.

Definition dict_ok (d : pydict) : bool :=
  forallb (fun kv => str_ok kv.1 && val_ok kv.2) d.

(** Writing the payload to the output path and parsing the file again
    gives the payload back. *)
Definition round_trips (pl : pydict) : Prop :=
  forall (p : list (list Z)) (w w' : World),
    write_output p pl w = (Ok tt, w') ->
    exists bs, fs w' !! p = Some (File bs) /\ json_load_bytes bs = Some pl.

(** The forms the encoder gives to one character. *)
Inductive esc_case (c : Z) : pystr -> Prop :=
  | esc_short (e : Z) :
      unescape e = Some c -> e <> 117 -> esc_case c [backslash; e]
  | esc_plain :
      is_plain c = true -> esc_case c [c]
  | esc_u :
      0 <= c < 65536 -> esc_case c (u_escape c)
  | esc_pair (hi lo : Z) :
      is_high_surrogate hi = true -> is_low_surrogate lo = true ->
      c = 65536 + Z.lor (Z.shiftl (hi - 55296) 10) (lo - 56320) ->
      esc_case c (u_escape hi ++ u_escape lo).

(** The text that follows the first item of a non-empty dict in
    [json_dumps 2]. *)
Fixpoint more_items (d : pydict) : pystr :=
  match d with
  | [] => [nl] ++ lit "}"
  | kv :: d' =>
      lit "," ++ [nl] ++ lit "  " ++ [dquote] ++ escape_chars kv.1 ++ [dquote]
        ++ lit ": " ++ encode_value kv.2 ++ more_items d'
  end.

(** [text.split("\n")] *)
Fixpoint split_lines_acc (cur : pystr) (text : pystr) : list pystr :=
  match text with
  | [] => [rev cur]
  | c :: r =>
      if c =? nl then rev cur :: split_lines_acc [] r
      else split_lines_acc (c :: cur) r
  end.

Definition split_lines (text : pystr) : list pystr := split_lines_acc [] text.

Definition no_newline (s : pystr) : bool := forallb (fun c => negb (c =? nl)) s.

(** * Further properties of [run_flow]: definitions for their statements *)

(** A computation leaves alone every entry of the file system at a path
    outside [ps], whatever its outcome. *)
Definition spares {A} (ps : list (list (list Z))) (m : M A) : Prop :=
  forall w (x : list (list Z)) n,
    ~ In x ps -> fs w !! x = Some n -> fs (m w).2 !! x = Some n.

(** The paths a run is asked to write. *)
Definition sink_paths (output env_file : option (list (list Z)))
  : list (list (list Z)) :=
  match output with Some p => [p] | None => [] end
  ++ match env_file with Some q => [q] | None => [] end.

(** The first of the two keys read at lines 75-76 that the client
    configuration lacks. *)
Definition missing_config_key (cfg : pydict) : option pystr :=
  match dict_get cfg (lit "client_id") with
  | None => Some (lit "client_id")
  | Some _ =>
      match dict_get cfg (lit "client_secret") with
      | None => Some (lit "client_secret")
      | Some _ => None
      end
  end.

(** A Unicode scalar value: a code point that is not a surrogate. *)
Definition is_scalar (c : Z) : bool := is_code_point c && negb (is_surrogate c).

(** Delegates that fail: in the constructor, in both consent variants, and
    one whose client configuration has no [client_id]. *)
Definition delegate_bad_file : Delegate :=
  mk_delegate (fun _ _ _ => Raise (DelegateError (lit "invalid client secrets")))
              (fun _ => Ok creds_r1)
              (fun _ _ => Ok creds_r1).

Definition delegate_denied : Delegate :=
  mk_delegate (fun _ _ _ => Ok (mk_flow mock_config))
              (fun _ => Raise (DelegateError (lit "access_denied")))
              (fun _ _ => Raise (DelegateError (lit "access_denied"))).

Definition delegate_no_client_id : Delegate :=
  mk_delegate
    (fun _ _ _ => Ok (mk_flow [(lit "client_secret", PyStr (lit "xyz"))]))
    (fun _ => Ok creds_r1)
    (fun _ _ => Ok creds_r1).

(** As [world_secret], with a regular file [out] besides. *)
Definition world_out_file : World :=
  mk_world (<[ [lit "out"] := File (lit "x") ]>
              {[ secret_path := File (lit "{}") ]})
           [] [].

(** An empty working directory but for the directory [conf]. *)
Definition world_conf_only : World :=
  mk_world {[ [lit "conf"] := Dir ]} [] [].

(** * The command line: [parse_args] and [main]

    [parse_args] declares its options and leaves the parsing to [argparse];
    the engine below follows [ArgumentParser.parse_args] of CPython 3.11 for
    a parser whose arguments are all optional ones ([store], [store_true]
    and the help action), which is what [parse_args] builds.  The table of
    Unicode decimal digits that the parser's negative-number pattern reads
    ([\d]) is a parameter, [is_decimal_digit]. *)

Inductive Value : Type :=
  | VNone
  | VBool (b : bool)
  | VStr (s : list Z)
  | VList (l : list (list Z)).

Inductive ActionKind : Type := StoreAction | StoreTrueAction | HelpAction.

(** [nargs]: [None] (one argument), ["+"], or the [0] of the actions that
    take no argument. *)
Inductive Nargs : Type := NargsOne | NargsOneOrMore | NargsZero.

(** An [argparse.Action]; [None] in [dest] or [default] is [SUPPRESS]. *)
Record Action : Type := mk_action {
  option_strings : list (list Z);
  dest : option (list Z);
  kind : ActionKind;
  nargs : Nargs;
  required : bool;
  default : option Value
}.

Definition dash : Z := 45.

Fixpoint lstrip_dashes (s : pystr) : pystr :=
  match s with
  | c :: r => if c =? dash then lstrip_dashes r else s
  | [] => []
  end.

Definition is_long_option (o : pystr) : bool :=
  match o with
  | a :: b :: _ => (a =? dash) && (b =? dash)
  | _ => false
  end.

(** [_get_optional_kwargs]: the destination is inferred from the first long
    option string, or the first option string when none is long: leading
    dashes are dropped and the other dashes become underscores. *)
Definition infer_dest (option_strings : list pystr) : pystr :=
  let chosen :=
    match filter (fun o => is_long_option o = true) option_strings with
    | o :: _ => o
    | [] => hd [] option_strings
    end in
  map (fun c => if c =? dash then 95 else c) (lstrip_dashes chosen).

(** [parser.add_argument] for the default [store] action, and with the
    [store_true] action. *)
Definition add_argument (option_strings : list pystr) (nargs : Nargs)
    (required : bool) (default : Value) : Action :=
  mk_action option_strings (Some (infer_dest option_strings)) StoreAction
    nargs required (Some default).

Definition add_argument_store_true (option_strings : list pystr) : Action :=
  mk_action option_strings (Some (infer_dest option_strings)) StoreTrueAction
    NargsZero false (Some (VBool false)).

(** The [-h/--help] action that [ArgumentParser()] adds first. *)
Definition help_action : Action :=
  mk_action [lit "-h"; lit "--help"] None HelpAction NargsZero false None.

Definition default_scope : pystr :=
  lit "https://www.googleapis.com/auth/youtube.upload".

(** Lines 23-52: the parser of [parse_args], as the list of its actions. *)
Definition parser : list Action :=
  [ help_action;
    add_argument [lit "--client-secret"] NargsOne true VNone;
    add_argument [lit "--scopes"] NargsOneOrMore false (VList [default_scope]);
    add_argument_store_true [lit "--no-local-server"];
    add_argument [lit "--output"] NargsOne false VNone;
    add_argument [lit "--env-file"] NargsOne false VNone;
    add_argument_store_true [lit "--quiet"] ].

(** ** Strings *)

Definition str_eqb (a b : pystr) : bool := bool_decide (a = b).

Fixpoint starts_with (s pre : pystr) {struct pre} : bool :=
  match pre, s with
  | [], _ => true
  | a :: pre', b :: s' => (a =? b) && starts_with s' pre'
  | _ :: _, [] => false
  end.

Definition contains (c : Z) (s : pystr) : bool := existsb (Z.eqb c) s.

(** [s.split(c, 1)] for a string that holds [c]: the text before the first
    [c] and the text after it. *)
Fixpoint split_at (c : Z) (s : pystr) : pystr * pystr :=
  match s with
  | [] => ([], [])
  | x :: r =>
      if x =? c then ([], r)
      else let '(a, b) := split_at c r in (x :: a, b)
  end.

(** ** The namespace *)

Definition Namespace := list (list Z * Value).

Fixpoint setattr (ns : Namespace) (name : pystr) (v : Value) : Namespace :=
  match ns with
  | [] => [(name, v)]
  | (n, x) :: ns' =>
      if str_eqb n name then (n, v) :: ns' else (n, x) :: setattr ns' name v
  end.

Fixpoint getattr (ns : Namespace) (name : pystr) : option Value :=
  match ns with
  | [] => None
  | (n, x) :: ns' => if str_eqb n name then Some x else getattr ns' name
  end.

(** The defaults that [parse_known_args] sets before parsing. *)
Definition initial_namespace (actions : list Action) : Namespace :=
  fold_left
    (fun ns a =>
       match dest a, default a with
       | Some d, Some v =>
           match getattr ns d with
           | Some _ => ns
           | None => setattr ns d v
           end
       | _, _ => ns
       end)
    actions [].

(** ** Telling options from arguments *)

(** [_option_string_actions], in insertion order. *)
Definition option_string_actions (actions : list Action)
  : list (list Z * Action) :=
  flat_map (fun a => map (fun o => (o, a)) (option_strings a)) actions.

Fixpoint lookup_option (osa : list (list Z * Action)) (o : pystr)
  : option Action :=
  match osa with
  | [] => None
  | (o', a) :: osa' => if str_eqb o' o then Some a else lookup_option osa' o
  end.

(** What [_parse_known_args] makes of one argument string: an argument
    (pattern [A]), the separator [--] (pattern [-]), or an option (pattern
    [O]), which is a known one with its option string and explicit
    argument, or an unknown one; an abbreviation with several completions
    is an error. *)
Inductive Tok : Type :=
  | TokArg
  | TokDashDash
  | TokOpt (a : Action) (option_string : list Z) (explicit : option (list Z))
  | TokUnknown
  | TokAmbiguous.

Section Argparse.

(** [\d] of the [re] module on [str] patterns: the Unicode decimal
    digits. *)
Variable is_decimal_digit : Z -> bool.

Definition digits_only (s : pystr) : bool := forallb is_decimal_digit s.

(** One of the two alternatives [-\d+] and [-\d*\.\d+], on the whole
    string. *)
Definition negative_number_body (s : pystr) : bool :=
  match s with
  | c :: r =>
      (c =? dash)
      && ((negb (bool_decide (r = [])) && digits_only r)
          || (contains 46 r
              && let '(a, b) := split_at 46 r in
                 digits_only a && negb (bool_decide (b = []))
                 && digits_only b))
  | [] => false
  end.

(** [_negative_number_matcher.match(s)] for the pattern
    [^-\d+$|^-\d*\.\d+$]; [$] also matches before a final newline. *)
Definition looks_like_negative_number (s : pystr) : bool :=
  negative_number_body s
  || match rev s with
     | c :: r => (c =? nl) && negative_number_body (rev r)
     | [] => false
     end.

(** [_get_option_tuples] *)
Definition get_option_tuples (osa : list (list Z * Action)) (arg : pystr)
  : list (Action * list Z * option (list Z)) :=
  match arg with
  | _ :: c1 :: _ =>
      if c1 =? dash then
        let '(prefix, explicit) :=
          if contains 61 arg
          then let '(a, b) := split_at 61 arg in (a, Some b)
          else (arg, None) in
        flat_map
          (fun oa : list Z * Action =>
             if starts_with oa.1 prefix then [(oa.2, oa.1, explicit)] else [])
          osa
      else
        flat_map
          (fun oa : list Z * Action =>
             if str_eqb oa.1 (firstn 2 arg)
             then [(oa.2, oa.1, Some (skipn 2 arg))]
             else if starts_with oa.1 arg then [(oa.2, oa.1, None)]
             else [])
          osa
  | _ => []
  end.

(** [_parse_optional] *)
Definition parse_optional (osa : list (list Z * Action)) (arg : pystr) : Tok :=
  match arg with
  | [] => TokArg
  | c0 :: _ =>
      if negb (c0 =? dash) then TokArg
      else
        match lookup_option osa arg with
        | Some a => TokOpt a arg None
        | None =>
            if bool_decide (length arg = 1%nat) then TokArg
            else
              let exact_before_equals :=
                if contains 61 arg then
                  let '(o, e) := split_at 61 arg in
                  match lookup_option osa o with
                  | Some a => Some (TokOpt a o (Some e))
                  | None => None
                  end
                else None in
              match exact_before_equals with
              | Some t => t
              | None =>
                  match get_option_tuples osa arg with
                  | _ :: _ :: _ => TokAmbiguous
                  | [(a, o, e)] => TokOpt a o e
                  | [] =>
                      if looks_like_negative_number arg then TokArg
                      else if contains 32 arg then TokArg
                      else TokUnknown
                  end
              end
        end
  end.

(** The first loop of [_parse_known_args]: every string after a [--] is an
    argument. *)
Fixpoint classify (osa : list (list Z * Action)) (argv : list pystr)
  : list (list Z * Tok) :=
  match argv with
  | [] => []
  | arg :: rest =>
      if str_eqb arg (lit "--")
      then (arg, TokDashDash) :: map (fun r => (r, TokArg)) rest
      else (arg, parse_optional osa arg) :: classify osa rest
  end.

(** ** Consuming the options *)

Inductive ParseError : Type :=
  | AmbiguousOption (arg : list Z)
  | ExpectedOneArgument (a : Action)
  | ExpectedAtLeastOneArgument (a : Action)
  | IgnoredExplicitArgument (a : Action) (explicit : list Z)
  | RequiredArguments (names : list (list Z))
  | UnrecognizedArguments (extras : list (list Z)).

(** How [parse_args] ends: with the namespace, with the exit of the help
    action (status 0, after printing the help), or with [parser.error]
    (status 2, after printing the usage and the message to the standard
    error stream). *)
Inductive ParseOutcome : Type :=
  | Parsed (ns : Namespace)
  | HelpExit
  | UsageError (e : ParseError).

Record ParseState : Type := mk_state {
  st_namespace : Namespace;
  st_seen : list (list (list Z));
  st_extras : list (list Z)
}.

(** The leading arguments (pattern [A]) of the strings that follow an
    option, and what comes after them. *)
Fixpoint leading_args (toks : list (list Z * Tok))
  : list (list Z) * list (list Z * Tok) :=
  match toks with
  | (raw, TokArg) :: rest =>
      let '(args, rest') := leading_args rest in (raw :: args, rest')
  | _ => ([], toks)
  end.

(** [_match_argument] on the strings that follow the option. *)
Definition match_following (a : Action) (following : list (list Z * Tok))
  : ParseError + (list (list Z) * list (list Z * Tok)) :=
  match nargs a with
  | NargsZero => inr ([], following)
  | NargsOne =>
      match following with
      | (raw, TokArg) :: rest => inr ([raw], rest)
      | _ => inl (ExpectedOneArgument a)
      end
  | NargsOneOrMore =>
      match leading_args following with
      | ([], _) => inl (ExpectedAtLeastOneArgument a)
      | (args, rest) => inr (args, rest)
      end
  end.

Definition is_single_dash_option (o : pystr) : bool :=
  match o with
  | _ :: c1 :: _ => negb (c1 =? dash)
  | _ => false
  end.

(** The loop of [consume_optional] for an option string that came with an
    explicit argument [e]: an action without argument behind a single dash
    hands the rest of the string on to the next single-dash option. *)
Fixpoint consume_explicit (osa : list (list Z * Action)) (a : Action)
    (option_string : pystr) (e : pystr) (following : list (list Z * Tok))
    (acc : list (Action * list (list Z)))
  : ParseError + (list (Action * list (list Z)) * list (list Z * Tok)) :=
  match nargs a with
  | NargsZero =>
      match e with
      | c :: e' =>
          if is_single_dash_option option_string then
            match lookup_option osa [dash; c] with
            | Some a' =>
                match e' with
                | [] =>
                    match match_following a' following with
                    | inl err => inl err
                    | inr (args, rest) =>
                        inr (acc ++ [(a, []); (a', args)], rest)
                    end
                | _ :: _ =>
                    consume_explicit osa a' [dash; c] e' following
                      (acc ++ [(a, [])])
                end
            | None => inl (IgnoredExplicitArgument a e)
            end
          else inl (IgnoredExplicitArgument a e)
      | [] => inl (IgnoredExplicitArgument a e)
      end
  | _ => inr (acc ++ [(a, [e])], following)
  end.

(** [consume_optional] *)
Definition consume_optional (osa : list (list Z * Action)) (a : Action)
    (option_string : pystr) (explicit : option pystr)
    (following : list (list Z * Tok))
  : ParseError + (list (Action * list (list Z)) * list (list Z * Tok)) :=
  match explicit with
  | Some e => consume_explicit osa a option_string e following []
  | None =>
      match match_following a following with
      | inl err => inl err
      | inr (args, rest) => inr ([(a, args)], rest)
      end
  end.

Fixpoint remove_first (x : pystr) (l : list pystr) : list pystr :=
  match l with
  | [] => []
  | y :: l' => if str_eqb y x then l' else y :: remove_first x l'
  end.

(** [_get_values]: the first [--] among the argument strings is dropped;
    one string for [nargs=None] is the value itself, anything else is a
    list. *)
Definition get_values (a : Action) (args : list pystr) : Value :=
  match nargs a, remove_first (lit "--") args with
  | NargsOne, [s] => VStr s
  | _, args' => VList args'
  end.

(** [take_action]: [None] when the help action exits. *)
Definition take_action (st : ParseState) (a : Action) (args : list pystr)
  : option ParseState :=
  let seen := st_seen st ++ [option_strings a] in
  match kind a with
  | HelpAction => None
  | StoreAction =>
      Some (mk_state
              (match dest a with
               | Some d => setattr (st_namespace st) d (get_values a args)
               | None => st_namespace st
               end)
              seen (st_extras st))
  | StoreTrueAction =>
      Some (mk_state
              (match dest a with
               | Some d => setattr (st_namespace st) d (VBool true)
               | None => st_namespace st
               end)
              seen (st_extras st))
  end.

Fixpoint take_actions (st : ParseState)
    (tuples : list (Action * list (list Z))) : option ParseState :=
  match tuples with
  | [] => Some st
  | (a, args) :: rest =>
      match take_action st a args with
      | Some st' => take_actions st' rest
      | None => None
      end
  end.

Definition add_extra (st : ParseState) (raw : pystr) : ParseState :=
  mk_state (st_namespace st) (st_seen st) (st_extras st ++ [raw]).

(** The main loop of [_parse_known_args], string by string: what is not an
    option, and not taken by one, is an extra. *)
Fixpoint consume (fuel : nat) (osa : list (list Z * Action))
    (toks : list (list Z * Tok)) (st : ParseState)
  : ParseError + option ParseState :=
  match fuel with
  | O => inr (Some st)
  | S fuel' =>
      match toks with
      | [] => inr (Some st)
      | (raw, TokOpt a o explicit) :: rest =>
          match consume_optional osa a o explicit rest with
          | inl err => inl err
          | inr (tuples, rest') =>
              match take_actions st tuples with
              | None => inr None
              | Some st' => consume fuel' osa rest' st'
              end
          end
      | (raw, _) :: rest => consume fuel' osa rest (add_extra st raw)
      end
  end.

Fixpoint first_ambiguous (toks : list (list Z * Tok)) : option pystr :=
  match toks with
  | [] => None
  | (raw, TokAmbiguous) :: _ => Some raw
  | _ :: rest => first_ambiguous rest
  end.

(** [_get_action_name] of an optional. *)
Definition action_name (a : Action) : pystr := join (lit "/") (option_strings a).

(** [parser.parse_args(argv)] *)
Definition parse_args_with (actions : list Action) (argv : list pystr)
  : ParseOutcome :=
  let osa := option_string_actions actions in
  let toks := classify osa argv in
  match first_ambiguous toks with
  | Some raw => UsageError (AmbiguousOption raw)
  | None =>
      match consume (length toks) osa toks
              (mk_state (initial_namespace actions) [] []) with
      | inl err => UsageError err
      | inr None => HelpExit
      | inr (Some st) =>
          match
            filter
              (fun a =>
                 required a
                 && negb (bool_decide (option_strings a ∈ st_seen st)) = true)
              actions
          with
          | (_ :: _) as missing =>
              UsageError (RequiredArguments (map action_name missing))
          | [] =>
              match st_extras st with
              | (_ :: _) as extras => UsageError (UnrecognizedArguments extras)
              | [] => Parsed (st_namespace st)
              end
          end
      end
  end.

(** Lines 22-53, on [sys.argv[1:]]. *)
Definition parse_args (argv : list pystr) : ParseOutcome :=
  parse_args_with parser argv.

End Argparse.

(** ** [main] *)

(** [s.split(c)] *)
Fixpoint split_on (c : Z) (s : pystr) : list pystr :=
  match s with
  | [] => [[]]
  | x :: r =>
      if x =? c then [] :: split_on c r
      else
        match split_on c r with
        | h :: t => (x :: h) :: t
        | [] => [[x]]
        end
  end.

(** [pathlib.Path(s)] on a POSIX system, for the paths the file-system
    model covers: relative ones without [..] parts.  Empty parts and [.]
    parts are dropped, as [pathlib] does; [None] is a path outside the
    model. *)
Definition pathlib_Path (s : pystr) : option Path :=
  if starts_with s (lit "/") then None
  else
    let parts :=
      filter (fun x => x <> [] /\ x <> lit ".") (split_on 47 s) in
    if bool_decide (lit ".." ∈ parts) then None else Some parts.

(** Truth value of an attribute of the namespace. *)
Definition truthy (v : Value) : bool :=
  match v with
  | VNone => false
  | VBool b => b
  | VStr s => negb (bool_decide (s = []))
  | VList l => negb (bool_decide (l = []))
  end.

(** How the script ends: [main] returns, the interpreter exits with a
    status ([SystemExit] from [argparse]), an exception leaves [main], or
    the run leaves the model (a path outside it, or a [scopes] value that is
    not a list). *)
Inductive Ending : Type :=
  | Returns
  | Exits (status : Z)
  | Raises (e : exn)
  | RaisesTypeError
  | RaisesAttributeError (name : list Z)
  | NotModelled.

(** [pathlib.Path(v)]: only a [str] is accepted. *)
Definition path_arg (v : Value) : Ending + Path :=
  match v with
  | VStr s =>
      match pathlib_Path s with
      | Some p => inr p
      | None => inl NotModelled
      end
  | _ => inl RaisesTypeError
  end.

(** [pathlib.Path(v) if v else None] *)
Definition optional_path_arg (v : Value) : Ending + option Path :=
  if truthy v then
    match path_arg v with
    | inl e => inl e
    | inr p => inr (Some p)
    end
  else inr None.

(** How [main] ends when the call of [run_flow] was reached. *)
Definition ending_of (r : Result unit * World) : Ending * World :=
  match r with
  | (Ok _, w') => (Returns, w')
  | (Raise e, w') => (Raises e, w')
  end.

Section Main.

Variable delegate : Delegate.
Variable is_decimal_digit : Z -> bool.

(** [parser.format_help()], which the help action prints. *)
Variable help_text : pystr.

Definition attribute {A : Type} (args : Namespace) (name : pystr)
    (k : Value -> Ending + A) : Ending + A :=
  match getattr args name with
  | Some v => k v
  | None => inl (RaisesAttributeError name)
  end.

(** The arguments of the call of [run_flow] in [main], evaluated from left
    to right. *)
Definition run_flow_arguments (args : Namespace)
  : Ending
    + (Path * list pystr * bool * option Path * option Path * bool) :=
  match attribute args (lit "client_secret") path_arg with
  | inl e => inl e
  | inr client_secret =>
  match attribute args (lit "scopes")
          (fun v => match v with
                    | VList l => inr l
                    | _ => inl NotModelled
                    end) with
  | inl e => inl e
  | inr scopes =>
  match attribute args (lit "no_local_server") (fun v => inr (truthy v)) with
  | inl e => inl e
  | inr no_local_server =>
  match attribute args (lit "output") optional_path_arg with
  | inl e => inl e
  | inr output =>
  match attribute args (lit "env_file") optional_path_arg with
  | inl e => inl e
  | inr env_file =>
  match attribute args (lit "quiet") (fun v => inr (truthy v)) with
  | inl e => inl e
  | inr quiet =>
      inr (client_secret, scopes, no_local_server, output, env_file, quiet)
  end end end end end end.

(** Lines 103-112, with [sys.argv[1:]] as [argv]. *)
Definition main (argv : list pystr) (w : World) : Ending * World :=
  match parse_args is_decimal_digit argv with
  | HelpExit => (Exits 0, mk_world (fs w) (stdout w ++ help_text) (calls w))
  | UsageError _ => (Exits 2, w)
  | Parsed args =>
      match run_flow_arguments args with
      | inl e => (e, w)
      | inr (client_secret, scopes, no_local_server, output, env_file, quiet) =>
          ending_of
            (run_flow delegate client_secret scopes no_local_server output
               env_file quiet w)
      end
  end.

End Main.

(** * The command line: definitions for the statements *)

(** The arguments of the command line that are read as options: those
    before the first [--]. *)
Fixpoint options_part (argv : list pystr) : list pystr :=
  match argv with
  | [] => []
  | arg :: rest =>
      if str_eqb arg (lit "--") then [] else arg :: options_part rest
  end.

(** The errors raised while an option takes its arguments. *)
Definition is_argument_error (e : ParseError) : bool :=
  match e with
  | ExpectedOneArgument _ | ExpectedAtLeastOneArgument _
  | IgnoredExplicitArgument _ _ => true
  | _ => false
  end.

(** ** Command lines in the documented form

    Each option spelled in full, followed by its values as separate
    arguments; options in any order, any number of times. *)
Inductive Item : Type :=
  | ItemClientSecret (v : list Z)
  | ItemScopes (v : list Z) (vs : list (list Z))
  | ItemNoLocalServer
  | ItemOutput (v : list Z)
  | ItemEnvFile (v : list Z)
  | ItemQuiet.

Definition render_item (i : Item) : list pystr :=
  match i with
  | ItemClientSecret v => [lit "--client-secret"; v]
  | ItemScopes v vs => lit "--scopes" :: v :: vs
  | ItemNoLocalServer => [lit "--no-local-server"]
  | ItemOutput v => [lit "--output"; v]
  | ItemEnvFile v => [lit "--env-file"; v]
  | ItemQuiet => [lit "--quiet"]
  end.

Definition command_line (items : list Item) : list pystr :=
  flat_map render_item items.

(** A value that cannot be taken for an option: empty, or not starting
    with a dash. *)
Definition plain_value (v : pystr) : bool :=
  match v with
  | [] => true
  | c :: _ => negb (c =? dash)
  end.

Definition item_values (i : Item) : list pystr :=
  match i with
  | ItemClientSecret v | ItemOutput v | ItemEnvFile v => [v]
  | ItemScopes v vs => v :: vs
  | ItemNoLocalServer | ItemQuiet => []
  end.

Definition plain_item (i : Item) : bool := forallb plain_value (item_values i).

(** What an item asks for: the attribute it sets and the value. *)
Definition item_setting (i : Item) : list Z * Value :=
  match i with
  | ItemClientSecret v => (lit "client_secret", VStr v)
  | ItemScopes v vs => (lit "scopes", VList (v :: vs))
  | ItemNoLocalServer => (lit "no_local_server", VBool true)
  | ItemOutput v => (lit "output", VStr v)
  | ItemEnvFile v => (lit "env_file", VStr v)
  | ItemQuiet => (lit "quiet", VBool true)
  end.

Definition apply_item (ns : Namespace) (i : Item) : Namespace :=
  setattr ns (item_setting i).1 (item_setting i).2.

Definition is_client_secret_item (i : Item) : bool :=
  match i with
  | ItemClientSecret _ => true
  | _ => false
  end.

Definition item_action (i : Item) : Action :=
  match i with
  | ItemClientSecret _ => add_argument [lit "--client-secret"] NargsOne true VNone
  | ItemScopes _ _ =>
      add_argument [lit "--scopes"] NargsOneOrMore false (VList [default_scope])
  | ItemNoLocalServer => add_argument_store_true [lit "--no-local-server"]
  | ItemOutput _ => add_argument [lit "--output"] NargsOne false VNone
  | ItemEnvFile _ => add_argument [lit "--env-file"] NargsOne false VNone
  | ItemQuiet => add_argument_store_true [lit "--quiet"]
  end.

(** The option and argument strings of an item, as the parser classifies
    them. *)
Definition item_tokens (i : Item) : list (list Z * Tok) :=
  (hd [] (render_item i),
   TokOpt (item_action i) (hd [] (render_item i)) None)
  :: map (fun v => (v, TokArg)) (item_values i).

Definition item_step (st : ParseState) (i : Item) : ParseState :=
  mk_state (apply_item (st_namespace st) i)
    (st_seen st ++ [option_strings (item_action i)]) (st_extras st).

(** The last element of a list for which [f] gives a value. *)
Fixpoint last_some {A B : Type} (f : A -> option B) (l : list A) : option B :=
  match l with
  | [] => None
  | x :: r =>
      match last_some f r with
      | Some b => Some b
      | None => f x
      end
  end.

Definition client_secret_of (i : Item) : option pystr :=
  match i with ItemClientSecret v => Some v | _ => None end.

Definition scopes_of (i : Item) : option (list pystr) :=
  match i with ItemScopes v vs => Some (v :: vs) | _ => None end.

Definition output_of (i : Item) : option pystr :=
  match i with ItemOutput v => Some v | _ => None end.

Definition env_file_of (i : Item) : option pystr :=
  match i with ItemEnvFile v => Some v | _ => None end.

Definition is_no_local_server_item (i : Item) : bool :=
  match i with ItemNoLocalServer => true | _ => false end.

Definition is_quiet_item (i : Item) : bool :=
  match i with ItemQuiet => true | _ => false end.

(** The sink asked for by the last value of [--output] or [--env-file], if
    any: none when the option is absent or its value is empty; [None] when
    the path is outside the model. *)
Definition sink_path (v : option pystr) : option (option Path) :=
  match v with
  | None => Some None
  | Some s =>
      if bool_decide (s = []) then Some None
      else
        match pathlib_Path s with
        | Some p => Some (Some p)
        | None => None
        end
  end.

(** The value an item gives to the attribute [name], if it sets it. *)
Definition setting_named (name : list Z) (i : Item) : option Value :=
  if str_eqb (item_setting i).1 name then Some (item_setting i).2 else None.


(** The value of an option that takes one argument, once the option was
    given: a string, or the empty list (which is what [argparse] makes of
    the explicit argument [--], as in [--output=--]). *)
Definition given_value (v : Value) : bool :=
  match v with
  | VStr _ => true
  | VList [] => true
  | _ => false
  end.

Definition optional_value (v : Value) : bool :=
  match v with
  | VNone => true
  | _ => given_value v
  end.

(** The namespace has the six attributes that [main] reads, each of the
    kind its option gives it. *)
Definition namespace_of (cs : Value) (scopes : list pystr) (nls : bool)
    (out env : Value) (quiet : bool) : Namespace :=
  [ (lit "client_secret", cs);
    (lit "scopes", VList scopes);
    (lit "no_local_server", VBool nls);
    (lit "output", out);
    (lit "env_file", env);
    (lit "quiet", VBool quiet) ].

Definition state_ok (st : ParseState) : Prop :=
  exists cs scopes nls out env quiet,
    st_namespace st = namespace_of cs scopes nls out env quiet
    /\ optional_value cs = true
    /\ optional_value out = true
    /\ optional_value env = true
    /\ ([lit "--client-secret"] ∈ st_seen st -> given_value cs = true).

Definition tok_ok (t : list Z * Tok) : Prop :=
  match t.2 with
  | TokOpt a _ _ => In a parser
  | _ => True
  end.

Definition tuple_ok (t : Action * list (list Z)) : Prop :=
  In t.1 parser /\ (nargs t.1 = NargsOne -> exists x, t.2 = [x]).

(** A table of decimal digits that holds the ASCII digits only, and a help
    text, for concrete runs. *)
Definition ascii_digit (c : Z) : bool := (48 <=? c) && (c <=? 57).

Definition sample_help : pystr := lit "usage: get_refresh_token.py [-h]".
(** * Properties *)

(** ** The monad *)

Lemma bind_ok_inv {A B} (m : M A) (k : A -> M B) w b w' :
  bind m k w = (Ok b, w') ->
  exists a w1, m w = (Ok a, w1) /\ k a w1 = (Ok b, w').
Proof.
  unfold bind. destruct (m w) as [[a|e] w1]; intros H.
  - exists a, w1. split; [reflexivity | exact H].
  - discriminate.
Qed.

Lemma bind_raise_inv {A B} (m : M A) (k : A -> M B) w e w' :
  bind m k w = (Raise e, w') ->
  m w = (Raise e, w') \/ exists a w1, m w = (Ok a, w1) /\ k a w1 = (Raise e, w').
Proof.
  unfold bind. destruct (m w) as [[a|e0] w1]; intros H.
  - right. exists a, w1. split; [reflexivity | exact H].
  - left. inversion H. reflexivity.
Qed.

Lemma bind_ok {A B} (m : M A) (k : A -> M B) w a w1 :
  m w = (Ok a, w1) -> bind m k w = k a w1.
Proof. unfold bind. intros ->. reflexivity. Qed.

Lemma bind_raise {A B} (m : M A) (k : A -> M B) w e w1 :
  m w = (Raise e, w1) -> bind m k w = (Raise e, w1).
Proof. unfold bind. intros ->. reflexivity. Qed.


Lemma keeps_ret {A C} (proj : World -> C) (a : A) : keeps proj (ret a).
Proof. intros w. reflexivity. Qed.

Lemma keeps_raise {A C} (proj : World -> C) e : keeps proj (@raise A e).
Proof. intros w. reflexivity. Qed.

Lemma keeps_lift_result {A C} (proj : World -> C) (r : Result A) :
  keeps proj (lift_result r).
Proof. intros w. reflexivity. Qed.

Lemma keeps_bind {A B C} (proj : World -> C) (m : M A) (k : A -> M B) :
  keeps proj m -> (forall a, keeps proj (k a)) -> keeps proj (bind m k).
Proof.
  intros Hm Hk w. unfold bind. specialize (Hm w).
  destruct (m w) as [[a|e] w1]; simpl in *.
  - rewrite Hk. exact Hm.
  - exact Hm.
Qed.

Lemma keeps_if {A C} (proj : World -> C) (b : bool) (m1 m2 : M A) :
  keeps proj m1 -> keeps proj m2 -> keeps proj (if b then m1 else m2).
Proof. destruct b; auto. Qed.

Create HintDb keeps.
#[local] Hint Resolve keeps_ret keeps_raise keeps_lift_result keeps_bind keeps_if
  : keeps.

(** ** What each primitive leaves alone *)

Lemma os_mkdir_keeps_calls p : keeps calls (os_mkdir p).
Proof.
  intros w. unfold os_mkdir.
  destruct p; [reflexivity|].
  destruct (node_at _ _) as [[|c]|]; try reflexivity.
  destruct (fs w !! _); reflexivity.
Qed.

Lemma os_mkdir_keeps_stdout p : keeps stdout (os_mkdir p).
Proof.
  intros w. unfold os_mkdir.
  destruct p; [reflexivity|].
  destruct (node_at _ _) as [[|c]|]; try reflexivity.
  destruct (fs w !! _); reflexivity.
Qed.

Lemma mkdir_exist_ok_keeps {C} (proj : World -> C) p :
  keeps proj (os_mkdir p) -> keeps proj (mkdir_exist_ok p).
Proof.
  intros H w. unfold mkdir_exist_ok. specialize (H w).
  destruct (os_mkdir p w) as [[u|e] w1]; simpl in *; [exact H|].
  destruct e as [| [] q | | |]; simpl; try exact H;
    destruct (is_dir _ _); exact H.
Qed.

Lemma mkdir_parents_rev_keeps {C} (proj : World -> C) rp :
  (forall p, keeps proj (os_mkdir p)) -> keeps proj (mkdir_parents_rev rp).
Proof.
  intros H. induction rp as [|x rp IH]; intros w; simpl.
  - reflexivity.
  - pose proof (H (rev rp ++ [x]) w) as Hw.
    destruct (os_mkdir (rev rp ++ [x]) w) as [[u|e] w1]; simpl in *; [exact Hw|].
    destruct e as [| [] q | | |]; simpl; try exact Hw;
      try (destruct (is_dir _ _); exact Hw).
    rewrite <- Hw.
    apply (keeps_bind proj); [exact IH|].
    intros _. apply mkdir_exist_ok_keeps, H.
Qed.

Lemma mkdir_parents_keeps_calls p : keeps calls (mkdir_parents p).
Proof. apply mkdir_parents_rev_keeps, os_mkdir_keeps_calls. Qed.

Lemma mkdir_parents_keeps_stdout p : keeps stdout (mkdir_parents p).
Proof. apply mkdir_parents_rev_keeps, os_mkdir_keeps_stdout. Qed.

Lemma open_w_keeps_calls p : keeps calls (open_w p).
Proof.
  intros w. unfold open_w.
  destruct p; [reflexivity|].
  destruct (node_at _ _) as [[|c]|]; try reflexivity.
  destruct (fs w !! _) as [[|c]|]; reflexivity.
Qed.

Lemma open_w_keeps_stdout p : keeps stdout (open_w p).
Proof.
  intros w. unfold open_w.
  destruct p; [reflexivity|].
  destruct (node_at _ _) as [[|c]|]; try reflexivity.
  destruct (fs w !! _) as [[|c]|]; reflexivity.
Qed.

Lemma fh_write_keeps_calls p text : keeps calls (fh_write p text).
Proof.
  intros w. unfold fh_write.
  destruct (utf8_encode text); [|reflexivity].
  destruct (fs w !! p) as [[|c]|]; reflexivity.
Qed.

Lemma fh_write_keeps_stdout p text : keeps stdout (fh_write p text).
Proof.
  intros w. unfold fh_write.
  destruct (utf8_encode text); [|reflexivity].
  destruct (fs w !! p) as [[|c]|]; reflexivity.
Qed.

Lemma subscript_keeps {C} (proj : World -> C) d k : keeps proj (subscript d k).
Proof. unfold subscript. destruct (dict_get d k); auto with keeps. Qed.

Lemma print_keeps_calls text : keeps calls (print text).
Proof. intros w. reflexivity. Qed.

Lemma print_keeps_fs text : keeps fs (print text).
Proof. intros w. reflexivity. Qed.

Lemma log_call_keeps_fs c : keeps fs (log_call c).
Proof. intros w. reflexivity. Qed.

Lemma log_call_keeps_stdout c : keeps stdout (log_call c).
Proof. intros w. reflexivity. Qed.

Lemma path_exists_keeps {C} (proj : World -> C) p : keeps proj (path_exists p).
Proof. intros w. reflexivity. Qed.

#[local] Hint Resolve os_mkdir_keeps_calls os_mkdir_keeps_stdout
  mkdir_parents_keeps_calls mkdir_parents_keeps_stdout
  open_w_keeps_calls open_w_keeps_stdout fh_write_keeps_calls
  fh_write_keeps_stdout subscript_keeps print_keeps_calls print_keeps_fs
  log_call_keeps_fs log_call_keeps_stdout path_exists_keeps : keeps.

Lemma write_output_keeps_calls p pl : keeps calls (write_output p pl).
Proof. unfold write_output. auto 10 with keeps. Qed.

Lemma write_output_keeps_stdout p pl : keeps stdout (write_output p pl).
Proof. unfold write_output. auto 10 with keeps. Qed.

Lemma env_lines_keeps {C} (proj : World -> C) pl : keeps proj (env_lines pl).
Proof. unfold env_lines. auto 10 with keeps. Qed.

Lemma write_env_keeps_calls p pl : keeps calls (write_env p pl).
Proof.
  unfold write_env, write_text.
  apply keeps_bind; [auto with keeps|]. intros _.
  apply keeps_bind; [apply env_lines_keeps|]. intros ls. auto 10 with keeps.
Qed.

Lemma write_env_keeps_stdout p pl : keeps stdout (write_env p pl).
Proof.
  unfold write_env, write_text.
  apply keeps_bind; [auto with keeps|]. intros _.
  apply keeps_bind; [apply env_lines_keeps|]. intros ls. auto 10 with keeps.
Qed.

Lemma narrate_keeps_calls pl : keeps calls (narrate pl).
Proof. unfold narrate. auto 10 with keeps. Qed.

Lemma narrate_keeps_fs pl : keeps fs (narrate pl).
Proof. unfold narrate. auto 10 with keeps. Qed.

#[local] Hint Resolve write_output_keeps_calls write_output_keeps_stdout
  write_env_keeps_calls write_env_keeps_stdout narrate_keeps_calls
  narrate_keeps_fs env_lines_keeps : keeps.

Lemma emit_keeps_calls pl output env_file quiet :
  keeps calls (emit pl output env_file quiet).
Proof.
  unfold emit. destruct output, env_file, quiet; simpl; auto 10 with keeps.
Qed.

Lemma emit_quiet_keeps_stdout pl output env_file :
  keeps stdout (emit pl output env_file true).
Proof.
  unfold emit. destruct output, env_file; simpl; auto 10 with keeps.
Qed.

(** ** Text that is plain ASCII is written byte for code point *)


Lemma all_ascii_app s t : all_ascii (s ++ t) = all_ascii s && all_ascii t.
Proof. apply forallb_app. Qed.

Lemma utf8_encode_ascii s : all_ascii s = true -> utf8_encode s = Some s.
Proof.
  induction s as [|c s IH]; simpl; [reflexivity|].
  intros H. apply andb_prop in H as [Hc Hs].
  rewrite (IH Hs). unfold utf8_encode_char, is_ascii in *.
  apply andb_prop in Hc as [H0 H1].
  apply Z.leb_le in H0. apply Z.ltb_lt in H1.
  destruct (c <? 0) eqn:E; [apply Z.ltb_lt in E; lia|].
  rewrite (proj2 (Z.ltb_lt c 128) H1). reflexivity.
Qed.

Lemma utf8_decode_fuel_ascii s fuel :
  all_ascii s = true -> (length s <= fuel)%nat ->
  utf8_decode_fuel fuel s = Some s.
Proof.
  revert fuel. induction s as [|c s IH]; intros fuel H Hlen.
  - destruct fuel; reflexivity.
  - destruct fuel as [|fuel]; [simpl in Hlen; lia|].
    simpl in H. apply andb_prop in H as [Hc Hs].
    simpl. unfold is_ascii in Hc. rewrite Hc.
    rewrite IH; [reflexivity | exact Hs | simpl in Hlen; lia].
Qed.

Lemma utf8_decode_ascii s : all_ascii s = true -> utf8_decode s = Some s.
Proof. intros H. apply utf8_decode_fuel_ascii; [exact H | lia]. Qed.

Lemma hex_digit_ascii d : 0 <= d < 16 -> is_ascii (hex_digit d) = true.
Proof.
  intros H. unfold hex_digit, is_ascii.
  destruct (d <? 10) eqn:E; apply andb_true_intro; split;
    try apply Z.leb_le; try apply Z.ltb_lt; lia.
Qed.

Lemma hex4_ascii n : all_ascii (hex4 n) = true.
Proof.
  unfold hex4, all_ascii. simpl.
  rewrite !hex_digit_ascii; [reflexivity | | | |]; apply Z.mod_pos_bound; lia.
Qed.

Lemma u_escape_ascii n : all_ascii (u_escape n) = true.
Proof. unfold u_escape. change (all_ascii (hex4 n) = true). apply hex4_ascii. Qed.

Lemma escape_char_ascii c : all_ascii (escape_char c) = true.
Proof.
  unfold escape_char.
  repeat (match goal with
          | |- context [if ?b then _ else _] => destruct b eqn:?
          end; try reflexivity).
  - simpl. rewrite andb_true_r. unfold is_ascii.
    match goal with
    | H : (32 <=? c) && (c <=? 126) = true |- _ =>
        apply andb_prop in H as [H0 H1]
    end.
    apply Z.leb_le in H0. apply Z.leb_le in H1.
    apply andb_true_intro; split; [apply Z.leb_le | apply Z.ltb_lt]; lia.
  - apply u_escape_ascii.
  - rewrite all_ascii_app, !u_escape_ascii. reflexivity.
Qed.

Lemma escape_chars_ascii s : all_ascii (escape_chars s) = true.
Proof.
  induction s as [|c s IH]; [reflexivity|].
  simpl. rewrite all_ascii_app, escape_char_ascii, IH. reflexivity.
Qed.

Lemma encode_basestring_ascii_ascii s :
  all_ascii (encode_basestring_ascii s) = true.
Proof.
  unfold encode_basestring_ascii.
  change (all_ascii (escape_chars s ++ [dquote]) = true).
  rewrite all_ascii_app, escape_chars_ascii. reflexivity.
Qed.

Lemma encode_value_ascii v : all_ascii (encode_value v) = true.
Proof. destruct v; [reflexivity | apply encode_basestring_ascii_ascii]. Qed.

Lemma repeat_space_ascii n : all_ascii (repeat 32 n) = true.
Proof. induction n; [reflexivity | exact IHn]. Qed.

Lemma encode_item_ascii indent kv : all_ascii (encode_item indent kv) = true.
Proof.
  unfold encode_item.
  rewrite !all_ascii_app, repeat_space_ascii, encode_basestring_ascii_ascii,
    encode_value_ascii. reflexivity.
Qed.

Lemma join_ascii sep xs :
  all_ascii sep = true -> Forall (fun x => all_ascii x = true) xs ->
  all_ascii (join sep xs) = true.
Proof.
  intros Hsep H. induction H as [|x xs Hx Hxs IH]; [reflexivity|].
  destruct xs as [|y ys]; [exact Hx|].
  change (all_ascii (x ++ sep ++ join sep (y :: ys)) = true).
  rewrite !all_ascii_app, Hx, Hsep, IH. reflexivity.
Qed.

Lemma json_dumps_ascii indent d : all_ascii (json_dumps indent d) = true.
Proof.
  unfold json_dumps. destruct d as [|kv d]; [reflexivity|].
  rewrite !all_ascii_app, join_ascii; [reflexivity | reflexivity |].
  generalize (kv :: d). intros l.
  induction l as [|y l IH]; simpl; constructor;
    [apply encode_item_ascii | exact IH].
Qed.

(** ** Directory creation and file writes *)

Lemma node_at_nonempty (f : gmap (list (list Z)) node) (p : list (list Z)) :
  p <> [] -> node_at f p = f !! p.
Proof. destruct p; [congruence | reflexivity]. Qed.

Lemma parent_snoc (p : list (list Z)) x : parent (p ++ [x]) = p.
Proof. apply removelast_last. Qed.

Lemma parent_neq (p : list (list Z)) : p <> [] -> parent p <> p.
Proof.
  intros Hp Heq. destruct (exists_last Hp) as [q [x ->]].
  rewrite parent_snoc in Heq.
  apply (f_equal (@length _)) in Heq. rewrite length_app in Heq.
  simpl in Heq. lia.
Qed.

Lemma os_mkdir_ok_inv p w u w' :
  os_mkdir p w = (Ok u, w') ->
  p <> [] /\ node_at (fs w) (parent p) = Some Dir /\ fs w !! p = None
  /\ w' = set_fs (<[p := Dir]> (fs w)) w.
Proof.
  unfold os_mkdir. destruct p as [|x p]; [discriminate|].
  destruct (node_at (fs w) (parent (x :: p))) as [[|c]|]; try discriminate.
  destruct (fs w !! (x :: p)); [discriminate|].
  intros H. inversion H. repeat split; congruence.
Qed.

Lemma os_mkdir_raise_inv p w e w' :
  os_mkdir p w = (Raise e, w') ->
  w' = w /\ exists errno, e = OSError errno p
     /\ ((errno = ENOENT /\ p <> [] /\ node_at (fs w) (parent p) = None)
         \/ (errno <> ENOENT /\ is_Some (node_at (fs w) (parent p)))).
Proof.
  unfold os_mkdir. destruct p as [|x p].
  - intros H. inversion H. split; [reflexivity|]. exists EEXIST.
    split; [reflexivity|]. right. split; [discriminate | eexists; reflexivity].
  - destruct (node_at (fs w) (parent (x :: p))) as [[|c]|] eqn:E.
    + destruct (fs w !! (x :: p)); [|discriminate].
      intros H. inversion H. split; [reflexivity|]. exists EEXIST.
      split; [reflexivity|]. right. split; [discriminate | eexists; reflexivity].
    + intros H. inversion H. split; [reflexivity|]. exists ENOTDIR.
      split; [reflexivity|]. right. split; [discriminate | eexists; reflexivity].
    + intros H. inversion H. split; [reflexivity|]. exists ENOENT.
      split; [reflexivity|]. left. repeat split; [discriminate].
Qed.


Lemma grows_by_dirs_refl f : grows_by_dirs f f.
Proof. intros x. left. reflexivity. Qed.

Lemma grows_by_dirs_trans f g h :
  grows_by_dirs f g -> grows_by_dirs g h -> grows_by_dirs f h.
Proof.
  intros H1 H2 x. destruct (H1 x) as [E1|[E1 E1']], (H2 x) as [E2|[E2 E2']].
  - left. congruence.
  - right. split; congruence.
  - right. split; congruence.
  - congruence.
Qed.

Lemma grows_by_dirs_insert (f : gmap (list (list Z)) node) p :
  f !! p = None -> grows_by_dirs f (<[p := Dir]> f).
Proof.
  intros Hp x. destruct (decide (p = x)) as [<-|Hne].
  - right. split; [exact Hp | apply lookup_insert_eq].
  - left. apply lookup_insert_ne. exact Hne.
Qed.

Lemma os_mkdir_grows p w r w' :
  os_mkdir p w = (r, w') -> grows_by_dirs (fs w) (fs w').
Proof.
  destruct r as [u|e]; intros H.
  - apply os_mkdir_ok_inv in H as (_ & _ & Hfree & ->).
    apply grows_by_dirs_insert, Hfree.
  - apply os_mkdir_raise_inv in H as [-> _]. apply grows_by_dirs_refl.
Qed.

Lemma mkdir_exist_ok_grows p w r w' :
  mkdir_exist_ok p w = (r, w') -> grows_by_dirs (fs w) (fs w').
Proof.
  unfold mkdir_exist_ok. destruct (os_mkdir p w) as [[u|e] w1] eqn:E.
  - intros H. inversion H; subst. eapply os_mkdir_grows, E.
  - apply os_mkdir_raise_inv in E as [-> _].
    destruct e as [| [] q | | |]; try destruct (is_dir _ _);
      intros H; inversion H; apply grows_by_dirs_refl.
Qed.

Lemma mkdir_parents_rev_grows rp w r w' :
  mkdir_parents_rev rp w = (r, w') -> grows_by_dirs (fs w) (fs w').
Proof.
  revert w r w'. induction rp as [|x rp IH]; intros w r w'.
  - simpl. intros H. inversion H. apply grows_by_dirs_refl.
  - cbn [mkdir_parents_rev].
    destruct (os_mkdir (rev (x :: rp)) w) as [[u|e] w1] eqn:E.
    + intros H. inversion H; subst. eapply os_mkdir_grows, E.
    + apply os_mkdir_raise_inv in E as [-> _].
      destruct e as [| [] q | | |]; try destruct (is_dir _ _);
        try (intros H; inversion H; apply grows_by_dirs_refl).
      unfold bind.
      destruct (mkdir_parents_rev rp w) as [[u|e] w2] eqn:E2.
      * intros H. eapply grows_by_dirs_trans; [eapply IH, E2|].
        eapply mkdir_exist_ok_grows, H.
      * intros H. inversion H; subst. eapply IH, E2.
Qed.

Lemma is_dir_grows f f' p :
  grows_by_dirs f f' -> is_dir f p = true -> is_dir f' p = true.
Proof.
  intros Hg. unfold is_dir, node_at. destruct p as [|x p]; [auto|].
  destruct (Hg (x :: p)) as [->|[-> ->]]; [auto | discriminate].
Qed.


(** After a successful [mkdir(parents=True, exist_ok=True)] the path is a
    directory, and its parent exists. *)
Lemma insert_dir_post (f : gmap (list (list Z)) node) (p : list (list Z)) :
  p <> [] -> node_at f (parent p) = Some Dir ->
  is_dir (<[p := Dir]> f) p = true
  /\ is_Some (node_at (<[p := Dir]> f) (parent p)).
Proof.
  intros Hp Hpar. split.
  - unfold is_dir. rewrite node_at_nonempty by exact Hp.
    rewrite lookup_insert_eq. reflexivity.
  - destruct (decide (parent p = [])) as [->|Hne]; [eexists; reflexivity|].
    rewrite node_at_nonempty by exact Hne.
    rewrite lookup_insert_ne by (apply not_eq_sym, parent_neq, Hp).
    rewrite <- node_at_nonempty by exact Hne. rewrite Hpar. eexists; reflexivity.
Qed.

Lemma mkdir_exist_ok_post p w u w' :
  mkdir_exist_ok p w = (Ok u, w') ->
  is_Some (node_at (fs w) (parent p)) ->
  is_dir (fs w') p = true /\ is_Some (node_at (fs w') (parent p)).
Proof.
  unfold mkdir_exist_ok. destruct (os_mkdir p w) as [[u0|e] w1] eqn:E.
  - intros H _. inversion H; subst.
    apply os_mkdir_ok_inv in E as (Hp & Hpar & _ & ->).
    apply insert_dir_post; assumption.
  - apply os_mkdir_raise_inv in E as [-> [errno [-> _]]].
    destruct errno; try discriminate;
      (destruct (is_dir (fs w) p) eqn:Hd; [|discriminate]);
      intros H Hpar; inversion H; subst; auto.
Qed.

Lemma mkdir_parents_rev_post rp w u w' :
  mkdir_parents_rev rp w = (Ok u, w') ->
  is_dir (fs w') (rev rp) = true
  /\ is_Some (node_at (fs w') (parent (rev rp))).
Proof.
  revert w u w'. induction rp as [|x rp IH]; intros w u w'.
  - simpl. intros H. inversion H. split; [reflexivity | eexists; reflexivity].
  - cbn [mkdir_parents_rev].
    destruct (os_mkdir (rev (x :: rp)) w) as [[u0|e] w1] eqn:E.
    + intros H. inversion H; subst.
      apply os_mkdir_ok_inv in E as (Hp & Hpar & _ & ->).
      apply insert_dir_post; assumption.
    + apply os_mkdir_raise_inv in E as [-> [errno [-> Hen]]].
      destruct Hen as [(-> & Hp & Hnone)|[Hne Hsome]].
      * unfold bind.
        destruct (mkdir_parents_rev rp w) as [[u2|e2] w2] eqn:E2; [|discriminate].
        intros H. apply IH in E2 as [Hd _].
        apply mkdir_exist_ok_post in H; [exact H|].
        simpl rev. rewrite parent_snoc.
        unfold is_dir in Hd.
        destruct (node_at (fs w2) (rev rp)); [eexists; reflexivity | discriminate].
      * destruct errno; try congruence;
          (destruct (is_dir (fs w) (rev (x :: rp))) eqn:Hd; [|discriminate]);
          intros H; inversion H; subst; auto.
Qed.

(** On a directory whose parent exists, it changes nothing. *)
Lemma mkdir_parents_rev_noop rp w :
  is_dir (fs w) (rev rp) = true ->
  is_Some (node_at (fs w) (parent (rev rp))) ->
  mkdir_parents_rev rp w = (Ok tt, w).
Proof.
  destruct rp as [|x rp]; [reflexivity|].
  intros Hd Hpar. cbn [mkdir_parents_rev].
  destruct (os_mkdir (rev (x :: rp)) w) as [[u0|e] w1] eqn:E.
  - apply os_mkdir_ok_inv in E as (Hp & _ & Hfree & _).
    unfold is_dir in Hd. rewrite node_at_nonempty in Hd by exact Hp.
    rewrite Hfree in Hd. discriminate.
  - apply os_mkdir_raise_inv in E as [-> [errno [-> Hen]]].
    destruct Hen as [(-> & Hp & Hnone)|[Hne Hsome]].
    + rewrite Hnone in Hpar. destruct Hpar; discriminate.
    + destruct errno; try congruence; rewrite Hd; reflexivity.
Qed.

Lemma mkdir_parents_post p w u w' :
  mkdir_parents p w = (Ok u, w') ->
  is_dir (fs w') p = true /\ is_Some (node_at (fs w') (parent p)).
Proof.
  unfold mkdir_parents. intros H. apply mkdir_parents_rev_post in H.
  rewrite rev_involutive in H. exact H.
Qed.

Lemma mkdir_parents_noop p w :
  is_dir (fs w) p = true -> is_Some (node_at (fs w) (parent p)) ->
  mkdir_parents p w = (Ok tt, w).
Proof.
  intros Hd Hp. unfold mkdir_parents. apply mkdir_parents_rev_noop;
    rewrite rev_involutive; assumption.
Qed.

Lemma mkdir_parents_grows p w r w' :
  mkdir_parents p w = (r, w') -> grows_by_dirs (fs w) (fs w').
Proof. apply mkdir_parents_rev_grows. Qed.

Lemma set_fs_id w : set_fs (fs w) w = w.
Proof. destruct w; reflexivity. Qed.

Lemma set_fs_set_fs f g w : set_fs f (set_fs g w) = set_fs f w.
Proof. reflexivity. Qed.

Lemma fs_set_fs f w : fs (set_fs f w) = f.
Proof. reflexivity. Qed.

Lemma open_w_ok_inv p w u w' :
  open_w p w = (Ok u, w') ->
  p <> [] /\ is_dir (fs w) (parent p) = true /\ fs w !! p <> Some Dir
  /\ w' = set_fs (<[p := File []]> (fs w)) w.
Proof.
  unfold open_w, is_dir. destruct p as [|x p]; [discriminate|].
  destruct (node_at (fs w) (parent (x :: p))) as [[|c]|]; try discriminate.
  destruct (fs w !! (x :: p)) as [[|c]|]; try discriminate;
    intros H; inversion H; repeat split; congruence.
Qed.

Lemma open_w_ok p w :
  p <> [] -> is_dir (fs w) (parent p) = true -> fs w !! p <> Some Dir ->
  open_w p w = (Ok tt, set_fs (<[p := File []]> (fs w)) w).
Proof.
  unfold open_w, is_dir. destruct p as [|x p]; [congruence|]. intros _.
  destruct (node_at (fs w) (parent (x :: p))) as [[|c]|]; try discriminate.
  intros _. destruct (fs w !! (x :: p)) as [[|c]|]; congruence.
Qed.

Lemma open_w_raise_inv p w e w' :
  open_w p w = (Raise e, w') -> w' = w /\ exists errno, e = OSError errno p.
Proof.
  unfold open_w. destruct p as [|x p].
  - intros H; inversion H; eauto.
  - destruct (node_at (fs w) (parent (x :: p))) as [[|c]|].
    + destruct (fs w !! (x :: p)) as [[|c]|]; intros H; inversion H; eauto.
    + intros H; inversion H; eauto.
    + intros H; inversion H; eauto.
Qed.

(** Opening for writing and then writing one text leaves exactly the
    encoded text in the file. *)
Lemma open_write_ok p text bs w :
  p <> [] -> is_dir (fs w) (parent p) = true -> fs w !! p <> Some Dir ->
  utf8_encode text = Some bs ->
  (open_w p >> fh_write p text) w
  = (Ok tt, set_fs (<[p := File bs]> (fs w)) w).
Proof.
  intros Hp Hd Hn Henc. unfold bind. rewrite (open_w_ok p w Hp Hd Hn).
  unfold fh_write. rewrite Henc. simpl fs. rewrite lookup_insert_eq.
  simpl. rewrite insert_insert_eq. reflexivity.
Qed.

Lemma write_output_ok_inv p pl w w' :
  write_output p pl w = (Ok tt, w') ->
  exists wm,
    mkdir_parents (parent p) w = (Ok tt, wm)
    /\ p <> [] /\ fs wm !! p <> Some Dir
    /\ w' = set_fs (<[p := File (json_dumps 2 pl ++ [nl])]> (fs wm)) wm.
Proof.
  unfold write_output. intros H.
  apply bind_ok_inv in H as ([] & wm & Hmk & H).
  apply bind_ok_inv in H as ([] & w1 & Hop & H).
  apply bind_ok_inv in H as ([] & w2 & Hw1 & Hw2).
  apply open_w_ok_inv in Hop as (Hp & Hd & Hn & ->).
  exists wm. repeat split; try assumption.
  unfold fh_write in Hw1.
  rewrite (utf8_encode_ascii _ (json_dumps_ascii 2 pl)) in Hw1.
  simpl fs in Hw1. rewrite lookup_insert_eq in Hw1.
  inversion Hw1; subst w2. clear Hw1.
  unfold fh_write in Hw2. simpl in Hw2. rewrite lookup_insert_eq in Hw2.
  inversion Hw2. rewrite !insert_insert_eq. reflexivity.
Qed.

Lemma write_output_ok p pl w wm :
  mkdir_parents (parent p) w = (Ok tt, wm) ->
  p <> [] -> fs wm !! p <> Some Dir ->
  write_output p pl w
  = (Ok tt, set_fs (<[p := File (json_dumps 2 pl ++ [nl])]> (fs wm)) wm).
Proof.
  intros Hmk Hp Hn. unfold write_output.
  rewrite (bind_ok _ _ _ _ _ Hmk).
  apply mkdir_parents_post in Hmk as [Hd _].
  rewrite (bind_ok _ _ _ _ _ (open_w_ok p wm Hp Hd Hn)).
  unfold bind, fh_write.
  rewrite (utf8_encode_ascii _ (json_dumps_ascii 2 pl)).
  simpl fs. rewrite lookup_insert_eq. simpl. rewrite lookup_insert_eq.
  rewrite !insert_insert_eq. reflexivity.
Qed.


Lemma subscript_ok_inv d k w v w' :
  subscript d k w = (Ok v, w') -> dict_get d k = Some v /\ w' = w.
Proof.
  unfold subscript. destruct (dict_get d k); intros H; inversion H; auto.
Qed.

Lemma subscript_ok d k v w : dict_get d k = Some v -> subscript d k w = (Ok v, w).
Proof. unfold subscript. intros ->. reflexivity. Qed.

Lemma env_lines_ok_inv pl w ls w' :
  env_lines pl w = (Ok ls, w') ->
  w' = w /\ exists cid csecret rtoken,
    dict_get pl (lit "client_id") = Some cid
    /\ dict_get pl (lit "client_secret") = Some csecret
    /\ dict_get pl (lit "refresh_token") = Some rtoken
    /\ join [nl] ls ++ [nl] = env_text cid csecret rtoken.
Proof.
  unfold env_lines. intros H.
  apply bind_ok_inv in H as (cid & w1 & H1 & H).
  apply bind_ok_inv in H as (cs & w2 & H2 & H).
  apply bind_ok_inv in H as (rt & w3 & H3 & H).
  apply subscript_ok_inv in H1 as [H1 ->].
  apply subscript_ok_inv in H2 as [H2 ->].
  apply subscript_ok_inv in H3 as [H3 ->].
  unfold ret in H. injection H as <- <-. split; [reflexivity|].
  exists cid, cs, rt. repeat split; assumption.
Qed.

Lemma env_lines_payload_of cid csecret creds w :
  exists ls,
    env_lines (payload_of cid csecret creds) w = (Ok ls, w)
    /\ join [nl] ls ++ [nl] = env_text cid csecret (refresh_token creds).
Proof.
  eexists. split; reflexivity.
Qed.

Lemma write_env_ok_inv q pl w w' :
  write_env q pl w = (Ok tt, w') ->
  exists wm cid csecret rtoken bs,
    mkdir_parents (parent q) w = (Ok tt, wm)
    /\ dict_get pl (lit "client_id") = Some cid
    /\ dict_get pl (lit "client_secret") = Some csecret
    /\ dict_get pl (lit "refresh_token") = Some rtoken
    /\ utf8_encode (env_text cid csecret rtoken) = Some bs
    /\ q <> [] /\ fs wm !! q <> Some Dir
    /\ w' = set_fs (<[q := File bs]> (fs wm)) wm.
Proof.
  unfold write_env, write_text. intros H.
  apply bind_ok_inv in H as ([] & wm & Hmk & H).
  apply bind_ok_inv in H as (ls & w1 & Hls & H).
  apply env_lines_ok_inv in Hls as [-> (cid & cs & rt & H1 & H2 & H3 & Htxt)].
  rewrite Htxt in H.
  apply bind_ok_inv in H as ([] & w2 & Hop & Hwr).
  apply open_w_ok_inv in Hop as (Hq & Hd & Hn & ->).
  unfold fh_write in Hwr.
  destruct (utf8_encode (env_text cid cs rt)) as [bs|] eqn:Henc; [|discriminate].
  simpl fs in Hwr. rewrite lookup_insert_eq in Hwr.
  exists wm, cid, cs, rt, bs. repeat split; try assumption.
  inversion Hwr. simpl. rewrite insert_insert_eq. reflexivity.
Qed.

Lemma write_env_ok q pl w wm cid csecret rtoken bs :
  mkdir_parents (parent q) w = (Ok tt, wm) ->
  dict_get pl (lit "client_id") = Some cid ->
  dict_get pl (lit "client_secret") = Some csecret ->
  dict_get pl (lit "refresh_token") = Some rtoken ->
  utf8_encode (env_text cid csecret rtoken) = Some bs ->
  q <> [] -> fs wm !! q <> Some Dir ->
  write_env q pl w = (Ok tt, set_fs (<[q := File bs]> (fs wm)) wm).
Proof.
  intros Hmk H1 H2 H3 Henc Hq Hn. unfold write_env.
  rewrite (bind_ok _ _ _ _ _ Hmk).
  unfold env_lines.
  unfold bind at 1. unfold bind at 1. rewrite (subscript_ok _ _ _ _ H1).
  unfold bind at 1. rewrite (subscript_ok _ _ _ _ H2).
  unfold bind at 1. rewrite (subscript_ok _ _ _ _ H3).
  unfold ret.
  apply mkdir_parents_post in Hmk as [Hd _].
  unfold write_text.
  rewrite (open_write_ok q _ bs wm Hq Hd Hn); [reflexivity | exact Henc].
Qed.

(** The world after a sink write: a second directory creation is a no-op
    and the file can be reopened. *)
Lemma after_file_write (p : list (list Z)) wm bs :
  p <> [] ->
  is_dir (fs wm) (parent p) = true ->
  is_Some (node_at (fs wm) (parent (parent p))) ->
  let w1 := set_fs (<[p := File bs]> (fs wm)) wm in
  mkdir_parents (parent p) w1 = (Ok tt, w1)
  /\ fs w1 !! p <> Some Dir
  /\ set_fs (<[p := File bs]> (fs w1)) w1 = w1
  /\ is_dir (fs w1) (parent p) = true.
Proof.
  intros Hp Hd Hpp w1.
  assert (Hd1 : is_dir (fs w1) (parent p) = true).
  { unfold is_dir in *. destruct (decide (parent p = [])) as [E|E].
    - rewrite E. reflexivity.
    - rewrite node_at_nonempty in * by exact E. subst w1. simpl.
      rewrite lookup_insert_ne by (apply not_eq_sym, parent_neq, Hp). exact Hd. }
  repeat split.
  - apply mkdir_parents_noop; [exact Hd1|].
    destruct (decide (parent (parent p) = [])) as [E|E].
    + rewrite E. eexists; reflexivity.
    + rewrite node_at_nonempty in * by exact E. subst w1. simpl.
      rewrite lookup_insert_ne; [exact Hpp|].
      intros Heq. apply (f_equal (@length _)) in Heq.
      destruct (exists_last Hp) as [p' [x ->]].
      rewrite parent_snoc in *.
      assert (p' <> []) by (intros ->; apply E; reflexivity).
      destruct (exists_last H) as [p'' [y ->]].
      rewrite parent_snoc in Heq. rewrite !length_app in Heq. simpl in Heq. lia.
  - subst w1. simpl. rewrite lookup_insert_eq. discriminate.
  - subst w1. simpl. rewrite insert_insert_eq. reflexivity.
  - exact Hd1.
Qed.

(** ** The two file sinks, named *)


Lemma output_bytes pl :
  utf8_encode (json_dumps 2 pl ++ [nl]) = Some (json_dumps 2 pl ++ [nl]).
Proof.
  apply utf8_encode_ascii. rewrite all_ascii_app, json_dumps_ascii. reflexivity.
Qed.

Lemma write_output_twice p pl w w1 :
  write_output p pl w = (Ok tt, w1) ->
  write_output p pl w1 = (Ok tt, w1)
  /\ is_dir (fs w1) (parent p) = true
  /\ fs w1 !! p = Some (File (json_dumps 2 pl ++ [nl])).
Proof.
  intros H. apply write_output_ok_inv in H as (wm & Hmk & Hp & Hn & ->).
  apply mkdir_parents_post in Hmk as [Hd Hpp].
  destruct (after_file_write p wm (json_dumps 2 pl ++ [nl]) Hp Hd Hpp)
    as (Hmk1 & Hn1 & Hid & Hd1).
  split; [|split].
  - rewrite (write_output_ok p pl _ _ Hmk1 Hp Hn1). rewrite Hid. reflexivity.
  - exact Hd1.
  - simpl. apply lookup_insert_eq.
Qed.

Lemma write_env_twice q pl w w1 :
  write_env q pl w = (Ok tt, w1) ->
  write_env q pl w1 = (Ok tt, w1)
  /\ is_dir (fs w1) (parent q) = true
  /\ exists text bs, sink_text EnvSink pl = Some text
       /\ utf8_encode text = Some bs /\ fs w1 !! q = Some (File bs).
Proof.
  intros H.
  apply write_env_ok_inv in H
    as (wm & cid & cs & rt & bs & Hmk & H1 & H2 & H3 & Henc & Hq & Hn & ->).
  apply mkdir_parents_post in Hmk as [Hd Hpp].
  destruct (after_file_write q wm bs Hq Hd Hpp) as (Hmk1 & Hn1 & Hid & Hd1).
  split; [|split].
  - rewrite (write_env_ok q pl _ _ cid cs rt bs Hmk1 H1 H2 H3 Henc Hq Hn1).
    rewrite Hid. reflexivity.
  - exact Hd1.
  - exists (env_text cid cs rt), bs. simpl. rewrite H1, H2, H3.
    repeat split; [exact Henc | apply lookup_insert_eq].
Qed.


(** ** Obtaining the payload *)

Lemma obtain_payload_missing d secret scopes uc w :
  node_at (fs w) secret = None ->
  obtain_payload d secret scopes uc w = (Raise (client_secret_missing secret), w).
Proof.
  intros H. unfold obtain_payload, bind, path_exists. rewrite H.
  rewrite bool_decide_eq_false_2; [reflexivity|].
  intros [x Hx]. discriminate.
Qed.

Lemma obtain_payload_found d secret scopes uc w :
  is_Some (node_at (fs w) secret) ->
  obtain_payload d secret scopes uc w
  = (let! flow := call_from_client_secrets_file d (path_str secret) scopes in
     let! creds := (if uc then call_run_console d flow
                    else call_run_local_server d flow 0) in
     build_payload flow creds) w.
Proof.
  intros H. unfold obtain_payload. unfold bind at 1. unfold path_exists.
  rewrite bool_decide_eq_true_2 by exact H. reflexivity.
Qed.

Lemma obtain_payload_acquired d secret scopes uc w cid cs creds :
  acquired d (fs w) secret scopes uc cid cs creds ->
  obtain_payload d secret scopes uc w
  = (Ok (payload_of cid cs creds), logged w (delegate_calls secret scopes uc)).
Proof.
  intros [Hex (flow & Hflow & Hcreds & Hcid & Hcs)].
  rewrite obtain_payload_found by exact Hex.
  unfold bind, call_from_client_secrets_file, bind, log_call. simpl.
  rewrite Hflow.
  unfold logged, delegate_calls.
  destruct uc; unfold call_run_console, call_run_local_server, bind, log_call,
    lift_result; rewrite Hcreds; unfold build_payload, bind;
    rewrite (subscript_ok _ _ _ _ Hcid), (subscript_ok _ _ _ _ Hcs);
    unfold ret; simpl; rewrite <- app_assoc; reflexivity.
Qed.

Lemma obtain_payload_ok_inv d secret scopes uc w pl w1 :
  obtain_payload d secret scopes uc w = (Ok pl, w1) ->
  exists cid cs creds,
    acquired d (fs w) secret scopes uc cid cs creds
    /\ pl = payload_of cid cs creds
    /\ w1 = logged w (delegate_calls secret scopes uc).
Proof.
  intros H.
  destruct (node_at (fs w) secret) as [n|] eqn:Hex;
    [|rewrite obtain_payload_missing in H by exact Hex; discriminate].
  assert (Hsome : is_Some (node_at (fs w) secret)) by (rewrite Hex; eauto).
  pose proof H as H0.
  rewrite obtain_payload_found in H by exact Hsome.
  apply bind_ok_inv in H as (flow & wa & Hflow & H).
  apply bind_ok_inv in H as (creds & wb & Hcreds & H).
  unfold build_payload in H.
  apply bind_ok_inv in H as (cid & wc & Hcid & H).
  apply bind_ok_inv in H as (cs & wd & Hcs & H).
  apply subscript_ok_inv in Hcid as [Hcid ->].
  apply subscript_ok_inv in Hcs as [Hcs ->].
  unfold ret in H. injection H as <- <-.
  unfold call_from_client_secrets_file, bind, log_call in Hflow. simpl in Hflow.
  destruct (from_client_secrets_file d (fs w) (path_str secret) scopes)
    as [flow'|e] eqn:Ef; [|discriminate].
  injection Hflow as -> <-.
  assert (Hc : (if uc then run_console d flow else run_local_server d flow 0)
               = Ok creds).
  { destruct uc; unfold call_run_console, call_run_local_server, bind,
      log_call, lift_result in Hcreds; simpl in Hcreds.
    - destruct (run_console d flow); [|discriminate]. congruence.
    - destruct (run_local_server d flow 0); [|discriminate]. congruence. }
  assert (Hacq : acquired d (fs w) secret scopes uc cid cs creds).
  { split; [exact Hsome|]. exists flow. auto. }
  exists cid, cs, creds. split; [exact Hacq|]. split; [reflexivity|].
  rewrite (obtain_payload_acquired _ _ _ _ _ _ _ _ Hacq) in H0. congruence.
Qed.

Lemma acquired_functional d f secret scopes uc cid cs creds cid' cs' creds' :
  acquired d f secret scopes uc cid cs creds ->
  acquired d f secret scopes uc cid' cs' creds' ->
  cid = cid' /\ cs = cs' /\ creds = creds'.
Proof.
  intros [_ (flow & Hf & Hc & H1 & H2)] [_ (flow' & Hf' & Hc' & H1' & H2')].
  assert (flow' = flow) by congruence. subst flow'.
  repeat split; congruence.
Qed.

Lemma read_delegate_keeps {C} (proj : World -> C) d path scopes :
  keeps proj (fun w => (from_client_secrets_file d (fs w) path scopes, w)).
Proof. intros w. reflexivity. Qed.

Lemma obtain_payload_keeps_fs d secret scopes uc :
  keeps fs (obtain_payload d secret scopes uc).
Proof.
  unfold obtain_payload, call_from_client_secrets_file, call_run_console,
    call_run_local_server, build_payload.
  apply keeps_bind; [apply path_exists_keeps|]. intros found.
  apply keeps_if; [apply keeps_raise|].
  apply keeps_bind.
  { apply keeps_bind; [apply log_call_keeps_fs|]. intros _.
    apply read_delegate_keeps. }
  intros flow. apply keeps_bind.
  { apply keeps_if; (apply keeps_bind; [apply log_call_keeps_fs|]);
      intros _; apply keeps_lift_result. }
  intros creds. apply keeps_bind; [apply subscript_keeps|]. intros cid.
  apply keeps_bind; [apply subscript_keeps|]. intros cs. apply keeps_ret.
Qed.

Lemma obtain_payload_keeps_stdout d secret scopes uc :
  keeps stdout (obtain_payload d secret scopes uc).
Proof.
  unfold obtain_payload, call_from_client_secrets_file, call_run_console,
    call_run_local_server, build_payload.
  apply keeps_bind; [apply path_exists_keeps|]. intros found.
  apply keeps_if; [apply keeps_raise|].
  apply keeps_bind.
  { apply keeps_bind; [apply log_call_keeps_stdout|]. intros _.
    apply read_delegate_keeps. }
  intros flow. apply keeps_bind.
  { apply keeps_if; (apply keeps_bind; [apply log_call_keeps_stdout|]);
      intros _; apply keeps_lift_result. }
  intros creds. apply keeps_bind; [apply subscript_keeps|]. intros cid.
  apply keeps_bind; [apply subscript_keeps|]. intros cs. apply keeps_ret.
Qed.

(** A run that constructed the flow logs exactly the constructor call and
    one consent call, whatever happens next. *)
Lemma obtain_payload_calls d secret scopes uc w flow :
  is_Some (node_at (fs w) secret) ->
  from_client_secrets_file d (fs w) (path_str secret) scopes = Ok flow ->
  calls (obtain_payload d secret scopes uc w).2
  = calls w ++ delegate_calls secret scopes uc.
Proof.
  intros Hex Hflow. rewrite obtain_payload_found by exact Hex.
  unfold bind, call_from_client_secrets_file, bind, log_call. simpl.
  rewrite Hflow. unfold delegate_calls.
  destruct uc; unfold call_run_console, call_run_local_server, bind, log_call,
    lift_result; simpl;
    match goal with |- context [match ?r with Ok _ => _ | Raise _ => _ end] =>
      destruct r end; simpl;
    try (unfold build_payload, bind, subscript;
         repeat (destruct (dict_get _ _); simpl));
    rewrite <- app_assoc; reflexivity.
Qed.


(** C7. Once the flow is constructed from an existing client-secret file,
    the run calls exactly one consent variant: [run_console] when
    [use_console] is set, and [run_local_server] with port 0 (an ephemeral
    port) when it is not. *)
Theorem run_flow_selects_variant (d : Delegate)
    (secret : list (list Z)) (scopes : list pystr) (use_console : bool)
    (output env_file : option (list (list Z))) (quiet : bool) (w : World)
    (flow : Flow) :
  is_Some (node_at (fs w) secret) ->
  from_client_secrets_file d (fs w) (path_str secret) scopes = Ok flow ->
  calls (run_flow d secret scopes use_console output env_file quiet w).2
  = calls w ++ [ CallFromClientSecretsFile (path_str secret) scopes;
                 if use_console then CallRunConsole
                 else CallRunLocalServer 0 ].
Proof.
  intros Hex Hflow. unfold run_flow, bind.
  pose proof (obtain_payload_calls d secret scopes use_console w flow Hex Hflow)
    as Hc.
  destruct (obtain_payload d secret scopes use_console w) as [[pl|e] w1];
    simpl in Hc.
  - rewrite emit_keeps_calls. exact Hc.
  - exact Hc.
Qed.

(** ** The layout of the output text *)

Lemma output_text_eq cid cs creds :
  json_dumps 2 (payload_of cid cs creds) ++ [nl]
  = output_text cid cs (refresh_token creds) (token creds) (token_expiry creds).
Proof.
  unfold json_dumps, payload_of, output_text, json_line, encode_item, quoted.
  cbn [map join fst snd].
  repeat rewrite <- app_assoc. reflexivity.
Qed.

Lemma escape_char_plain c : is_plain c = true -> escape_char c = [c].
Proof.
  unfold is_plain, escape_char, dquote, backslash. intros H.
  apply andb_prop in H as [H Hb]. apply andb_prop in H as [H Hq].
  apply negb_true_iff in Hb, Hq. rewrite Hb, Hq.
  pose proof H as Hr. apply andb_prop in Hr as [H0 H1].
  apply Z.leb_le in H0. apply Z.leb_le in H1.
  repeat match goal with
         | |- context [?c =? ?k] =>
             destruct (Z.eqb_spec c k); [lia|]
         end.
  rewrite H. reflexivity.
Qed.

Lemma escape_chars_plain s : forallb is_plain s = true -> escape_chars s = s.
Proof.
  induction s as [|c s IH]; [reflexivity|]. simpl. intros H.
  apply andb_prop in H as [Hc Hs].
  rewrite (escape_char_plain c Hc), (IH Hs). reflexivity.
Qed.

Lemma digit_is_digit n : is_digit (48 + n mod 10) = true.
Proof.
  pose proof (Z.mod_pos_bound n 10 ltac:(lia)). unfold is_digit.
  apply andb_true_intro; split; apply Z.leb_le; lia.
Qed.

Lemma digit_is_plain n : is_plain (48 + n mod 10) = true.
Proof.
  pose proof (Z.mod_pos_bound n 10 ltac:(lia)). unfold is_plain, dquote, backslash.
  repeat (apply andb_true_intro; split);
    try apply Z.leb_le; try (apply negb_true_iff, Z.eqb_neq); lia.
Qed.

Lemma zpad_plain w n : forallb is_plain (zpad w n) = true.
Proof.
  revert n. induction w as [|w IH]; intros n; [reflexivity|].
  simpl. rewrite forallb_app, IH. simpl. rewrite digit_is_plain. reflexivity.
Qed.

Lemma isoformat_plain e : forallb is_plain (isoformat e) = true.
Proof.
  unfold isoformat. rewrite !forallb_app, !zpad_plain.
  destruct (microsecond e =? 0); [reflexivity|].
  rewrite forallb_app, zpad_plain. reflexivity.
Qed.

Lemma take_digits_zpad w k n rest :
  take_digits (w + k) (zpad w n ++ rest) = take_digits k rest.
Proof.
  revert k n rest. induction w as [|w IH]; intros k n rest; [reflexivity|].
  simpl zpad. rewrite <- app_assoc.
  replace (S w + k)%nat with (w + S k)%nat by lia.
  rewrite IH. simpl. rewrite digit_is_digit. reflexivity.
Qed.

Lemma take_digits_zpad_exact w n rest :
  take_digits w (zpad w n ++ rest) = Some rest.
Proof.
  replace w with (w + 0)%nat at 1 by lia. apply take_digits_zpad.
Qed.

Lemma expect_head c r : expect c (c :: r) = Some r.
Proof. unfold expect. rewrite Z.eqb_refl. reflexivity. Qed.

Lemma isoformat_shape e : iso8601_shape (isoformat e) = true.
Proof.
  unfold iso8601_shape, isoformat.
  change (lit "-") with [45]. change (lit "T") with [84].
  change (lit ":") with [58]. change (lit ".") with [46].
  cbn [app].
  repeat first [ rewrite take_digits_zpad_exact
               | rewrite expect_head
               | progress cbn [and_then] ].
  destruct (microsecond e =? 0); [reflexivity|].
  cbn [app]. rewrite <- (app_nil_r (zpad 6 (microsecond e))).
  rewrite take_digits_zpad_exact. reflexivity.
Qed.

Lemma encode_isoformat e :
  encode_value (PyStr (isoformat e)) = quoted (isoformat e).
Proof.
  unfold encode_value, encode_basestring_ascii, quoted.
  rewrite (escape_chars_plain _ (isoformat_plain e)). reflexivity.
Qed.

(** ** Successful runs *)

Lemma narrate_eq pl w :
  narrate pl w
  = (Ok tt, mk_world (fs w) (stdout w ++ narration pl) (calls w)).
Proof.
  unfold narrate, bind, print, narration. simpl.
  repeat rewrite <- app_assoc. reflexivity.
Qed.

Lemma emit_ok_inv pl out env quiet w w' :
  emit pl out env quiet w = (Ok tt, w') ->
  exists w2 w3,
    match out with Some p => write_output p pl | None => ret tt end w
      = (Ok tt, w2)
    /\ match env with Some q => write_env q pl | None => ret tt end w2
      = (Ok tt, w3)
    /\ (if negb quiet then narrate pl else ret tt) w3 = (Ok tt, w').
Proof.
  unfold emit. intros H.
  apply bind_ok_inv in H as ([] & w2 & H1 & H).
  apply bind_ok_inv in H as ([] & w3 & H2 & H3).
  exists w2, w3. auto.
Qed.

Lemma grows_by_dirs_keeps_file f f' (p : list (list Z)) c :
  grows_by_dirs f f' -> f !! p = Some (File c) -> f' !! p = Some (File c).
Proof. intros Hg Hp. destruct (Hg p) as [->|[E _]]; congruence. Qed.

Lemma write_env_keeps_other q pl w w' (p : list (list Z)) c :
  write_env q pl w = (Ok tt, w') -> q <> p ->
  fs w !! p = Some (File c) -> fs w' !! p = Some (File c).
Proof.
  intros H Hne Hp.
  apply write_env_ok_inv in H
    as (wm & cid & cs & rt & bs & Hmk & _ & _ & _ & _ & _ & _ & ->).
  simpl. rewrite lookup_insert_ne by exact Hne.
  eapply grows_by_dirs_keeps_file; [eapply mkdir_parents_grows, Hmk | exact Hp].
Qed.

(** Everything a successful run leaves behind. *)
Lemma run_flow_ok_spec d secret scopes uc out env quiet w w' :
  run_flow d secret scopes uc out env quiet w = (Ok tt, w') ->
  exists cid cs creds,
    acquired d (fs w) secret scopes uc cid cs creds
    /\ (forall p, out = Some p -> env <> Some p ->
          fs w' !! p
          = Some (File (json_dumps 2 (payload_of cid cs creds) ++ [nl])))
    /\ (forall p, out = Some p -> exists c, fs w' !! p = Some (File c))
    /\ (forall q, env = Some q ->
          exists bs,
            utf8_encode (env_text cid cs (refresh_token creds)) = Some bs
            /\ fs w' !! q = Some (File bs))
    /\ stdout w'
       = (if quiet then stdout w
          else stdout w ++ narration (payload_of cid cs creds)).
Proof.
  unfold run_flow. intros H.
  apply bind_ok_inv in H as (pl & w1 & Hob & Hem).
  apply obtain_payload_ok_inv in Hob as (cid & cs & creds & Hacq & -> & ->).
  exists cid, cs, creds. split; [exact Hacq|].
  apply emit_ok_inv in Hem as (w2 & w3 & Hout & Henv & Hnar).
  assert (Hfs : fs w' = fs w3 /\ stdout w'
            = if quiet then stdout w3
              else stdout w3 ++ narration (payload_of cid cs creds)).
  { destruct quiet; simpl in Hnar.
    - inversion Hnar. auto.
    - rewrite narrate_eq in Hnar. inversion Hnar. auto. }
  destruct Hfs as [Hfs Hstd]. rewrite Hfs, Hstd.
  assert (Hs2 : stdout w2 = stdout w).
  { destruct out as [p|].
    - pose proof (write_output_keeps_stdout p (payload_of cid cs creds)
                    (logged w (delegate_calls secret scopes uc))) as K.
      rewrite Hout in K. exact K.
    - inversion Hout. reflexivity. }
  assert (Hs3 : stdout w3 = stdout w).
  { rewrite <- Hs2. destruct env as [q|].
    - pose proof (write_env_keeps_stdout q (payload_of cid cs creds) w2) as K.
      rewrite Henv in K. exact K.
    - inversion Henv. reflexivity. }
  rewrite Hs3.
  assert (Hfile : forall p, out = Some p ->
            fs w2 !! p
            = Some (File (json_dumps 2 (payload_of cid cs creds) ++ [nl]))).
  { intros p ->. apply write_output_twice in Hout as (_ & _ & Hp). exact Hp. }
  repeat split.
  - intros p Hp Hne. specialize (Hfile p Hp).
    destruct env as [q|].
    + eapply write_env_keeps_other; [exact Henv | congruence | exact Hfile].
    + inversion Henv; subst. exact Hfile.
  - intros p Hp. specialize (Hfile p Hp).
    destruct env as [q|].
    + destruct (decide (q = p)) as [->|Hne].
      * apply write_env_twice in Henv as (_ & _ & text & bs & _ & _ & Hq).
        eauto.
      * eexists. eapply write_env_keeps_other; [exact Henv | exact Hne | exact Hfile].
    + inversion Henv; subst. eauto.
  - intros q ->.
    apply write_env_ok_inv in Henv
      as (wm & cid' & cs' & rt' & bs & _ & H1 & H2 & H3 & Henc & _ & _ & ->).
    change (Some cid = Some cid') in H1. change (Some cs = Some cs') in H2.
    change (Some (refresh_token creds) = Some rt') in H3.
    injection H1 as <-. injection H2 as <-. injection H3 as <-.
    exists bs. split; [exact Henc | apply lookup_insert_eq].
Qed.

(** The output step of a successful run, and what is left of it at the
    end. *)
Lemma run_flow_ok_output_step d secret scopes uc p env quiet w w' :
  run_flow d secret scopes uc (Some p) env quiet w = (Ok tt, w') ->
  exists cid cs creds w2,
    acquired d (fs w) secret scopes uc cid cs creds
    /\ write_output p (payload_of cid cs creds)
         (logged w (delegate_calls secret scopes uc)) = (Ok tt, w2)
    /\ fs w2 !! p
       = Some (File (json_dumps 2 (payload_of cid cs creds) ++ [nl]))
    /\ (env <> Some p ->
        fs w' !! p
        = Some (File (json_dumps 2 (payload_of cid cs creds) ++ [nl]))).
Proof.
  intros H. pose proof H as H0.
  apply run_flow_ok_spec in H0 as (cid & cs & creds & Hacq & Hout & _).
  unfold run_flow in H.
  apply bind_ok_inv in H as (pl & w1 & Hob & Hem).
  rewrite (obtain_payload_acquired _ _ _ _ _ _ _ _ Hacq) in Hob.
  injection Hob as <- <-.
  apply emit_ok_inv in Hem as (w2 & _ & Hw & _).
  exists cid, cs, creds, w2. split; [exact Hacq|]. split; [exact Hw|].
  split.
  - apply write_output_twice in Hw as (_ & _ & Hp). exact Hp.
  - intros Hne. apply Hout; [reflexivity | exact Hne].
Qed.




(** ** Which errors a run can end with *)

Lemma raises_only_bind {A B} P (m : M A) (k : A -> M B) :
  raises_only P m -> (forall a, raises_only P (k a)) -> raises_only P (bind m k).
Proof.
  intros Hm Hk w e w' H. apply bind_raise_inv in H as [H|(a & w1 & _ & H)].
  - eapply Hm, H.
  - eapply Hk, H.
Qed.

Lemma raises_only_ret {A} P (a : A) : raises_only P (ret a).
Proof. intros w e w' H. discriminate. Qed.

Lemma os_mkdir_raises p : raises_only sink_error (os_mkdir p).
Proof.
  intros w e w' H. apply os_mkdir_raise_inv in H as [_ [errno [-> _]]].
  reflexivity.
Qed.

Lemma mkdir_exist_ok_raises p : raises_only sink_error (mkdir_exist_ok p).
Proof.
  intros w e w'. unfold mkdir_exist_ok.
  destruct (os_mkdir p w) as [[u|e0] w1] eqn:E; [discriminate|].
  apply os_mkdir_raises in E.
  destruct e0 as [| [] q | | |]; try discriminate E;
    try destruct (is_dir _ _); intros H; inversion H; reflexivity.
Qed.

Lemma mkdir_parents_rev_raises rp : raises_only sink_error (mkdir_parents_rev rp).
Proof.
  induction rp as [|x rp IH]; intros w e w'.
  - simpl. discriminate.
  - cbn [mkdir_parents_rev].
    destruct (os_mkdir (rev (x :: rp)) w) as [[u|e0] w1] eqn:E; [discriminate|].
    apply os_mkdir_raises in E.
    destruct e0 as [| [] q | | |]; try discriminate E;
      try (destruct (is_dir _ _); intros H; inversion H; reflexivity).
    apply raises_only_bind; [exact IH|]. intros _. apply mkdir_exist_ok_raises.
Qed.

Lemma mkdir_parents_raises p : raises_only sink_error (mkdir_parents p).
Proof. apply mkdir_parents_rev_raises. Qed.

Lemma open_w_raises p : raises_only sink_error (open_w p).
Proof.
  intros w e w' H. apply open_w_raise_inv in H as [_ [errno ->]]. reflexivity.
Qed.

Lemma fh_write_raises p text : raises_only sink_error (fh_write p text).
Proof.
  intros w e w'. unfold fh_write. destruct (utf8_encode text).
  - destruct (fs w !! p) as [[|c]|]; discriminate.
  - intros H. inversion H. reflexivity.
Qed.

Lemma write_output_raises p pl : raises_only sink_error (write_output p pl).
Proof.
  unfold write_output.
  repeat (apply raises_only_bind; [|intros _]);
    auto using mkdir_parents_raises, open_w_raises, fh_write_raises.
Qed.

Lemma write_env_payload_raises q cid cs creds :
  raises_only sink_error (write_env q (payload_of cid cs creds)).
Proof.
  unfold write_env.
  apply raises_only_bind; [apply mkdir_parents_raises|]. intros _.
  apply raises_only_bind; [intros w e w' H; discriminate|]. intros ls.
  unfold write_text.
  apply raises_only_bind; [apply open_w_raises|]. intros _.
  apply fh_write_raises.
Qed.

Lemma narrate_raises pl : raises_only sink_error (narrate pl).
Proof. intros w e w' H. rewrite narrate_eq in H. discriminate. Qed.

Lemma emit_payload_raises cid cs creds out env quiet :
  raises_only sink_error (emit (payload_of cid cs creds) out env quiet).
Proof.
  unfold emit.
  apply raises_only_bind.
  { destruct out; [apply write_output_raises | apply raises_only_ret]. }
  intros _. apply raises_only_bind.
  { destruct env; [apply write_env_payload_raises | apply raises_only_ret]. }
  intros _. destruct quiet; [apply raises_only_ret | apply narrate_raises].
Qed.

(** A run that ends with an error that is not a sink error stopped before
    the sinks: the file system is as it was. *)
Lemma run_flow_early_failure d secret scopes uc out env quiet w e w' :
  run_flow d secret scopes uc out env quiet w = (Raise e, w') ->
  is_sink_error e = false -> fs w' = fs w.
Proof.
  unfold run_flow. intros H He.
  apply bind_raise_inv in H as [H|(pl & w1 & Hob & Hem)].
  - pose proof (obtain_payload_keeps_fs d secret scopes uc w) as K.
    rewrite H in K. exact K.
  - apply obtain_payload_ok_inv in Hob as (cid & cs & creds & _ & -> & _).
    apply emit_payload_raises in Hem. unfold sink_error in Hem. congruence.
Qed.



(** ** An absent refresh token *)


(** ** The env file and the shell *)

Lemma strip_prefix_app pre s : strip_prefix pre (pre ++ s) = Some s.
Proof.
  induction pre as [|a pre IH]; [reflexivity|].
  simpl. rewrite Z.eqb_refl. exact IH.
Qed.

Lemma sh_dquoted_plain v rest :
  forallb sh_plain v = true ->
  forallb (fun c => negb (c =? 36) && negb (c =? 96)) v = true ->
  sh_dquoted (v ++ dquote :: rest) = Some (v, rest).
Proof.
  induction v as [|c v IH]; intros Hp Hd.
  - reflexivity.
  - simpl in Hp, Hd. apply andb_prop in Hp as [Hc Hp].
    apply andb_prop in Hd as [Hcd Hd].
    unfold sh_plain, sh_escapable in Hc. apply negb_true_iff in Hc.
    apply orb_false_elim in Hc as [Hc Hb]. apply orb_false_elim in Hc as [Hc Hq].
    simpl. rewrite Hq, Hb.
    apply orb_false_elim in Hc as [H36 H96]. rewrite H36, H96. simpl.
    rewrite (IH Hp Hd). reflexivity.
Qed.



Lemma prepend_some c r v rest :
  prepend c r = Some (v, rest) ->
  exists v', v = c :: v' /\ r = Some (v', rest).
Proof.
  destruct r as [[v' rest']|]; [|discriminate].
  intros H. injection H as <- <-. eauto.
Qed.

(** The shell's reading never yields more characters than it consumed, and
    it yields as many only when it met no double quote before the closing
    one. *)
Lemma sh_dquoted_length n : forall s v rest,
  (length s <= n)%nat ->
  sh_dquoted s = Some (v, rest) ->
  (length v + 1 + length rest <= length s)%nat
  /\ ((length v + 1 + length rest = length s)%nat -> ~ In dquote v).
Proof.
  induction n as [|n IH]; intros s v rest Hn H.
  - destruct s; [discriminate | simpl in Hn; lia].
  - destruct s as [|c r]; [discriminate|]. cbn [sh_dquoted] in H.
    destruct (Z.eqb_spec c dquote) as [->|Hq].
    { injection H as <- <-. simpl. split; [lia | tauto]. }
    destruct ((c =? 36) || (c =? 96)); [discriminate|].
    destruct (Z.eqb_spec c backslash) as [->|Hb].
    + destruct r as [|e r']; [discriminate|].
      destruct (sh_escapable e) eqn:He.
      * apply prepend_some in H as (v' & -> & H).
        apply IH in H as [H1 _]; [|simpl in Hn; lia].
        simpl. split; lia.
      * destruct (Z.eqb_spec e nl) as [->|Hnl].
        -- apply IH in H as [H1 _]; [|simpl in Hn; lia].
           simpl. split; lia.
        -- apply prepend_some in H as (v' & -> & H).
           apply prepend_some in H as (v'' & -> & H).
           apply IH in H as [H1 H2]; [|simpl in Hn; lia].
           simpl. split; [lia|]. intros Heq [E|[E|E]].
           ++ discriminate E.
           ++ subst e. discriminate He.
           ++ apply H2; [lia | exact E].
    + apply prepend_some in H as (v' & -> & H).
      apply IH in H as [H1 H2]; [|simpl in Hn; lia].
      simpl. split; [lia|]. intros Heq [E|E]; [congruence|].
      apply H2; [lia | exact E].
Qed.



(** C10. The env-file writer does not escape: there is a payload whose
    refresh token holds a double quote and whose third env line, as the
    writer produces it, is not a double-quoted assignment of that token. *)
Theorem env_line_not_escaped :
  exists cid csecret creds rtoken l1 l2 l3,
    refresh_token creds = PyStr rtoken
    /\ In dquote rtoken
    /\ env_lines (payload_of cid csecret creds) world_empty
       = (Ok [l1; l2; l3], world_empty)
    /\ l3 = lit "YOUTUBE_REFRESH_TOKEN=" ++ quoted rtoken
    /\ sh_assigned_value (lit "YOUTUBE_REFRESH_TOKEN=") l3 <> Some rtoken.
Proof.
  exists (PyStr (lit "abc")), (PyStr (lit "xyz")), creds_quote,
    [114; dquote; 49].
  eexists _, _, _. split; [reflexivity|].
  split; [right; left; reflexivity|].
  split; [reflexivity|]. split; [reflexivity|].
  vm_compute. discriminate.
Qed.

(** ** Reading back an escaped string *)

Lemma hex_val_digit d : 0 <= d < 16 -> hex_val (hex_digit d) = Some d.
Proof.
  intros H. unfold hex_digit, hex_val.
  destruct (d <? 10) eqn:E.
  - apply Z.ltb_lt in E.
    replace ((48 <=? 48 + d) && (48 + d <=? 57)) with true
      by (symmetry; apply andb_true_intro; split; apply Z.leb_le; lia).
    f_equal. lia.
  - apply Z.ltb_ge in E.
    replace ((48 <=? 87 + d) && (87 + d <=? 57)) with false
      by (symmetry; apply andb_false_intro2, Z.leb_gt; lia).
    replace ((97 <=? 87 + d) && (87 + d <=? 102)) with true
      by (symmetry; apply andb_true_intro; split; apply Z.leb_le; lia).
    f_equal. lia.
Qed.

Lemma decode_hex4 n rest :
  0 <= n < 65536 -> decode_uXXXX (hex4 n ++ rest) = Some (n, rest).
Proof.
  intros H. unfold hex4, decode_uXXXX. cbn [app].
  rewrite !hex_val_digit by (apply Z.mod_pos_bound; lia).
  f_equal. f_equal. Z.div_mod_to_equations. lia.
Qed.

Lemma lor_high_low a b k :
  0 <= k -> 0 <= b < 2 ^ k -> Z.lor (a * 2 ^ k) b = a * 2 ^ k + b.
Proof.
  intros Hk Hb.
  assert (Hland : Z.land (a * 2 ^ k) b = 0).
  { apply Z.bits_inj'. intros i Hi. rewrite Z.land_spec, Z.bits_0.
    destruct (Z.lt_ge_cases i k) as [Hlt|Hge].
    - rewrite Z.mul_pow2_bits_low by lia. reflexivity.
    - rewrite <- (Z.mod_small b (2 ^ k)) by lia.
      rewrite Z.mod_pow2_bits_high by lia. apply andb_false_r. }
  rewrite Z.add_nocarry_lxor by exact Hland.
  symmetry. apply Z.lxor_lor, Hland.
Qed.

Lemma high_part n :
  0 <= n < 1048576 ->
  Z.lor 55296 (Z.land (Z.shiftr n 10) 1023) = 55296 + n / 1024.
Proof.
  intros H. rewrite Z.shiftr_div_pow2 by lia.
  change 1023 with (Z.ones 10). rewrite Z.land_ones by lia.
  change (2 ^ 10) with 1024.
  rewrite (Z.mod_small (n / 1024) 1024) by (Z.div_mod_to_equations; lia).
  change 55296 with (54 * 2 ^ 10). apply lor_high_low; [lia|].
  change (2 ^ 10) with 1024. Z.div_mod_to_equations. lia.
Qed.

Lemma low_part n : Z.lor 56320 (Z.land n 1023) = 56320 + n mod 1024.
Proof.
  change 1023 with (Z.ones 10). rewrite Z.land_ones by lia.
  change 56320 with (55 * 2 ^ 10). apply lor_high_low; [lia|].
  apply Z.mod_pos_bound. reflexivity.
Qed.

Lemma join_parts n :
  Z.lor (Z.shiftl (n / 1024) 10) (n mod 1024) = n.
Proof.
  rewrite Z.shiftl_mul_pow2 by lia.
  rewrite lor_high_low; [| lia | apply Z.mod_pos_bound; reflexivity].
  change (2 ^ 10) with 1024. Z.div_mod_to_equations. lia.
Qed.

Lemma escape_char_case c : is_code_point c = true -> esc_case c (escape_char c).
Proof.
  intros Hc. unfold is_code_point in Hc. apply andb_prop in Hc as [H0 H1].
  apply Z.leb_le in H0. apply Z.leb_le in H1.
  unfold escape_char, backslash, dquote.
  destruct (Z.eqb_spec c 92) as [->|N1];
    [apply (esc_short 92 92); [reflexivity | discriminate]|].
  destruct (Z.eqb_spec c 34) as [->|N2];
    [apply (esc_short 34 34); [reflexivity | discriminate]|].
  destruct (Z.eqb_spec c 8) as [->|N3];
    [apply (esc_short 8 98); [reflexivity | discriminate]|].
  destruct (Z.eqb_spec c 12) as [->|N4];
    [apply (esc_short 12 102); [reflexivity | discriminate]|].
  destruct (Z.eqb_spec c 10) as [->|N5];
    [apply (esc_short 10 110); [reflexivity | discriminate]|].
  destruct (Z.eqb_spec c 13) as [->|N6];
    [apply (esc_short 13 114); [reflexivity | discriminate]|].
  destruct (Z.eqb_spec c 9) as [->|N7];
    [apply (esc_short 9 116); [reflexivity | discriminate]|].
  destruct ((32 <=? c) && (c <=? 126)) eqn:Hp.
  - apply esc_plain. unfold is_plain, dquote, backslash. rewrite Hp.
    apply andb_true_intro; split;
      [apply andb_true_intro; split; [reflexivity|]|];
      apply negb_true_iff, Z.eqb_neq; assumption.
  - destruct (c <? 65536) eqn:Hlt.
    + apply Z.ltb_lt in Hlt. apply esc_u. lia.
    + apply Z.ltb_ge in Hlt. cbv zeta.
      rewrite high_part, low_part by lia.
      apply esc_pair.
      * unfold is_high_surrogate. apply andb_true_intro; split;
          apply Z.leb_le; Z.div_mod_to_equations; lia.
      * unfold is_low_surrogate. apply andb_true_intro; split;
          apply Z.leb_le; Z.div_mod_to_equations; lia.
      * replace (55296 + (c - 65536) / 1024 - 55296) with ((c - 65536) / 1024)
          by lia.
        replace (56320 + (c - 65536) mod 1024 - 56320) with ((c - 65536) mod 1024)
          by lia.
        rewrite join_parts. lia.
Qed.

Lemma surrogate_range c :
  is_high_surrogate c = true \/ is_low_surrogate c = true -> 0 <= c < 65536.
Proof.
  unfold is_high_surrogate, is_low_surrogate.
  intros [H|H]; apply andb_prop in H as [H0 H1];
    apply Z.leb_le in H0; apply Z.leb_le in H1; lia.
Qed.

Lemma high_not_low c : is_high_surrogate c = true -> is_low_surrogate c = false.
Proof.
  unfold is_high_surrogate, is_low_surrogate. intros H.
  apply andb_prop in H as [H0 H1]. apply Z.leb_le in H1.
  apply andb_false_intro1, Z.leb_gt. lia.
Qed.

(** After a single high surrogate the scanner joins nothing, as long as no
    low surrogate follows it in the string. *)
Lemma lookahead_single c2 tail :
  is_code_point c2 = true -> is_low_surrogate c2 = false ->
  starts_with_u (escape_char c2 ++ tail) = false
  \/ exists uni2 r4,
       decode_uXXXX (skipn 2 (escape_char c2 ++ tail)) = Some (uni2, r4)
       /\ is_low_surrogate uni2 = false.
Proof.
  intros Hc Hlow. destruct (escape_char_case c2 Hc) as [e He Hne| Hp | Hr | hi lo Hh Hl Heq].
  - left. cbn. apply Z.eqb_neq. exact Hne.
  - left. unfold is_plain in Hp.
    apply andb_prop in Hp as [_ Hb]. apply negb_true_iff in Hb.
    cbn [app starts_with_u]. destruct tail; [reflexivity|].
    rewrite Hb. reflexivity.
  - right. exists c2, tail. split; [|exact Hlow].
    unfold u_escape. cbn [app skipn]. apply decode_hex4, Hr.
  - right. exists hi, (u_escape lo ++ tail). split; [|apply high_not_low, Hh].
    unfold u_escape at 1. rewrite <- app_assoc. cbn [app skipn].
    apply decode_hex4, surrogate_range. left. exact Hh.
Qed.

Lemma scanstring_short fuel e r1 :
  e <> 117 ->
  scanstring (S fuel) (backslash :: e :: r1)
  = match unescape e with
    | Some ch => prepend ch (scanstring fuel r1)
    | None => None
    end.
Proof.
  intros Hne. cbn [scanstring].
  change (backslash =? dquote) with false.
  change (backslash =? backslash) with true. cbv iota.
  rewrite (proj2 (Z.eqb_neq e 117) Hne). reflexivity.
Qed.

Lemma scanstring_plain fuel c r :
  is_plain c = true ->
  scanstring (S fuel) (c :: r) = prepend c (scanstring fuel r).
Proof.
  intros Hp. unfold is_plain in Hp.
  apply andb_prop in Hp as [Hp Hb]. apply andb_prop in Hp as [Hp Hq].
  apply andb_prop in Hp as [H32 _]. apply Z.leb_le in H32.
  apply negb_true_iff in Hb, Hq. cbn [scanstring]. rewrite Hq, Hb.
  rewrite (proj2 (Z.ltb_ge c 32) H32). reflexivity.
Qed.

Lemma scanstring_u fuel uni r2 :
  0 <= uni < 65536 ->
  scanstring (S fuel) (u_escape uni ++ r2)
  = if is_high_surrogate uni && starts_with_u r2 then
      match decode_uXXXX (skipn 2 r2) with
      | None => None
      | Some (uni2, r4) =>
          if is_low_surrogate uni2 then
            prepend (65536 + Z.lor (Z.shiftl (uni - 55296) 10) (uni2 - 56320))
              (scanstring fuel r4)
          else prepend uni (scanstring fuel r2)
      end
    else prepend uni (scanstring fuel r2).
Proof.
  intros H. unfold u_escape. cbn [app scanstring].
  change (backslash =? dquote) with false.
  change (backslash =? backslash) with true.
  change (117 =? 117) with true. cbv iota.
  rewrite (decode_hex4 uni r2 H). reflexivity.
Qed.

Lemma scanstring_escape_chars s : forall fuel rest,
  forallb is_code_point s = true -> no_surrogate_pair s = true ->
  (length s < fuel)%nat ->
  scanstring fuel (escape_chars s ++ dquote :: rest) = Some (s, rest).
Proof.
  induction s as [|c s IH]; intros fuel rest Hcp Hns Hlen.
  - destruct fuel; [simpl in Hlen; lia|]. reflexivity.
  - destruct fuel as [|fuel]; [simpl in Hlen; lia|].
    simpl in Hcp. apply andb_prop in Hcp as [Hc Hcp].
    assert (Hns' : no_surrogate_pair s = true).
    { simpl in Hns. apply andb_prop in Hns as [_ Hns]. exact Hns. }
    assert (Hrec : scanstring fuel (escape_chars s ++ dquote :: rest)
                   = Some (s, rest)).
    { apply IH; [exact Hcp | exact Hns' | simpl in Hlen; lia]. }
    cbn [escape_chars]. rewrite <- app_assoc.
    destruct (escape_char_case c Hc) as [e He Hne| Hp | Hr | hi lo Hh Hl Heq].
    + cbn [app]. rewrite (scanstring_short _ _ _ Hne), He, Hrec. reflexivity.
    + cbn [app]. rewrite (scanstring_plain _ _ _ Hp), Hrec. reflexivity.
    + rewrite (scanstring_u _ _ _ Hr).
      destruct (is_high_surrogate c) eqn:Hhigh; cbn [andb];
        [|rewrite Hrec; reflexivity].
      destruct s as [|c2 s2].
      * cbn [escape_chars app starts_with_u] in *. rewrite Hrec.
        destruct rest; reflexivity.
      * simpl in Hns. rewrite Hhigh in Hns. cbn [andb] in Hns.
        apply andb_prop in Hns as [Hlow _]. apply negb_true_iff in Hlow.
        simpl in Hcp. apply andb_prop in Hcp as [Hc2 _].
        cbn [escape_chars] in *. rewrite <- app_assoc in *.
        destruct (lookahead_single c2 (escape_chars s2 ++ dquote :: rest) Hc2 Hlow)
          as [Hs|(uni2 & r4 & Hd & Hl2)].
        -- rewrite Hs, Hrec. reflexivity.
        -- destruct (starts_with_u _); [rewrite Hd, Hl2|]; rewrite Hrec;
             reflexivity.
    + rewrite <- app_assoc.
      rewrite (scanstring_u _ _ _ (surrogate_range hi (or_introl Hh))).
      rewrite Hh. unfold u_escape. cbn [app starts_with_u skipn].
      change (backslash =? backslash) with true.
      change (117 =? 117) with true. cbn [andb].
      rewrite drop_0.
      rewrite (decode_hex4 lo _ (surrogate_range lo (or_intror Hl))).
      rewrite Hl, Hrec, <- Heq. reflexivity.
Qed.

(** ** Reading back the output text *)

Lemma escape_char_nonempty c : (1 <= length (escape_char c))%nat.
Proof.
  unfold escape_char, u_escape.
  repeat match goal with
         | |- context [if ?b then _ else _] => destruct b
         end; simpl; lia.
Qed.

Lemma length_escape_chars s : (length s <= length (escape_chars s))%nat.
Proof.
  induction s as [|c s IH]; [reflexivity|].
  simpl. rewrite length_app. pose proof (escape_char_nonempty c). lia.
Qed.

Lemma scan_value_encode v fuel rest :
  val_ok v = true ->
  (length (encode_value v) <= fuel)%nat ->
  scan_value fuel (encode_value v ++ rest) = Some (v, rest).
Proof.
  intros Hv Hfuel. destruct v as [|s].
  - reflexivity.
  - unfold encode_value, encode_basestring_ascii in *.
    cbn [app scan_value]. rewrite <- app_assoc. cbn [app].
    unfold val_ok, str_ok in Hv. apply andb_prop in Hv as [Hcp Hns].
    rewrite scanstring_escape_chars; [reflexivity | exact Hcp | exact Hns |].
    simpl in Hfuel. rewrite length_app in Hfuel.
    pose proof (length_escape_chars s). simpl in Hfuel. lia.
Qed.

Lemma skip_ws_value v rest :
  skip_ws (encode_value v ++ rest) = encode_value v ++ rest.
Proof. destruct v; reflexivity. Qed.

Lemma encode_item_eq kv rest :
  encode_item 2 kv ++ rest
  = lit "  " ++ [dquote] ++ escape_chars kv.1 ++ [dquote] ++ lit ": "
      ++ encode_value kv.2 ++ rest.
Proof.
  unfold encode_item, encode_basestring_ascii.
  change (repeat 32 (Z.to_nat 2)) with [32; 32].
  change (lit "  ") with [32; 32].
  repeat (rewrite <- app_assoc; cbn [app]). reflexivity.
Qed.

Lemma join_cons sep (x y : list Z) r :
  join sep (x :: y :: r) = x ++ sep ++ join sep (y :: r).
Proof. reflexivity. Qed.

Lemma join_more d : forall kv,
  join (lit "," ++ [nl]) (map (encode_item 2) (kv :: d)) ++ [nl] ++ lit "}"
  = lit "  " ++ [dquote] ++ escape_chars kv.1 ++ [dquote] ++ lit ": "
      ++ encode_value kv.2 ++ more_items d.
Proof.
  induction d as [|kv' d IH]; intros kv.
  - cbn [map join more_items]. apply encode_item_eq.
  - cbn [map] in *. rewrite join_cons. rewrite <- !app_assoc.
    rewrite (IH kv'). rewrite encode_item_eq. cbn [more_items].
    repeat rewrite <- app_assoc. reflexivity.
Qed.

Lemma join_more_tail d kv tail :
  join (lit "," ++ [nl]) (map (encode_item 2) (kv :: d))
    ++ [nl] ++ lit "}" ++ tail
  = lit "  " ++ [dquote] ++ escape_chars kv.1 ++ [dquote] ++ lit ": "
      ++ encode_value kv.2 ++ more_items d ++ tail.
Proof.
  rewrite (app_assoc [nl]), app_assoc, join_more.
  repeat rewrite <- app_assoc. reflexivity.
Qed.

Lemma length_more_items d : (length d < length (more_items d))%nat.
Proof.
  induction d as [|kv d IH]; [simpl; lia|].
  cbn [more_items]. rewrite !length_app. simpl. lia.
Qed.

Lemma scan_pairs_step fuel k v X :
  str_ok k = true -> val_ok v = true ->
  scan_pairs (S fuel)
    (escape_chars k ++ [dquote] ++ lit ": " ++ encode_value v ++ X)
  = match skip_ws X with
    | 125 :: r3 => Some ([(k, v)], r3)
    | 44 :: r3 =>
        match skip_ws r3 with
        | 34 :: r4 =>
            match scan_pairs fuel r4 with
            | Some (ps, rest) => Some ((k, v) :: ps, rest)
            | None => None
            end
        | _ => None
        end
    | _ => None
    end.
Proof.
  intros Hk Hv. unfold str_ok in Hk. apply andb_prop in Hk as [Hcp Hns].
  cbn [scan_pairs]. change (lit ": ") with [58; 32]. cbn [app].
  rewrite scanstring_escape_chars;
    [| exact Hcp | exact Hns
     | rewrite length_app; pose proof (length_escape_chars k); simpl; lia].
  change (skip_ws (58 :: 32 :: encode_value v ++ X))
    with (58 :: 32 :: encode_value v ++ X). cbv iota.
  change (skip_ws (32 :: encode_value v ++ X))
    with (skip_ws (encode_value v ++ X)).
  rewrite skip_ws_value.
  rewrite scan_value_encode; [reflexivity | exact Hv |].
  cbn [length]. rewrite length_app. lia.
Qed.

Lemma scan_pairs_items d : forall fuel k v tail,
  str_ok k = true -> val_ok v = true -> dict_ok d = true ->
  (length d < fuel)%nat ->
  scan_pairs fuel
    (escape_chars k ++ [dquote] ++ lit ": " ++ encode_value v
       ++ more_items d ++ [nl] ++ tail)
  = Some ((k, v) :: d, [nl] ++ tail).
Proof.
  induction d as [|[k' v'] d IH]; intros fuel k v tail Hk Hv Hd Hfuel;
    (destruct fuel as [|fuel]; [simpl in Hfuel; lia|]);
    rewrite (scan_pairs_step _ _ _ _ Hk Hv).
  - reflexivity.
  - cbn [more_items fst snd]. change (lit ",") with [44].
    change (lit "  ") with [32; 32].
    repeat (rewrite <- app_assoc; cbn [app]).
    change (skip_ws (44 :: ?x)) with (44 :: x). cbv iota.
    simpl in Hd. apply andb_prop in Hd as [Hkv Hd].
    apply andb_prop in Hkv as [Hk' Hv'].
    match goal with
    | |- context [skip_ws (nl :: 32 :: 32 :: dquote :: ?x)] =>
        change (skip_ws (nl :: 32 :: 32 :: dquote :: x)) with (34 :: x)
    end. cbv iota.
    pose proof (IH fuel k' v' tail Hk' Hv' Hd ltac:(simpl in Hfuel; lia)) as E.
    cbn [app] in E. rewrite E. reflexivity.
Qed.

(** Parsing what [json.dumps(d, indent=2)] wrote, with trailing white
    space, gives the pairs of [d] back. *)
Lemma json_loads_dumps kv d :
  dict_ok (kv :: d) = true ->
  json_loads (json_dumps 2 (kv :: d) ++ [nl]) = Some (dict_of_pairs (kv :: d)).
Proof.
  intros Hd. simpl in Hd. apply andb_prop in Hd as [Hkv Hd].
  apply andb_prop in Hkv as [Hk Hv]. destruct kv as [k v]. cbn [fst snd] in *.
  assert (E : json_dumps 2 ((k, v) :: d) ++ [nl]
              = 123 :: nl :: 32 :: 32 :: 34
                  :: (escape_chars k ++ [dquote] ++ lit ": " ++ encode_value v
                      ++ more_items d ++ [nl] ++ [])).
  { unfold json_dumps. repeat rewrite <- app_assoc.
    rewrite (join_more_tail d (k, v)).
    cbn [fst snd]. change (lit "{") with [123]. change (lit "  ") with [32; 32].
    reflexivity. }
  rewrite E. unfold json_loads.
  change (skip_ws (123 :: ?x)) with (123 :: x). cbv iota.
  match goal with
  | |- context [skip_ws (nl :: 32 :: 32 :: 34 :: ?x)] =>
      change (skip_ws (nl :: 32 :: 32 :: 34 :: x)) with (34 :: x)
  end. cbv iota.
  rewrite (scan_pairs_items d _ k v [] Hk Hv Hd).
  - reflexivity.
  - rewrite !length_app. pose proof (length_more_items d). lia.
Qed.

Lemma plain_is_code_point c : is_plain c = true -> is_code_point c = true.
Proof.
  unfold is_plain, is_code_point. intros H.
  apply andb_prop in H as [H _]. apply andb_prop in H as [H _].
  apply andb_prop in H as [H0 H1].
  apply Z.leb_le in H0. apply Z.leb_le in H1.
  apply andb_true_intro; split; apply Z.leb_le; lia.
Qed.

Lemma plain_not_high c : is_plain c = true -> is_high_surrogate c = false.
Proof.
  unfold is_plain, is_high_surrogate. intros H.
  apply andb_prop in H as [H _]. apply andb_prop in H as [H _].
  apply andb_prop in H as [_ H1]. apply Z.leb_le in H1.
  apply andb_false_intro1, Z.leb_gt. lia.
Qed.

Lemma plain_str_ok s : forallb is_plain s = true -> str_ok s = true.
Proof.
  intros H. unfold str_ok. apply andb_true_intro. split.
  - induction s as [|c s IH]; [reflexivity|].
    simpl in *. apply andb_prop in H as [Hc Hs].
    rewrite (plain_is_code_point c Hc), (IH Hs). reflexivity.
  - induction s as [|c s IH]; [reflexivity|].
    simpl in *. apply andb_prop in H as [Hc Hs].
    rewrite (plain_not_high c Hc), (IH Hs). destruct s; reflexivity.
Qed.

Lemma token_expiry_ok creds : val_ok (token_expiry creds) = true.
Proof.
  unfold token_expiry. destruct (expiry creds) as [e|]; [|reflexivity].
  apply plain_str_ok, isoformat_plain.
Qed.

Lemma payload_ok cid cs creds :
  val_ok cid = true -> val_ok cs = true ->
  val_ok (refresh_token creds) = true -> val_ok (token creds) = true ->
  dict_ok (payload_of cid cs creds) = true.
Proof.
  intros H1 H2 H3 H4. unfold dict_ok, payload_of. cbn [forallb fst snd].
  rewrite H1, H2, H3, H4, token_expiry_ok. reflexivity.
Qed.

(** C5, as amended. When no string field of the payload holds a high
    surrogate immediately followed by a low surrogate, writing the payload
    to the output path and parsing the written file gives back the five
    fields with the values they had. *)
Theorem output_round_trip (cid csecret : PyVal) (creds : Credentials) :
  val_ok cid = true -> val_ok csecret = true ->
  val_ok (refresh_token creds) = true -> val_ok (token creds) = true ->
  round_trips (payload_of cid csecret creds).
Proof.
  intros H1 H2 H3 H4 p w w' Hw.
  apply write_output_twice in Hw as (_ & _ & Hp).
  exists (json_dumps 2 (payload_of cid csecret creds) ++ [nl]).
  split; [exact Hp|].
  unfold json_load_bytes.
  rewrite utf8_decode_ascii
    by (rewrite all_ascii_app, json_dumps_ascii; reflexivity).
  unfold payload_of at 1.
  rewrite json_loads_dumps by (apply payload_ok; assumption).
  reflexivity.
Qed.

(** C5, as stated, fails: a refresh token made of the two code points
    U+D83D and U+DE00 is written as two [\u] escapes and parsed back as the
    single code point U+1F600. *)
Lemma round_trip_fails_on_surrogate_pair :
  ~ round_trips
      (payload_of (PyStr (lit "abc")) (PyStr (lit "xyz")) creds_surrogates).
Proof.
  intros H.
  destruct (H [lit "creds.json"] world_empty
              (write_output [lit "creds.json"]
                 (payload_of (PyStr (lit "abc")) (PyStr (lit "xyz"))
                    creds_surrogates) world_empty).2)
    as (bs & Hbs & Hload).
  - vm_compute. reflexivity.
  - vm_compute in Hbs. injection Hbs as <-.
    vm_compute in Hload. discriminate.
Qed.

(** ** The env file, line by line *)

Lemma split_lines_acc_line cur a rest :
  no_newline a = true ->
  split_lines_acc cur (a ++ nl :: rest)
  = (rev cur ++ a) :: split_lines_acc [] rest.
Proof.
  revert cur. induction a as [|c a IH]; intros cur Ha.
  - cbn [app split_lines_acc]. rewrite Z.eqb_refl, app_nil_r. reflexivity.
  - simpl in Ha. apply andb_prop in Ha as [Hc Ha].
    apply negb_true_iff in Hc. cbn [app split_lines_acc]. rewrite Hc.
    rewrite IH by exact Ha. cbn [rev]. rewrite <- app_assoc. reflexivity.
Qed.

Lemma no_newline_app a b : no_newline (a ++ b) = no_newline a && no_newline b.
Proof. apply forallb_app. Qed.

Lemma env_line_no_newline name v :
  no_newline name = true -> no_newline (py_str v) = true ->
  no_newline (env_line name v) = true.
Proof.
  intros Hn Hv. unfold env_line.
  rewrite !no_newline_app, Hn, Hv. reflexivity.
Qed.

(** X14. When the three interpolated values hold no newline, the env text
    splits at newlines into exactly the three assignment lines and the empty
    remainder after the trailing newline. *)
Lemma env_text_lines cid csecret rtoken :
  no_newline (py_str cid) = true -> no_newline (py_str csecret) = true ->
  no_newline (py_str rtoken) = true ->
  split_lines (env_text cid csecret rtoken)
  = [ env_line (lit "YOUTUBE_CLIENT_ID=") cid;
      env_line (lit "YOUTUBE_CLIENT_SECRET=") csecret;
      env_line (lit "YOUTUBE_REFRESH_TOKEN=") rtoken;
      [] ].
Proof.
  intros H1 H2 H3. unfold split_lines, env_text.
  rewrite !join_cons. cbn [join]. repeat rewrite <- app_assoc. cbn [app].
  rewrite !split_lines_acc_line
    by (apply env_line_no_newline; [reflexivity | assumption]).
  reflexivity.
Qed.

Lemma env_text_lines_witness :
  split_lines (env_text (PyStr (lit "abc")) (PyStr (lit "xyz")) PyNone)
  = [ env_line (lit "YOUTUBE_CLIENT_ID=") (PyStr (lit "abc"));
      env_line (lit "YOUTUBE_CLIENT_SECRET=") (PyStr (lit "xyz"));
      env_line (lit "YOUTUBE_REFRESH_TOKEN=") PyNone;
      [] ].
Proof.
  apply (env_text_lines (PyStr (lit "abc")) (PyStr (lit "xyz")) PyNone);
    vm_compute; reflexivity.
Defined.

(** ** Worked runs *)

(** The scenario of the specification: the delegate returns [abc], [xyz],
    [r1], [a1] and no expiry. *)
Example scenario_output_file :
  fs (run_flow (mock_delegate creds_r1) secret_path upload_scope false
        (Some out_path) None true world_secret).2 !! out_path
  = Some (File
      (lit "{" ++ [nl]
       ++ lit "  " ++ quoted (lit "client_id") ++ lit ": "
       ++ quoted (lit "abc") ++ lit "," ++ [nl]
       ++ lit "  " ++ quoted (lit "client_secret") ++ lit ": "
       ++ quoted (lit "xyz") ++ lit "," ++ [nl]
       ++ lit "  " ++ quoted (lit "refresh_token") ++ lit ": "
       ++ quoted (lit "r1") ++ lit "," ++ [nl]
       ++ lit "  " ++ quoted (lit "access_token") ++ lit ": "
       ++ quoted (lit "a1") ++ lit "," ++ [nl]
       ++ lit "  " ++ quoted (lit "token_expiry") ++ lit ": null" ++ [nl]
       ++ lit "}" ++ [nl])).
Proof. vm_compute. reflexivity. Qed.

Example scenario_parent_directory :
  fs (run_flow (mock_delegate creds_r1) secret_path upload_scope false
        (Some out_path) None true world_secret).2 !! [lit "out"]
  = Some Dir.
Proof. vm_compute. reflexivity. Qed.

Example scenario_env_file :
  fs (run_flow (mock_delegate creds_r1) secret_path upload_scope false
        None (Some env_path) true world_secret).2 !! env_path
  = Some (File
      (lit "YOUTUBE_CLIENT_ID=" ++ quoted (lit "abc") ++ [nl]
       ++ lit "YOUTUBE_CLIENT_SECRET=" ++ quoted (lit "xyz") ++ [nl]
       ++ lit "YOUTUBE_REFRESH_TOKEN=" ++ quoted (lit "r1") ++ [nl])).
Proof. vm_compute. reflexivity. Qed.

Example scenario_expiry :
  isoformat expiry_2024 = lit "2024-02-29T13:05:09".
Proof. vm_compute. reflexivity. Qed.

Example scenario_local_server_calls :
  calls (run_flow (mock_delegate creds_r1) secret_path upload_scope false
           None None true world_secret).2
  = [ CallFromClientSecretsFile (lit "client_secret.json") upload_scope;
      CallRunLocalServer 0 ].
Proof. vm_compute. reflexivity. Qed.

(** A delegate failure ends the run with the delegate's error and without
    any file. *)
Example scenario_delegate_failure :
  run_flow
    (mk_delegate (fun _ _ _ => Ok (mk_flow mock_config))
       (fun _ => Raise (DelegateError (lit "access_denied")))
       (fun _ _ => Raise (DelegateError (lit "access_denied"))))
    secret_path upload_scope true (Some out_path) (Some env_path) false
    world_secret
  = (Raise (DelegateError (lit "access_denied")),
     logged world_secret (delegate_calls secret_path upload_scope true)).
Proof. vm_compute. reflexivity. Qed.

(** A client configuration without [client_secret] ends the run with a
    [KeyError], after the consent step. *)
Example scenario_missing_config_key :
  (run_flow
     (mk_delegate
        (fun _ _ _ => Ok (mk_flow [(lit "client_id", PyStr (lit "abc"))]))
        (fun _ => Ok creds_r1) (fun _ _ => Ok creds_r1))
     secret_path upload_scope true (Some out_path) None false world_secret).1
  = Raise (KeyError (lit "client_secret")).
Proof. vm_compute. reflexivity. Qed.

(** A refresh token that cannot be encoded as UTF-8 (a lone surrogate) makes
    the env-file write raise after the output file was written; the env file
    is left empty. *)
Example scenario_env_encoding_failure :
  let r := run_flow (mock_delegate creds_surrogates) secret_path upload_scope
             false (Some out_path) (Some env_path) true world_secret in
  r.1 = Raise UnicodeEncodeError
  /\ fs r.2 !! env_path = Some (File [])
  /\ exists c, fs r.2 !! out_path = Some (File c).
Proof.
  cbv zeta. split; [vm_compute; reflexivity|].
  split; [vm_compute; reflexivity|]. eexists. vm_compute. reflexivity.
Qed.

(** Escapes of the encoder and their reading: a control character, a
    character above the basic plane, and the quote. *)
Example scenario_escapes :
  escape_chars [9; 233; 128512; dquote]
  = lit "\t\u00e9\ud83d\ude00" ++ [backslash; dquote]
  /\ scanstring 5 (escape_chars [9; 233; 128512; dquote] ++ [dquote])
     = Some ([9; 233; 128512; dquote], []).
Proof. split; vm_compute; reflexivity. Qed.

(** ** The theorems at concrete runs *)





Lemma output_round_trip_witness :
  val_ok (PyStr (lit "abc")) = true
  /\ val_ok (PyStr (lit "xyz")) = true
  /\ val_ok (refresh_token creds_with_expiry) = true
  /\ val_ok (token creds_with_expiry) = true
  /\ round_trips
       (payload_of (PyStr (lit "abc")) (PyStr (lit "xyz")) creds_with_expiry).
Proof.
  repeat (split; [reflexivity|]).
  apply (output_round_trip (PyStr (lit "abc")) (PyStr (lit "xyz"))
           creds_with_expiry); reflexivity.
Defined.


Lemma run_flow_selects_variant_witness :
  is_Some (node_at (fs world_secret) secret_path)
  /\ from_client_secrets_file (mock_delegate creds_r1) (fs world_secret)
       (path_str secret_path) upload_scope = Ok (mk_flow mock_config)
  /\ calls (run_flow (mock_delegate creds_r1) secret_path upload_scope true
              None None true world_secret).2
     = calls world_secret
         ++ [ CallFromClientSecretsFile (path_str secret_path) upload_scope;
              CallRunConsole ].
Proof.
  assert (H : is_Some (node_at (fs world_secret) secret_path))
    by (eexists; reflexivity).
  split; [exact H|]. split; [reflexivity|].
  apply (run_flow_selects_variant (mock_delegate creds_r1) secret_path
           upload_scope true None None true world_secret (mk_flow mock_config)
           H eq_refl).
Defined.



(** * Further properties of [run_flow] *)


(** ** What a run never touches *)

Lemma spares_bind {A B} ps (m : M A) (k : A -> M B) :
  spares ps m -> (forall a, spares ps (k a)) -> spares ps (bind m k).
Proof.
  intros Hm Hk w x n Hx Hn. unfold bind.
  specialize (Hm w x n Hx Hn).
  destruct (m w) as [[a|e] w1]; simpl in *.
  - apply Hk; assumption.
  - exact Hm.
Qed.

Lemma spares_keeps_fs {A} ps (m : M A) : keeps fs m -> spares ps m.
Proof. intros Hk w x n _ Hn. rewrite Hk. exact Hn. Qed.

Lemma spares_weaken {A} ps qs (m : M A) :
  (forall x, In x ps -> In x qs) -> spares ps m -> spares qs m.
Proof. intros Hsub Hm w x n Hx. apply Hm. intros Hin. apply Hx, Hsub, Hin. Qed.

Lemma mkdir_parents_spares p : spares [] (mkdir_parents p).
Proof.
  intros w x n _ Hn.
  destruct (mkdir_parents p w) as [r w'] eqn:E.
  apply mkdir_parents_grows in E. simpl.
  destruct (E x) as [->|[Hnone _]]; congruence.
Qed.

Lemma open_w_spares p : spares [p] (open_w p).
Proof.
  intros w x n Hx Hn.
  destruct (open_w p w) as [[u|e] w'] eqn:E; simpl.
  - apply open_w_ok_inv in E as (_ & _ & _ & ->). simpl.
    rewrite lookup_insert_ne; [exact Hn|]. intros ->. apply Hx. left. reflexivity.
  - apply open_w_raise_inv in E as [-> _]. exact Hn.
Qed.

Lemma fh_write_spares p text : spares [p] (fh_write p text).
Proof.
  intros w x n Hx Hn. unfold fh_write.
  destruct (utf8_encode text); [|exact Hn].
  destruct (fs w !! p) as [[|c]|]; try exact Hn. simpl.
  rewrite lookup_insert_ne; [exact Hn|]. intros ->. apply Hx. left. reflexivity.
Qed.

Lemma write_output_spares p pl : spares [p] (write_output p pl).
Proof.
  unfold write_output.
  apply spares_bind;
    [apply (spares_weaken []); [intros ? []|apply mkdir_parents_spares]|].
  intros _. apply spares_bind; [apply open_w_spares|].
  intros _. apply spares_bind; [apply fh_write_spares|].
  intros _. apply fh_write_spares.
Qed.

Lemma write_env_spares q pl : spares [q] (write_env q pl).
Proof.
  unfold write_env, write_text.
  apply spares_bind;
    [apply (spares_weaken []); [intros ? []|apply mkdir_parents_spares]|].
  intros _. apply spares_bind; [apply spares_keeps_fs, env_lines_keeps|].
  intros ls. apply spares_bind; [apply open_w_spares|].
  intros _. apply fh_write_spares.
Qed.

Lemma emit_spares pl output env_file quiet :
  spares (sink_paths output env_file) (emit pl output env_file quiet).
Proof.
  unfold emit, sink_paths.
  apply spares_bind.
  { destruct output as [p|].
    - eapply spares_weaken; [|apply write_output_spares].
      intros x Hx. apply in_or_app. left. exact Hx.
    - apply spares_keeps_fs, keeps_ret. }
  intros _. apply spares_bind.
  { destruct env_file as [q|].
    - eapply spares_weaken; [|apply write_env_spares].
      intros x Hx. apply in_or_app. right. exact Hx.
    - apply spares_keeps_fs, keeps_ret. }
  intros _. apply spares_keeps_fs.
  destruct quiet; [apply keeps_ret | apply narrate_keeps_fs].
Qed.



(** ** What a run prints *)

Lemma emit_raise_keeps_stdout pl output env_file quiet w e w' :
  emit pl output env_file quiet w = (Raise e, w') -> stdout w' = stdout w.
Proof.
  unfold emit. intros H.
  apply bind_raise_inv in H as [H|([] & w1 & H1 & H)].
  - destruct output as [p|]; [|discriminate].
    pose proof (write_output_keeps_stdout p pl w) as K. rewrite H in K. exact K.
  - assert (K1 : stdout w1 = stdout w).
    { destruct output as [p|].
      - pose proof (write_output_keeps_stdout p pl w) as K. rewrite H1 in K.
        exact K.
      - inversion H1. reflexivity. }
    rewrite <- K1.
    apply bind_raise_inv in H as [H|([] & w2 & H2 & H)].
    + destruct env_file as [q|]; [|discriminate].
      pose proof (write_env_keeps_stdout q pl w1) as K. rewrite H in K. exact K.
    + destruct quiet; [discriminate|]. simpl in H. rewrite narrate_eq in H.
      discriminate.
Qed.




(** ** Failures before the sinks *)

(** X3. When the flow cannot be constructed from the client-secret file,
    the delegate's exception ends the run: the constructor call is the only
    call logged, no consent variant is run, and neither the file system nor
    standard output changes. *)
Theorem run_flow_constructor_failure (d : Delegate) (secret : list (list Z))
    (scopes : list pystr) (use_console : bool)
    (output env_file : option (list (list Z))) (quiet : bool) (w : World)
    (e : exn) :
  is_Some (node_at (fs w) secret) ->
  from_client_secrets_file d (fs w) (path_str secret) scopes = Raise e ->
  run_flow d secret scopes use_console output env_file quiet w
  = (Raise e,
     logged w [CallFromClientSecretsFile (path_str secret) scopes]).
Proof.
  intros Hex He. unfold run_flow. apply bind_raise.
  rewrite obtain_payload_found by exact Hex.
  apply bind_raise.
  unfold call_from_client_secrets_file, bind, log_call. simpl. rewrite He.
  reflexivity.
Qed.

Lemma run_flow_constructor_failure_witness :
  run_flow delegate_bad_file secret_path upload_scope false (Some out_path)
    (Some env_path) false world_secret
  = (Raise (DelegateError (lit "invalid client secrets")),
     logged world_secret
       [CallFromClientSecretsFile (path_str secret_path) upload_scope]).
Proof.
  apply (run_flow_constructor_failure delegate_bad_file secret_path
           upload_scope false (Some out_path) (Some env_path) false
           world_secret).
  - eexists. vm_compute. reflexivity.
  - vm_compute. reflexivity.
Defined.





(** ** The sinks of a successful run *)







(** ** UTF-8 *)

Lemma lor_const_low (a k b : Z) :
  0 <= k -> 0 <= b < 2 ^ k -> Z.lor (a * 2 ^ k) b = a * 2 ^ k + b.
Proof. apply lor_high_low. Qed.

Lemma land_low (x k : Z) : 0 <= k -> Z.land x (Z.ones k) = x mod 2 ^ k.
Proof. intros H. apply Z.land_ones, H. Qed.

Ltac bits_to_arith :=
  repeat first
    [ rewrite Z.shiftr_div_pow2 by lia
    | rewrite Z.shiftl_mul_pow2 by lia
    | progress change 63 with (Z.ones 6)
    | progress change 31 with (Z.ones 5)
    | progress change 15 with (Z.ones 4)
    | progress change 7 with (Z.ones 3)
    | rewrite land_low by lia ];
  change (2 ^ 3) with 8; change (2 ^ 4) with 16; change (2 ^ 5) with 32;
  change (2 ^ 6) with 64; change (2 ^ 12) with 4096;
  change (2 ^ 18) with 262144.

Lemma lor_192 x : 0 <= x < 64 -> Z.lor 192 x = 192 + x.
Proof. intros H. apply (lor_const_low 3 6 x); [lia | exact H]. Qed.

Lemma lor_128 x : 0 <= x < 64 -> Z.lor 128 x = 128 + x.
Proof. intros H. apply (lor_const_low 2 6 x); [lia | exact H]. Qed.

Lemma lor_224 x : 0 <= x < 16 -> Z.lor 224 x = 224 + x.
Proof. intros H. apply (lor_const_low 14 4 x); [lia | exact H]. Qed.

Lemma lor_240 x : 0 <= x < 8 -> Z.lor 240 x = 240 + x.
Proof. intros H. apply (lor_const_low 30 3 x); [lia | exact H]. Qed.

Lemma lor_64 x y : 0 <= y < 64 -> Z.lor (x * 64) y = x * 64 + y.
Proof. intros H. apply (lor_const_low x 6 y); [lia | exact H]. Qed.

Lemma lor_4096 x y : 0 <= y < 4096 -> Z.lor (x * 4096) y = x * 4096 + y.
Proof. intros H. apply (lor_const_low x 12 y); [lia | exact H]. Qed.

Lemma lor_262144 x y : 0 <= y < 262144 -> Z.lor (x * 262144) y = x * 262144 + y.
Proof. intros H. apply (lor_const_low x 18 y); [lia | exact H]. Qed.

Lemma utf8_encode_char_none c :
  utf8_encode_char c = None <-> is_scalar c = false.
Proof.
  unfold utf8_encode_char, is_scalar, is_code_point.
  destruct (Z.ltb_spec c 0) as [H0|H0].
  { split; [|reflexivity]. intros _.
    rewrite (proj2 (Z.leb_gt 0 c)) by lia. reflexivity. }
  rewrite (proj2 (Z.leb_le 0 c)) by lia.
  destruct (Z.ltb_spec c 128) as [H1|H1].
  { split; [discriminate|]. unfold is_surrogate.
    rewrite (proj2 (Z.leb_le c 1114111)) by lia.
    rewrite (proj2 (Z.leb_gt 55296 c)) by lia. discriminate. }
  destruct (Z.ltb_spec c 2048) as [H2|H2].
  { split; [discriminate|]. unfold is_surrogate.
    rewrite (proj2 (Z.leb_le c 1114111)) by lia.
    rewrite (proj2 (Z.leb_gt 55296 c)) by lia. discriminate. }
  destruct (is_surrogate c) eqn:Hs.
  { split; [|reflexivity]. intros _. apply andb_false_r. }
  destruct (Z.ltb_spec c 65536) as [H3|H3].
  { split; [discriminate|].
    rewrite (proj2 (Z.leb_le c 1114111)) by lia. discriminate. }
  destruct (Z.ltb_spec c 1114112) as [H4|H4].
  { split; [discriminate|].
    rewrite (proj2 (Z.leb_le c 1114111)) by lia. discriminate. }
  split; [|reflexivity]. intros _.
  rewrite (proj2 (Z.leb_gt c 1114111)) by lia. reflexivity.
Qed.

Lemma utf8_encode_none s :
  utf8_encode s = None <-> forallb is_scalar s = false.
Proof.
  induction s as [|c s IH]; simpl.
  - split; discriminate.
  - destruct (utf8_encode_char c) as [bs|] eqn:Ec.
    + assert (Hc : is_scalar c = true).
      { destruct (is_scalar c) eqn:E; [reflexivity|].
        apply utf8_encode_char_none in E. congruence. }
      rewrite Hc. simpl. rewrite <- IH.
      destruct (utf8_encode s); split; congruence.
    + apply utf8_encode_char_none in Ec. rewrite Ec. split; reflexivity.
Qed.

(** Decoding the bytes of one character gives the character back and goes
    on with the rest. *)
Lemma utf8_decode_char c bs rest fuel :
  utf8_encode_char c = Some bs ->
  utf8_decode_fuel (S fuel) (bs ++ rest)
  = option_map (cons c) (utf8_decode_fuel fuel rest).
Proof.
  unfold utf8_encode_char.
  destruct (Z.ltb_spec c 0) as [H0|H0]; [discriminate|].
  destruct (Z.ltb_spec c 128) as [H1|H1].
  { intros H. injection H as <-. cbn [app utf8_decode_fuel].
    rewrite (proj2 (Z.leb_le 0 c)) by lia.
    rewrite (proj2 (Z.ltb_lt c 128)) by lia. reflexivity. }
  destruct (Z.ltb_spec c 2048) as [H2|H2].
  { intros H. injection H as <-. cbn [app utf8_decode_fuel].
    bits_to_arith.
    assert (Hq : 2 <= c / 64 < 32) by (Z.div_mod_to_equations; lia).
    assert (Hr : 0 <= c mod 64 < 64) by (apply Z.mod_pos_bound; lia).
    rewrite lor_192, lor_128 by lia.
    rewrite (proj2 (Z.ltb_ge (192 + c / 64) 128)) by lia.
    rewrite andb_false_r.
    rewrite (proj2 (Z.leb_le 194 (192 + c / 64))) by lia.
    rewrite (proj2 (Z.ltb_lt (192 + c / 64) 224)) by lia. cbn [andb].
    unfold is_cont.
    rewrite (proj2 (Z.leb_le 128 (128 + c mod 64))) by lia.
    rewrite (proj2 (Z.ltb_lt (128 + c mod 64) 192)) by lia. cbn [andb].
    replace ((192 + c / 64) mod 32) with (c / 64)
      by (Z.div_mod_to_equations; lia).
    replace ((128 + c mod 64) mod 64) with (c mod 64)
      by (Z.div_mod_to_equations; lia).
    rewrite lor_64 by lia.
    replace (c / 64 * 64 + c mod 64) with c by (Z.div_mod_to_equations; lia).
    reflexivity. }
  destruct (is_surrogate c) eqn:Hs; [discriminate|].
  destruct (Z.ltb_spec c 65536) as [H3|H3].
  { intros H. injection H as <-. cbn [app utf8_decode_fuel].
    bits_to_arith.
    assert (Hq : 0 <= c / 4096 < 16) by (Z.div_mod_to_equations; lia).
    assert (Hm : 0 <= (c / 64) mod 64 < 64) by (apply Z.mod_pos_bound; lia).
    assert (Hr : 0 <= c mod 64 < 64) by (apply Z.mod_pos_bound; lia).
    rewrite lor_224, !lor_128 by lia.
    rewrite (proj2 (Z.ltb_ge (224 + c / 4096) 128)) by lia.
    rewrite andb_false_r.
    rewrite (proj2 (Z.ltb_ge (224 + c / 4096) 224)) by lia.
    rewrite andb_false_r.
    rewrite (proj2 (Z.leb_le 224 (224 + c / 4096))) by lia.
    rewrite (proj2 (Z.ltb_lt (224 + c / 4096) 240)) by lia. cbn [andb].
    unfold is_cont.
    rewrite (proj2 (Z.leb_le 128 (128 + (c / 64) mod 64))) by lia.
    rewrite (proj2 (Z.ltb_lt (128 + (c / 64) mod 64) 192)) by lia.
    rewrite (proj2 (Z.leb_le 128 (128 + c mod 64))) by lia.
    rewrite (proj2 (Z.ltb_lt (128 + c mod 64) 192)) by lia. cbn [andb].
    replace ((224 + c / 4096) mod 16) with (c / 4096)
      by (Z.div_mod_to_equations; lia).
    replace ((128 + (c / 64) mod 64) mod 64) with ((c / 64) mod 64)
      by (Z.div_mod_to_equations; lia).
    replace ((128 + c mod 64) mod 64) with (c mod 64)
      by (Z.div_mod_to_equations; lia).
    rewrite lor_64 by lia. rewrite lor_4096 by lia.
    replace (c / 4096 * 4096 + ((c / 64) mod 64 * 64 + c mod 64)) with c
      by (Z.div_mod_to_equations; lia).
    rewrite (proj2 (Z.leb_le 2048 c)) by lia. rewrite Hs. reflexivity. }
  destruct (Z.ltb_spec c 1114112) as [H4|H4]; [|discriminate].
  intros H. injection H as <-. cbn [app utf8_decode_fuel].
  bits_to_arith.
  assert (Hq : 0 <= c / 262144 < 5) by (Z.div_mod_to_equations; lia).
  assert (Hm1 : 0 <= (c / 4096) mod 64 < 64) by (apply Z.mod_pos_bound; lia).
  assert (Hm2 : 0 <= (c / 64) mod 64 < 64) by (apply Z.mod_pos_bound; lia).
  assert (Hr : 0 <= c mod 64 < 64) by (apply Z.mod_pos_bound; lia).
  rewrite lor_240, !lor_128 by lia.
  rewrite (proj2 (Z.ltb_ge (240 + c / 262144) 128)) by lia.
  rewrite andb_false_r.
  rewrite (proj2 (Z.ltb_ge (240 + c / 262144) 224)) by lia.
  rewrite andb_false_r.
  rewrite (proj2 (Z.ltb_ge (240 + c / 262144) 240)) by lia.
  rewrite andb_false_r.
  rewrite (proj2 (Z.leb_le 240 (240 + c / 262144))) by lia.
  rewrite (proj2 (Z.ltb_lt (240 + c / 262144) 245)) by lia. cbn [andb].
  unfold is_cont.
  rewrite (proj2 (Z.leb_le 128 (128 + (c / 4096) mod 64))) by lia.
  rewrite (proj2 (Z.ltb_lt (128 + (c / 4096) mod 64) 192)) by lia.
  rewrite (proj2 (Z.leb_le 128 (128 + (c / 64) mod 64))) by lia.
  rewrite (proj2 (Z.ltb_lt (128 + (c / 64) mod 64) 192)) by lia.
  rewrite (proj2 (Z.leb_le 128 (128 + c mod 64))) by lia.
  rewrite (proj2 (Z.ltb_lt (128 + c mod 64) 192)) by lia. cbn [andb].
  replace ((240 + c / 262144) mod 8) with (c / 262144)
    by (Z.div_mod_to_equations; lia).
  replace ((128 + (c / 4096) mod 64) mod 64) with ((c / 4096) mod 64)
    by (Z.div_mod_to_equations; lia).
  replace ((128 + (c / 64) mod 64) mod 64) with ((c / 64) mod 64)
    by (Z.div_mod_to_equations; lia).
  replace ((128 + c mod 64) mod 64) with (c mod 64)
    by (Z.div_mod_to_equations; lia).
  rewrite lor_64 by lia. rewrite lor_4096 by lia. rewrite lor_262144 by lia.
  replace (c / 262144 * 262144
           + ((c / 4096) mod 64 * 4096 + ((c / 64) mod 64 * 64 + c mod 64)))
    with c by (Z.div_mod_to_equations; lia).
  rewrite (proj2 (Z.leb_le 65536 c)) by lia.
  rewrite (proj2 (Z.ltb_lt c 1114112)) by lia. reflexivity.
Qed.

Lemma utf8_encode_char_nonempty c bs :
  utf8_encode_char c = Some bs -> (1 <= length bs)%nat.
Proof.
  unfold utf8_encode_char.
  repeat match goal with
         | |- context [if ?b then _ else _] => destruct b
         end; intros H; inversion H; simpl; lia.
Qed.

Lemma utf8_encode_length s bs :
  utf8_encode s = Some bs -> (length s <= length bs)%nat.
Proof.
  revert bs. induction s as [|c s IH]; intros bs H.
  - simpl; lia.
  - simpl in H. destruct (utf8_encode_char c) as [b1|] eqn:Ec; [|discriminate].
    destruct (utf8_encode s) as [b2|]; [|discriminate].
    injection H as <-. rewrite length_app. simpl.
    pose proof (utf8_encode_char_nonempty c b1 Ec).
    specialize (IH b2 eq_refl). lia.
Qed.

Lemma utf8_decode_fuel_encode s : forall bs fuel,
  utf8_encode s = Some bs -> (length s <= fuel)%nat ->
  utf8_decode_fuel fuel bs = Some s.
Proof.
  induction s as [|c s IH]; intros bs fuel H Hf.
  - injection H as <-. destruct fuel; reflexivity.
  - simpl in H. destruct (utf8_encode_char c) as [b1|] eqn:Ec; [|discriminate].
    destruct (utf8_encode s) as [b2|] eqn:Es; [|discriminate].
    injection H as <-. destruct fuel as [|fuel]; [simpl in Hf; lia|].
    rewrite (utf8_decode_char c b1 b2 fuel Ec).
    rewrite (IH b2 fuel eq_refl) by (simpl in Hf; lia). reflexivity.
Qed.

Lemma utf8_decode_encode s bs :
  utf8_encode s = Some bs -> utf8_decode bs = Some s.
Proof.
  intros H. apply utf8_decode_fuel_encode; [exact H|].
  apply utf8_encode_length, H.
Qed.

(** ** The env file, read back and failing *)

(** X8. The env file of a successful run, decoded as UTF-8, is exactly the
    text of the three assignment lines: no byte is lost or added by the
    encoding, whatever code points the values hold. *)
Theorem run_flow_env_file_decodes (d : Delegate) (secret : list (list Z))
    (scopes : list pystr) (use_console : bool)
    (output : option (list (list Z))) (q : list (list Z)) (quiet : bool)
    (w w' : World) :
  run_flow d secret scopes use_console output (Some q) quiet w = (Ok tt, w') ->
  exists cid csecret creds bs,
    acquired d (fs w) secret scopes use_console cid csecret creds
    /\ fs w' !! q = Some (File bs)
    /\ utf8_decode bs = Some (env_text cid csecret (refresh_token creds)).
Proof.
  intros H.
  apply run_flow_ok_spec in H as (cid & cs & creds & Hacq & _ & _ & Henv & _).
  destruct (Henv q eq_refl) as (bs & Henc & Hq).
  exists cid, cs, creds, bs. split; [exact Hacq|]. split; [exact Hq|].
  apply utf8_decode_encode, Henc.
Qed.

Lemma run_flow_env_file_decodes_witness :
  run_flow (mock_delegate creds_r1) secret_path upload_scope true
    None (Some env_path) true world_secret
  = (Ok tt,
     (run_flow (mock_delegate creds_r1) secret_path upload_scope true
        None (Some env_path) true world_secret).2)
  /\ exists cid csecret creds bs,
       acquired (mock_delegate creds_r1) (fs world_secret) secret_path
         upload_scope true cid csecret creds
       /\ fs (run_flow (mock_delegate creds_r1) secret_path upload_scope true
                None (Some env_path) true world_secret).2 !! env_path
          = Some (File bs)
       /\ utf8_decode bs = Some (env_text cid csecret (refresh_token creds)).
Proof.
  split; [vm_compute; reflexivity|].
  apply (run_flow_env_file_decodes (mock_delegate creds_r1) secret_path
           upload_scope true None env_path true world_secret).
  vm_compute. reflexivity.
Defined.

Lemma env_text_scalar cid cs rt :
  forallb is_scalar (env_text cid cs rt)
  = forallb is_scalar (py_str cid) && forallb is_scalar (py_str cs)
    && forallb is_scalar (py_str rt).
Proof.
  unfold env_text, env_line. rewrite !join_cons. cbn [join].
  rewrite !forallb_app.
  change (forallb is_scalar (lit "YOUTUBE_CLIENT_ID=")) with true.
  change (forallb is_scalar (lit "YOUTUBE_CLIENT_SECRET=")) with true.
  change (forallb is_scalar (lit "YOUTUBE_REFRESH_TOKEN=")) with true.
  change (forallb is_scalar [dquote]) with true.
  change (forallb is_scalar [nl]) with true.
  cbn [andb]. rewrite !andb_true_r. rewrite !andb_assoc. reflexivity.
Qed.



(** ** Sinks that cannot be written *)

Lemma mkdir_parents_on_file (pp : list (list Z)) c w :
  pp <> [] -> node_at (fs w) (parent pp) = Some Dir ->
  fs w !! pp = Some (File c) ->
  mkdir_parents pp w = (Raise (OSError EEXIST pp), w).
Proof.
  intros Hpp Hpar Hfile. unfold mkdir_parents.
  destruct (rev pp) as [|x rp] eqn:Er.
  { apply (f_equal (@rev _)) in Er. rewrite rev_involutive in Er.
    simpl in Er. congruence. }
  cbn [mkdir_parents_rev].
  assert (Epp : rev (x :: rp) = pp)
    by (rewrite <- Er; apply rev_involutive).
  rewrite Epp.
  assert (Hmk : os_mkdir pp w = (Raise (OSError EEXIST pp), w)).
  { unfold os_mkdir. destruct pp as [|y pp']; [congruence|].
    rewrite Hpar, Hfile. reflexivity. }
  rewrite Hmk. unfold is_dir. rewrite node_at_nonempty by exact Hpp.
  rewrite Hfile. reflexivity.
Qed.

(** X10. When the parent of a sink path is an existing regular file (in an
    existing directory), the sink write raises [FileExistsError] for that
    parent and changes nothing: the file in the way is not replaced by a
    directory. *)
Theorem sink_parent_is_a_file (s : Sink) (p : list (list Z)) (pl : pydict)
    (w : World) (c : list Z) :
  parent p <> [] ->
  node_at (fs w) (parent (parent p)) = Some Dir ->
  fs w !! parent p = Some (File c) ->
  write_sink s p pl w = (Raise (OSError EEXIST (parent p)), w).
Proof.
  intros Hpp Hpar Hfile.
  pose proof (mkdir_parents_on_file (parent p) c w Hpp Hpar Hfile) as Hmk.
  destruct s; simpl write_sink; unfold write_output, write_env;
    apply bind_raise, Hmk.
Qed.

Lemma sink_parent_is_a_file_witness :
  fs world_out_file !! parent out_path = Some (File (lit "x"))
  /\ write_sink OutputSink out_path
       (payload_of (PyStr (lit "abc")) (PyStr (lit "xyz")) creds_r1)
       world_out_file
     = (Raise (OSError EEXIST (parent out_path)), world_out_file).
Proof.
  split; [vm_compute; reflexivity|].
  apply (sink_parent_is_a_file OutputSink out_path
           (payload_of (PyStr (lit "abc")) (PyStr (lit "xyz")) creds_r1)
           world_out_file (lit "x")).
  - discriminate.
  - vm_compute. reflexivity.
  - vm_compute. reflexivity.
Defined.

(** X11. When a sink path is an existing directory, the sink write raises
    [IsADirectoryError] for that path and changes nothing. *)
Theorem sink_path_is_a_directory (s : Sink) (p : list (list Z))
    (cid csecret : PyVal) (creds : Credentials) (w : World) :
  is_dir (fs w) p = true ->
  is_dir (fs w) (parent p) = true ->
  is_Some (node_at (fs w) (parent (parent p))) ->
  write_sink s p (payload_of cid csecret creds) w
  = (Raise (OSError EISDIR p), w).
Proof.
  intros Hd Hdp Hpp.
  pose proof (mkdir_parents_noop (parent p) w Hdp Hpp) as Hmk.
  assert (Hop : open_w p w = (Raise (OSError EISDIR p), w)).
  { unfold open_w. destruct p as [|x p']; [reflexivity|].
    unfold is_dir in Hd, Hdp.
    destruct (node_at (fs w) (parent (x :: p'))) as [[|c]|]; try discriminate.
    rewrite node_at_nonempty in Hd by discriminate.
    destruct (fs w !! (x :: p')) as [[|c]|]; try discriminate. reflexivity. }
  destruct s; simpl write_sink.
  - unfold write_output. rewrite (bind_ok _ _ _ _ _ Hmk).
    apply bind_raise, Hop.
  - unfold write_env. rewrite (bind_ok _ _ _ _ _ Hmk).
    destruct (env_lines_payload_of cid csecret creds w) as (ls & Hls & _).
    rewrite (bind_ok _ _ _ _ _ Hls). unfold write_text.
    apply bind_raise, Hop.
Qed.

Lemma sink_path_is_a_directory_witness :
  is_dir (fs world_conf_only) [lit "conf"] = true
  /\ write_sink EnvSink [lit "conf"]
       (payload_of (PyStr (lit "abc")) (PyStr (lit "xyz")) creds_r1)
       world_conf_only
     = (Raise (OSError EISDIR [lit "conf"]), world_conf_only).
Proof.
  split; [vm_compute; reflexivity|].
  apply (sink_path_is_a_directory EnvSink [lit "conf"] (PyStr (lit "abc"))
           (PyStr (lit "xyz")) creds_r1 world_conf_only).
  - vm_compute. reflexivity.
  - vm_compute. reflexivity.
  - eexists. vm_compute. reflexivity.
Defined.

(** * The command line *)

Ltac eval_lits :=
  repeat match goal with
         | |- context [lit ?s] =>
             let v := eval vm_compute in (lit s) in change (lit s) with v
         end.

Lemma str_eqb_eq a b : str_eqb a b = true <-> a = b.
Proof. unfold str_eqb. apply bool_decide_eq_true. Qed.

Lemma str_eqb_refl a : str_eqb a a = true.
Proof. apply str_eqb_eq. reflexivity. Qed.

Lemma str_eqb_neq a b : str_eqb a b = false <-> a <> b.
Proof. unfold str_eqb. apply bool_decide_eq_false. Qed.

Lemma split_at_cons_ne c x s :
  x <> c -> split_at c (x :: s) = (x :: (split_at c s).1, (split_at c s).2).
Proof.
  intros H. simpl. apply Z.eqb_neq in H. rewrite H.
  destruct (split_at c s). reflexivity.
Qed.

(** The option strings of [parser] as a list of code points, with their
    actions left folded. *)
Ltac spell_options :=
  let v := eval cbv [option_string_actions parser flat_map map app
                       option_strings add_argument add_argument_store_true
                       help_action] in (option_string_actions parser) in
  change (option_string_actions parser) with v;
  eval_lits.

Ltac split_ifs :=
  repeat match goal with
         | |- context [if ?b then _ else _] => destruct b
         end.

Ltac by_initial c k :=
  let E := fresh "E" in
  destruct (c =? k) eqn:E;
  [apply Z.eqb_eq in E; subst c; cbn; split_ifs; cbn; lia|].

(** An abbreviation that goes beyond the two dashes has at most one
    completion: the long options differ in their first letter. *)
Lemma get_option_tuples_long c2 r :
  c2 <> 61 ->
  (length (get_option_tuples (option_string_actions parser)
             (45 :: 45 :: c2 :: r)%Z) <= 1)%nat.
Proof.
  intros H2. unfold get_option_tuples. rewrite Z.eqb_refl.
  assert (Hpre : exists x e,
             (if contains 61 (45 :: 45 :: c2 :: r)
              then let '(a, b) := split_at 61 (45 :: 45 :: c2 :: r) in
                   (a, Some b)
              else (45 :: 45 :: c2 :: r, None))
             = (45 :: 45 :: c2 :: x, e)).
  { destruct (contains 61 (45 :: 45 :: c2 :: r)); [|eauto].
    rewrite !split_at_cons_ne by (discriminate || exact H2).
    destruct (split_at 61 r). eauto. }
  destruct Hpre as (x & e & ->).
  spell_options.
  cbn [flat_map starts_with fst snd app Z.eqb Pos.eqb andb].
  by_initial c2 104. by_initial c2 99. by_initial c2 115. by_initial c2 110.
  by_initial c2 111. by_initial c2 101. by_initial c2 113.
  cbn. lia.
Qed.

Lemma get_option_tuples_short c1 r :
  c1 <> 45 ->
  (length (get_option_tuples (option_string_actions parser)
             (45 :: c1 :: r)%Z) <= 1)%nat.
Proof.
  intros H1. apply Z.eqb_neq in H1. unfold get_option_tuples, dash.
  rewrite H1.
  spell_options.
  cbn [flat_map starts_with fst snd app Z.eqb Pos.eqb andb firstn].
  rewrite H1.
  repeat match goal with
         | |- context [str_eqb (45 :: 45 :: ?a) ?b] =>
             rewrite (proj2 (str_eqb_neq (45 :: 45 :: a) b))
               by (intros ?; discriminate)
         end.
  cbn. split_ifs; cbn; lia.
Qed.

Lemma parse_optional_ambiguous (nd : Z -> bool) (arg : list Z) :
  parse_optional nd (option_string_actions parser) arg = TokAmbiguous
  <-> arg = lit "--" \/ starts_with arg (lit "--=") = true.
Proof.
  eval_lits.
  destruct arg as [|c0 arg].
  { split; [discriminate|]. intros [H|H]; discriminate. }
  destruct (c0 =? 45) eqn:E0.
  2:{ unfold parse_optional, dash. rewrite E0. cbn [negb].
      split; [discriminate|]. apply Z.eqb_neq in E0.
      intros [H|H]; [injection H; congruence|].
      cbn [starts_with] in H. apply andb_prop in H as [H _].
      apply Z.eqb_eq in H. congruence. }
  apply Z.eqb_eq in E0 as ->.
  destruct arg as [|c1 arg].
  { split; [discriminate|]. intros [H|H]; discriminate. }
  assert (Hfew : forall a,
             (length (get_option_tuples (option_string_actions parser) a) <= 1)%nat ->
             parse_optional nd (option_string_actions parser) a
             <> TokAmbiguous).
  { intros a Hl. unfold parse_optional, dash.
    destruct a as [|a0 a]; [discriminate|].
    destruct (negb (a0 =? 45)); [discriminate|].
    destruct (lookup_option _ (a0 :: a)); [discriminate|].
    destruct (bool_decide _); [discriminate|].
    destruct (if contains 61 (a0 :: a) then _ else None) as [t|] eqn:Et.
    - destruct (contains 61 (a0 :: a)); [|discriminate].
      destruct (split_at 61 (a0 :: a)) as [o e].
      destruct (lookup_option _ o); [|discriminate].
      injection Et as <-. discriminate.
    - destruct (get_option_tuples _ _) as [|[[? ?] ?] [|? ?]];
        [| discriminate | simpl in Hl; lia].
      destruct (looks_like_negative_number nd _); [discriminate|].
      destruct (contains 32 _); discriminate. }
  destruct (c1 =? 45) eqn:E1.
  - apply Z.eqb_eq in E1 as ->.
    destruct arg as [|c2 arg].
    { split; [left; reflexivity|]. intros _. vm_compute. reflexivity. }
    destruct (c2 =? 61) eqn:E2.
    + apply Z.eqb_eq in E2 as ->.
      split; [intros _; right; cbn; reflexivity|]. intros _.
      unfold parse_optional, dash. spell_options.
      cbn [lookup_option Z.eqb Pos.eqb negb].
      repeat match goal with
             | |- context [str_eqb (45 :: ?a) ?b] =>
                 rewrite (proj2 (str_eqb_neq (45 :: a) b))
                   by (intros ?; discriminate)
             end.
      rewrite bool_decide_eq_false_2 by (cbn [length]; lia).
      unfold get_option_tuples.
      change (contains 61 (45 :: 45 :: 61 :: arg)) with true.
      change (split_at 61 (45 :: 45 :: 61 :: arg)) with ([45; 45], arg).
      cbn. reflexivity.
    + apply Z.eqb_neq in E2.
      split; [intros H; exfalso; revert H;
              apply Hfew, get_option_tuples_long, E2|].
      intros [H|H]; [discriminate|]. cbn [starts_with] in H.
      apply andb_prop in H as [_ H]. apply andb_prop in H as [_ H].
      apply andb_prop in H as [H _]. apply Z.eqb_eq in H. congruence.
  - apply Z.eqb_neq in E1.
    split; [intros H; exfalso; revert H;
            apply Hfew, get_option_tuples_short, E1|].
    intros [H|H]; [injection H; congruence|]. cbn [starts_with] in H.
    apply andb_prop in H as [_ H]. apply andb_prop in H as [H _].
    apply Z.eqb_eq in H. congruence.
Qed.

(** ** Abbreviations *)

Ltac prefix_cases H :=
  match type of H with
  | starts_with ?o ?p = true =>
      let v := eval vm_compute in o in
      change o with v in H;
      destruct p as [|? p];
      [ try (simpl in *; lia); vm_compute; reflexivity
      | cbn [starts_with] in H; try discriminate H;
        let E := fresh "E" in
        apply andb_prop in H as [E H]; apply Z.eqb_eq in E; subst;
        prefix_cases H ]
  end.

(** X15. Every long option of [parse_args] can be abbreviated down to its
    two dashes and first letter: a prefix of at least three characters of a
    long option string is read as that option, without explicit
    argument. *)
Theorem long_option_abbreviation (nd : Z -> bool) (a : Action) (o p : list Z) :
  In a parser -> In o (option_strings a) -> is_long_option o = true ->
  starts_with o p = true -> (3 <= length p)%nat ->
  parse_optional nd (option_string_actions parser) p = TokOpt a o None.
Proof.
  intros Ha Ho Hl Hp Hn. unfold parser in Ha. simpl in Ha.
  repeat (destruct Ha as [<-|Ha]; [simpl in Ho|]); [..|destruct Ha].
  all: repeat (destruct Ho as [<-|Ho]; [|]); try destruct Ho;
    try discriminate Hl.
  all: prefix_cases Hp.
Qed.

Lemma long_option_abbreviation_witness :
  parse_optional ascii_digit (option_string_actions parser) (lit "--env")
  = TokOpt (add_argument [lit "--env-file"] NargsOne false VNone)
      (lit "--env-file") None.
Proof.
  apply (long_option_abbreviation ascii_digit
           (add_argument [lit "--env-file"] NargsOne false VNone)
           (lit "--env-file") (lit "--env")).
  - vm_compute. tauto.
  - left. reflexivity.
  - reflexivity.
  - reflexivity.
  - vm_compute. lia.
Defined.


Lemma first_ambiguous_args rest :
  first_ambiguous (map (fun r : list Z => (r, TokArg)) rest) = None.
Proof. induction rest as [|r rest IH]; [reflexivity|exact IH]. Qed.

Lemma first_ambiguous_classify nd argv :
  first_ambiguous (classify nd (option_string_actions parser) argv)
  = find (fun t => starts_with t (lit "--=")) (options_part argv).
Proof.
  induction argv as [|arg argv IH]; [reflexivity|].
  cbn [classify options_part].
  destruct (str_eqb arg (lit "--")) eqn:E.
  - cbn [first_ambiguous]. apply first_ambiguous_args.
  - cbn [find first_ambiguous].
    pose proof (parse_optional_ambiguous nd arg) as Ha.
    apply str_eqb_neq in E.
    destruct (starts_with arg (lit "--=")) eqn:Es.
    + rewrite (proj2 Ha) by (right; reflexivity). reflexivity.
    + destruct (parse_optional nd (option_string_actions parser) arg);
        try exact IH.
      destruct (proj1 Ha eq_refl) as [H|H]; congruence.
Qed.

Lemma match_following_error a following e :
  match_following a following = inl e -> is_argument_error e = true.
Proof.
  unfold match_following. destruct (nargs a).
  - destruct following as [|[raw []] rest]; intros H; inversion H; reflexivity.
  - destruct (leading_args following) as [[|x args] rest];
      intros H; inversion H; reflexivity.
  - discriminate.
Qed.

Lemma consume_explicit_error osa e : forall a o following acc err,
  consume_explicit osa a o e following acc = inl err ->
  is_argument_error err = true.
Proof.
  induction e as [|c e IH]; intros a o following acc err.
  - simpl. destruct (nargs a); intros H; inversion H; reflexivity.
  - cbn [consume_explicit]. destruct (nargs a); try discriminate.
    destruct (is_single_dash_option o); [|intros H; inversion H; reflexivity].
    destruct (lookup_option osa [dash; c]) as [a'|];
      [|intros H; inversion H; reflexivity].
    destruct e as [|c' e'].
    + destruct (match_following a' following) as [err'|[args rest]] eqn:Em;
        [|discriminate].
      intros H. inversion H; subst. eapply match_following_error, Em.
    + apply IH.
Qed.

Lemma consume_optional_error osa a o explicit following err :
  consume_optional osa a o explicit following = inl err ->
  is_argument_error err = true.
Proof.
  unfold consume_optional. destruct explicit as [e|].
  - apply consume_explicit_error.
  - destruct (match_following a following) as [err'|[args rest]] eqn:Em;
      [|discriminate].
    intros H. inversion H; subst. eapply match_following_error, Em.
Qed.

Lemma consume_error osa fuel : forall toks st err,
  consume fuel osa toks st = inl err -> is_argument_error err = true.
Proof.
  induction fuel as [|fuel IH]; intros toks st err; [discriminate|].
  cbn [consume]. destruct toks as [|[raw tok] rest]; [discriminate|].
  destruct tok; try apply IH.
  destruct (consume_optional osa a option_string explicit rest)
    as [err'|[tuples rest']] eqn:Ec.
  - intros H. inversion H; subst. eapply consume_optional_error, Ec.
  - destruct (take_actions st tuples); [apply IH|discriminate].
Qed.

(** X16. [parse_args] ends with the ambiguous-option error exactly when an
    argument before the first [--] starts with [--=], and the error names
    the first such argument: the long options all differ in their first
    letter, so the two dashes alone are the only ambiguous abbreviation. *)
Theorem parse_args_ambiguous (nd : Z -> bool) (argv : list (list Z))
    (a : list Z) :
  parse_args nd argv = UsageError (AmbiguousOption a)
  <-> find (fun t => starts_with t (lit "--=")) (options_part argv) = Some a.
Proof.
  unfold parse_args, parse_args_with. rewrite first_ambiguous_classify.
  destruct (find _ (options_part argv)) as [x|].
  - split; intros H; inversion H; reflexivity.
  - split; [|discriminate].
    destruct (consume _ _ _ _) as [err|[st|]] eqn:Ec.
    + apply consume_error in Ec. intros H. inversion H; subst. discriminate.
    + destruct (filter _ parser); [|discriminate].
      destruct (st_extras st); discriminate.
    + discriminate.
Qed.

Lemma parse_args_ambiguous_witness :
  parse_args ascii_digit
    [lit "--client-secret"; lit "c.json"; lit "--=x"; lit "--"; lit "--=y"]
  = UsageError (AmbiguousOption (lit "--=x")).
Proof.
  apply (proj2 (parse_args_ambiguous ascii_digit
                  [lit "--client-secret"; lit "c.json"; lit "--=x"; lit "--";
                   lit "--=y"]
                  (lit "--=x"))).
  vm_compute. reflexivity.
Defined.

(** ** Command lines in the documented form *)


Lemma plain_value_classified nd osa v :
  plain_value v = true ->
  str_eqb v (lit "--") = false /\ parse_optional nd osa v = TokArg.
Proof.
  intros H. destruct v as [|c v].
  - split; reflexivity.
  - simpl in H. split.
    + apply str_eqb_neq. intros E. injection E as -> _. discriminate.
    + unfold parse_optional. rewrite H. reflexivity.
Qed.

Lemma classify_plain nd osa vs rest :
  forallb plain_value vs = true ->
  classify nd osa (vs ++ rest)
  = map (fun v => (v, TokArg)) vs ++ classify nd osa rest.
Proof.
  induction vs as [|v vs IH]; intros H; [reflexivity|].
  simpl in H. apply andb_prop in H as [Hv H].
  destruct (plain_value_classified nd osa v Hv) as [H1 H2].
  cbn [app classify map]. rewrite H1, H2, (IH H). reflexivity.
Qed.

Lemma render_item_values i :
  render_item i = hd [] (render_item i) :: item_values i.
Proof. destruct i; reflexivity. Qed.

Lemma item_option_classified nd i :
  str_eqb (hd [] (render_item i)) (lit "--") = false
  /\ parse_optional nd (option_string_actions parser) (hd [] (render_item i))
     = TokOpt (item_action i) (hd [] (render_item i)) None.
Proof. destruct i; split; vm_compute; reflexivity. Qed.

Lemma classify_item nd i rest :
  plain_item i = true ->
  classify nd (option_string_actions parser) (render_item i ++ rest)
  = item_tokens i ++ classify nd (option_string_actions parser) rest.
Proof.
  intros H. rewrite render_item_values. rewrite <- app_comm_cons.
  cbn [classify]. destruct (item_option_classified nd i) as [-> ->].
  rewrite (classify_plain _ _ _ _ H). reflexivity.
Qed.

Lemma classify_items nd items rest :
  forallb plain_item items = true ->
  classify nd (option_string_actions parser) (command_line items ++ rest)
  = flat_map item_tokens items
    ++ classify nd (option_string_actions parser) rest.
Proof.
  induction items as [|i items IH]; intros H; [reflexivity|].
  simpl in H. apply andb_prop in H as [Hi H].
  unfold command_line. cbn [flat_map]. rewrite <- !app_assoc.
  rewrite (classify_item _ _ _ Hi). f_equal. apply IH, H.
Qed.

Lemma leading_args_values vs toks :
  match toks with (_, TokArg) :: _ => False | _ => True end ->
  leading_args (map (fun v : list Z => (v, TokArg)) vs ++ toks) = (vs, toks).
Proof.
  intros Ht. induction vs as [|v vs IH].
  - destruct toks as [|[raw []] toks]; try reflexivity. destruct Ht.
  - cbn [map app leading_args]. rewrite IH. reflexivity.
Qed.

Lemma remove_first_plain vs :
  forallb plain_value vs = true -> remove_first (lit "--") vs = vs.
Proof.
  induction vs as [|v vs IH]; intros H; [reflexivity|].
  simpl in H. apply andb_prop in H as [Hv H]. cbn [remove_first].
  destruct (plain_value_classified (fun _ => false) [] v Hv) as [-> _].
  rewrite (IH H). reflexivity.
Qed.

Lemma item_tokens_head items toks :
  match toks with (_, TokArg) :: _ => False | _ => True end ->
  match flat_map item_tokens items ++ toks with
  | (_, TokArg) :: _ => False
  | _ => True
  end.
Proof. intros H. destruct items as [|i items]; [exact H|exact I]. Qed.

Lemma consume_item fuel i toks st :
  plain_item i = true ->
  match toks with (_, TokArg) :: _ => False | _ => True end ->
  consume (S fuel) (option_string_actions parser) (item_tokens i ++ toks) st
  = consume fuel (option_string_actions parser) toks (item_step st i).
Proof.
  intros Hi Ht. unfold item_tokens. rewrite <- app_comm_cons.
  cbn [consume]. unfold consume_optional, match_following.
  unfold plain_item in Hi.
  destruct i; cbn [item_action item_values nargs add_argument
                     add_argument_store_true map app] in *.
  - unfold take_actions, take_action, get_values, add_argument;
      cbn [kind dest nargs].
    cbn [remove_first]. simpl in Hi. rewrite andb_true_r in Hi.
    destruct (plain_value_classified (fun _ => false) [] v Hi) as [-> _].
    reflexivity.
  - change ((v, TokArg) :: map (fun v0 : list Z => (v0, TokArg)) vs ++ toks)
      with (map (fun v0 : list Z => (v0, TokArg)) (v :: vs) ++ toks).
    rewrite (leading_args_values _ _ Ht).
    unfold take_actions, take_action, get_values, add_argument;
      cbn [kind dest nargs].
    rewrite (remove_first_plain _ Hi). reflexivity.
  - reflexivity.
  - unfold take_actions, take_action, get_values, add_argument;
      cbn [kind dest nargs].
    cbn [remove_first]. simpl in Hi. rewrite andb_true_r in Hi.
    destruct (plain_value_classified (fun _ => false) [] v Hi) as [-> _].
    reflexivity.
  - unfold take_actions, take_action, get_values, add_argument;
      cbn [kind dest nargs].
    cbn [remove_first]. simpl in Hi. rewrite andb_true_r in Hi.
    destruct (plain_value_classified (fun _ => false) [] v Hi) as [-> _].
    reflexivity.
  - reflexivity.
Qed.

Lemma consume_items items toks : forall fuel st,
  forallb plain_item items = true ->
  match toks with (_, TokArg) :: _ => False | _ => True end ->
  consume (length items + fuel) (option_string_actions parser)
    (flat_map item_tokens items ++ toks) st
  = consume fuel (option_string_actions parser) toks
      (fold_left item_step items st).
Proof.
  induction items as [|i items IH]; intros fuel st H Ht; [reflexivity|].
  simpl in H. apply andb_prop in H as [Hi H].
  cbn [flat_map length Nat.add fold_left]. rewrite <- app_assoc.
  rewrite (consume_item _ _ _ _ Hi) by (apply item_tokens_head, Ht).
  apply IH; assumption.
Qed.

Lemma first_ambiguous_items items toks :
  first_ambiguous (flat_map item_tokens items ++ toks) = first_ambiguous toks.
Proof.
  induction items as [|i items IH]; [reflexivity|].
  cbn [flat_map]. rewrite <- app_assoc. unfold item_tokens.
  rewrite <- app_comm_cons. cbn [first_ambiguous].
  induction (item_values i) as [|v vs IHv]; [exact IH|exact IHv].
Qed.

Lemma length_item_tokens items toks :
  exists k,
    length (flat_map item_tokens items ++ toks)
    = (length items + (k + length toks))%nat.
Proof.
  induction items as [|i items [k IH]]; [exists 0%nat; reflexivity|].
  exists (length (item_values i) + k)%nat.
  cbn [flat_map]. rewrite <- app_assoc, length_app. unfold item_tokens at 1.
  cbn [length]. rewrite length_map, IH. lia.
Qed.

Lemma fold_item_step items : forall st,
  fold_left item_step items st
  = mk_state (fold_left apply_item items (st_namespace st))
      (st_seen st ++ map (fun i => option_strings (item_action i)) items)
      (st_extras st).
Proof.
  induction items as [|i items IH]; intros st.
  - simpl. rewrite app_nil_r. destruct st; reflexivity.
  - cbn [fold_left map]. rewrite IH. unfold item_step.
    cbn [st_namespace st_seen st_extras]. rewrite <- app_assoc. reflexivity.
Qed.

Lemma client_secret_seen items :
  [lit "--client-secret"] ∈ map (fun i => option_strings (item_action i)) items
  <-> existsb is_client_secret_item items = true.
Proof.
  induction items as [|i items IH].
  - simpl. split; [intros H; inversion H|discriminate].
  - cbn [map existsb]. rewrite elem_of_cons, IH, orb_true_iff.
    apply or_iff_compat_r.
    destruct i; simpl; split; try discriminate; try reflexivity;
      intros H; vm_compute in H; discriminate.
Qed.

Lemma missing_required (seen : list (list (list Z))) :
  filter
    (fun a : Action =>
       required a && negb (bool_decide (option_strings a ∈ seen)) = true)
    parser
  = if bool_decide ([lit "--client-secret"] ∈ seen) then []
    else [add_argument [lit "--client-secret"] NargsOne true VNone].
Proof.
  unfold parser.
  rewrite filter_cons_False by (simpl; discriminate).
  destruct (bool_decide ([lit "--client-secret"] ∈ seen)) eqn:E.
  - rewrite filter_cons_False
      by (cbn [required add_argument option_strings]; rewrite E; discriminate).
    repeat rewrite filter_cons_False by (simpl; discriminate).
    reflexivity.
  - rewrite filter_cons_True
      by (cbn [required add_argument option_strings]; rewrite E; reflexivity).
    repeat rewrite filter_cons_False by (simpl; discriminate).
    reflexivity.
Qed.

Lemma parse_items nd items :
  forallb plain_item items = true ->
  parse_args nd (command_line items)
  = match
      filter
        (fun a : Action =>
           required a
           && negb
                (bool_decide
                   (option_strings a
                    ∈ map (fun i => option_strings (item_action i)) items))
           = true)
        parser
    with
    | (_ :: _) as missing =>
        UsageError (RequiredArguments (map action_name missing))
    | [] => Parsed (fold_left apply_item items (initial_namespace parser))
    end.
Proof.
  intros H. unfold parse_args, parse_args_with.
  rewrite <- (app_nil_r (command_line items)).
  rewrite (classify_items _ _ _ H), first_ambiguous_items.
  cbn [classify first_ambiguous].
  destruct (length_item_tokens items []) as [k ->].
  rewrite (consume_items items [] _ _ H I).
  assert (Hend : forall n st,
             consume n (option_string_actions parser) [] st = inr (Some st))
    by (intros [|n] st; reflexivity).
  rewrite Hend, fold_item_step.
  cbn [st_namespace st_seen st_extras app]. reflexivity.
Qed.

(** X17. A command line in the documented form (every option spelled in
    full, its values given as separate arguments that are empty or do not
    start with a dash; the options in any order and any number of times) is
    accepted exactly when it holds [--client-secret]; the namespace is then
    the defaults overwritten by the options from left to right, so a
    repeated option keeps its last value.  Without [--client-secret] the
    required-argument error names that option. *)
Theorem parse_args_command_line (nd : Z -> bool) (items : list Item) :
  forallb plain_item items = true ->
  parse_args nd (command_line items)
  = if existsb is_client_secret_item items
    then Parsed (fold_left apply_item items (initial_namespace parser))
    else UsageError (RequiredArguments [lit "--client-secret"]).
Proof.
  intros H. rewrite (parse_items nd items H), missing_required.
  destruct (existsb is_client_secret_item items) eqn:E.
  - rewrite bool_decide_eq_true_2 by (apply client_secret_seen, E).
    reflexivity.
  - rewrite bool_decide_eq_false_2
      by (rewrite client_secret_seen, E; discriminate).
    reflexivity.
Qed.

Lemma parse_args_command_line_witness :
  parse_args ascii_digit
    (command_line
       [ItemOutput (lit "a.json"); ItemClientSecret (lit "c.json");
        ItemQuiet; ItemOutput (lit "out/creds.json")])
  = Parsed
      (namespace_of (VStr (lit "c.json")) [default_scope] false
         (VStr (lit "out/creds.json")) VNone true).
Proof.
  apply (parse_args_command_line ascii_digit
           [ItemOutput (lit "a.json"); ItemClientSecret (lit "c.json");
            ItemQuiet; ItemOutput (lit "out/creds.json")]).
  vm_compute. reflexivity.
Defined.

(** ** From the command line to [run_flow] *)

Lemma getattr_setattr ns n v m :
  getattr (setattr ns n v) m
  = if str_eqb n m then Some v else getattr ns m.
Proof.
  induction ns as [|[k x] ns IH].
  - simpl. reflexivity.
  - cbn [setattr]. destruct (str_eqb k n) eqn:E.
    + apply str_eqb_eq in E as ->. cbn [getattr].
      destruct (str_eqb n m); reflexivity.
    + cbn [getattr]. rewrite IH. destruct (str_eqb k m) eqn:Ek; [|reflexivity].
      apply str_eqb_eq in Ek as ->.
      destruct (str_eqb n m) eqn:En; [|reflexivity].
      apply str_eqb_eq in En as ->. rewrite str_eqb_refl in E. discriminate.
Qed.

Lemma getattr_items name items : forall ns,
  getattr (fold_left apply_item items ns) name
  = match last_some (setting_named name) items with
    | Some v => Some v
    | None => getattr ns name
    end.
Proof.
  induction items as [|i items IH]; intros ns; [reflexivity|].
  cbn [fold_left last_some]. rewrite IH.
  destruct (last_some _ items); [reflexivity|].
  unfold apply_item, setting_named. rewrite getattr_setattr.
  destruct (str_eqb (item_setting i).1 name); reflexivity.
Qed.

Lemma last_some_ext {A B} (f g : A -> option B) l :
  (forall x, f x = g x) -> last_some f l = last_some g l.
Proof.
  intros H. induction l as [|x l IH]; [reflexivity|].
  simpl. rewrite IH, H. reflexivity.
Qed.

Lemma last_some_map {A B C} (f : A -> option B) (g : B -> C) l :
  last_some (fun x => option_map g (f x)) l = option_map g (last_some f l).
Proof.
  induction l as [|x l IH]; [reflexivity|].
  simpl. rewrite IH. destruct (last_some f l); reflexivity.
Qed.

Lemma last_some_flag {A B} (p : A -> bool) (c : B) l :
  last_some (fun x => if p x then Some c else None) l
  = if existsb p l then Some c else None.
Proof.
  induction l as [|x l IH]; [reflexivity|].
  simpl. rewrite IH. destruct (existsb p l), (p x); reflexivity.
Qed.

Lemma client_secret_given items :
  is_Some (last_some client_secret_of items) ->
  existsb is_client_secret_item items = true.
Proof.
  induction items as [|i items IH]; [intros [? H]; discriminate|].
  cbn [last_some existsb]. destruct (last_some client_secret_of items).
  - intros _. rewrite IH by eauto. apply orb_true_r.
  - intros [? H]. destruct i; try discriminate. reflexivity.
Qed.

Lemma run_flow_arguments_items items s p out env :
  last_some client_secret_of items = Some s ->
  pathlib_Path s = Some p ->
  sink_path (last_some output_of items) = Some out ->
  sink_path (last_some env_file_of items) = Some env ->
  run_flow_arguments (fold_left apply_item items (initial_namespace parser))
  = inr (p, from_option id [default_scope] (last_some scopes_of items),
         existsb is_no_local_server_item items, out, env,
         existsb is_quiet_item items).
Proof.
  intros Hs Hp Ho He. unfold run_flow_arguments, attribute.
  rewrite !getattr_items.
  rewrite (last_some_ext (setting_named (lit "client_secret"))
             (fun i => option_map VStr (client_secret_of i)))
    by (intros []; vm_compute; reflexivity).
  rewrite (last_some_ext (setting_named (lit "scopes"))
             (fun i => option_map VList (scopes_of i)))
    by (intros []; vm_compute; reflexivity).
  rewrite (last_some_ext (setting_named (lit "no_local_server"))
             (fun i => if is_no_local_server_item i
                       then Some (VBool true) else None))
    by (intros []; vm_compute; reflexivity).
  rewrite (last_some_ext (setting_named (lit "output"))
             (fun i => option_map VStr (output_of i)))
    by (intros []; vm_compute; reflexivity).
  rewrite (last_some_ext (setting_named (lit "env_file"))
             (fun i => option_map VStr (env_file_of i)))
    by (intros []; vm_compute; reflexivity).
  rewrite (last_some_ext (setting_named (lit "quiet"))
             (fun i => if is_quiet_item i then Some (VBool true) else None))
    by (intros []; vm_compute; reflexivity).
  rewrite !last_some_map, !last_some_flag, Hs.
  cbn [option_map path_arg]. rewrite Hp.
  assert (Hsink : forall n v o,
             sink_path v = Some o ->
             match
               match option_map VStr v with
               | Some x => Some x
               | None => Some VNone
               end
             with
             | Some x => optional_path_arg x
             | None => inl (RaisesAttributeError n)
             end = inr o).
  { intros n [v|] o; unfold sink_path, optional_path_arg; cbn.
    - destruct (bool_decide (v = [])); cbn; [congruence|].
      destruct (pathlib_Path v); [|discriminate]. congruence.
    - congruence. }
  change (getattr (initial_namespace parser) (lit "scopes"))
    with (Some (VList [default_scope])).
  change (getattr (initial_namespace parser) (lit "no_local_server"))
    with (Some (VBool false)).
  change (getattr (initial_namespace parser) (lit "output")) with (Some VNone).
  change (getattr (initial_namespace parser) (lit "env_file"))
    with (Some VNone).
  change (getattr (initial_namespace parser) (lit "quiet"))
    with (Some (VBool false)).
  rewrite (Hsink _ _ _ Ho), (Hsink _ _ _ He).
  destruct (last_some scopes_of items) as [sc|],
    (existsb is_no_local_server_item items), (existsb is_quiet_item items);
    reflexivity.
Qed.




(** ** Help *)

(** X19. When [-h] or [--help] follows options in the documented form, and
    no later argument before a [--] starts with [--=], [main] prints the
    help text and exits with status 0, whatever else the command line
    holds: a missing [--client-secret], unknown options and options without
    their values after the help option are not reported, and [run_flow] is
    not called (no delegate call is made, no file is touched). *)
Theorem main_help (d : Delegate) (nd : Z -> bool) (help : list Z)
    (items : list Item) (t : list Z) (rest : list (list Z)) (w : World) :
  forallb plain_item items = true ->
  In t [lit "-h"; lit "--help"] ->
  find (fun a => starts_with a (lit "--=")) (options_part rest) = None ->
  main d nd help (command_line items ++ t :: rest) w
  = (Exits 0, mk_world (fs w) (stdout w ++ help) (calls w)).
Proof.
  intros Hi Ht Hr. unfold main, parse_args, parse_args_with.
  rewrite (classify_items _ _ _ Hi), first_ambiguous_items.
  rewrite first_ambiguous_classify.
  assert (Hc : classify nd (option_string_actions parser) (t :: rest)
               = (t, TokOpt help_action t None)
                 :: classify nd (option_string_actions parser) rest).
  { destruct Ht as [<-|[<-|[]]]; reflexivity. }
  assert (Hf : find (fun a => starts_with a (lit "--=")) (options_part (t :: rest))
               = None).
  { destruct Ht as [<-|[<-|[]]]; exact Hr. }
  rewrite Hf, Hc.
  destruct (length_item_tokens items
              ((t, TokOpt help_action t None)
               :: classify nd (option_string_actions parser) rest))
    as [k ->].
  rewrite (consume_items items
             ((t, TokOpt help_action t None)
              :: classify nd (option_string_actions parser) rest) _ _ Hi I).
  cbn [length]. rewrite Nat.add_succ_r. reflexivity.
Qed.

Lemma main_help_witness :
  main (mock_delegate creds_r1) ascii_digit sample_help
    (command_line [ItemOutput (lit "out/creds.json")]
     ++ lit "--help" :: [lit "--bogus"; lit "--client-secret"])
    world_secret
  = (Exits 0,
     mk_world (fs world_secret) (stdout world_secret ++ sample_help)
       (calls world_secret)).
Proof.
  apply (main_help (mock_delegate creds_r1) ascii_digit sample_help
           [ItemOutput (lit "out/creds.json")] (lit "--help")
           [lit "--bogus"; lit "--client-secret"] world_secret).
  - vm_compute. reflexivity.
  - right. left. reflexivity.
  - vm_compute. reflexivity.
Defined.


(** ** The namespace that [main] reads *)

Lemma lookup_option_in osa o a :
  lookup_option osa o = Some a -> In (o, a) osa.
Proof.
  induction osa as [|[o' a'] osa IH]; [discriminate|].
  simpl. destruct (str_eqb o' o) eqn:E.
  - intros H. injection H as <-. apply str_eqb_eq in E as ->. left. reflexivity.
  - intros H. right. apply IH, H.
Qed.

Lemma option_string_actions_in (actions : list Action) o a :
  In (o, a) (option_string_actions actions) -> In a actions.
Proof.
  unfold option_string_actions. intros H.
  apply in_flat_map in H as (a' & Ha & H).
  apply in_map_iff in H as (o' & E & _). injection E as _ <-. exact Ha.
Qed.

Lemma get_option_tuples_in osa arg a o e :
  In (a, o, e) (get_option_tuples osa arg) -> In (o, a) osa.
Proof.
  unfold get_option_tuples. destruct arg as [|c0 [|c1 arg]]; try (intros []).
  destruct (c1 =? dash).
  - destruct (if contains 61 (c0 :: c1 :: arg) then _ else _) as [prefix ex].
    intros H. apply in_flat_map in H as ([o' a'] & Hin & H).
    cbn [fst snd] in H. destruct (starts_with o' prefix); [|destruct H].
    destruct H as [H|[]]. injection H as <- <- _. exact Hin.
  - intros H. apply in_flat_map in H as ([o' a'] & Hin & H).
    cbn [fst snd] in H.
    destruct (str_eqb o' _); [|destruct (starts_with o' _); [|destruct H]];
      destruct H as [H|[]]; injection H as <- <- _; exact Hin.
Qed.

Lemma parse_optional_action nd actions arg a o e :
  parse_optional nd (option_string_actions actions) arg = TokOpt a o e ->
  In a actions.
Proof.
  unfold parse_optional. destruct arg as [|c0 arg]; [discriminate|].
  destruct (negb (c0 =? dash)); [discriminate|].
  destruct (lookup_option _ (c0 :: arg)) as [a'|] eqn:El.
  { intros H. injection H as <- _ _.
    eapply option_string_actions_in, lookup_option_in, El. }
  destruct (bool_decide _); [discriminate|].
  destruct (if contains 61 (c0 :: arg) then _ else None) as [t|] eqn:Et.
  - destruct (contains 61 (c0 :: arg)); [|discriminate].
    destruct (split_at 61 (c0 :: arg)) as [o' e'].
    destruct (lookup_option _ o') as [a'|] eqn:El'; [|discriminate].
    injection Et as <-. intros H. injection H as <- _ _.
    eapply option_string_actions_in, lookup_option_in, El'.
  - destruct (get_option_tuples _ _) as [|[[a' o'] e'] [|? ?]] eqn:Eg.
    + destruct (looks_like_negative_number nd _); [discriminate|].
      destruct (contains 32 _); discriminate.
    + intros H. injection H as <- <- <-.
      eapply option_string_actions_in, get_option_tuples_in.
      rewrite Eg. left. reflexivity.
    + discriminate.
Qed.

Lemma classify_ok nd argv :
  Forall tok_ok (classify nd (option_string_actions parser) argv).
Proof.
  induction argv as [|arg argv IH]; [constructor|].
  cbn [classify]. destruct (str_eqb arg (lit "--")).
  - constructor; [exact I|]. clear IH.
    induction argv as [|r argv IHr]; simpl; constructor; [exact I|exact IHr].
  - constructor; [|exact IH]. unfold tok_ok. cbn [snd].
    destruct (parse_optional nd _ arg) eqn:E; try exact I.
    eapply parse_optional_action, E.
Qed.

Lemma leading_args_split toks :
  toks = map (fun v : list Z => (v, TokArg)) (leading_args toks).1
         ++ (leading_args toks).2.
Proof.
  induction toks as [|[raw tok] toks IH]; [reflexivity|].
  destruct tok; try reflexivity.
  cbn [leading_args]. destruct (leading_args toks) as [args rest].
  cbn [fst snd map app] in *. rewrite <- IH. reflexivity.
Qed.

Lemma match_following_ok a following args rest :
  match_following a following = inr (args, rest) ->
  (nargs a = NargsOne -> exists x, args = [x])
  /\ exists pre, following = pre ++ rest.
Proof.
  unfold match_following. destruct (nargs a) eqn:En.
  - destruct following as [|[raw []] following]; try discriminate.
    intros H. injection H as <- <-. split; [eauto|].
    exists [(raw, TokArg)]. reflexivity.
  - pose proof (leading_args_split following) as Hs.
    destruct (leading_args following) as [[|x l] r]; [discriminate|].
    intros H. injection H as <- <-. split; [discriminate|]. eauto.
  - intros H. injection H as <- <-. split; [discriminate|].
    exists []. reflexivity.
Qed.

Lemma consume_explicit_ok actions e : forall a o following acc tuples rest,
  In a actions -> Forall (fun t => In t.1 actions
                            /\ (nargs t.1 = NargsOne -> exists x, t.2 = [x]))
                    acc ->
  consume_explicit (option_string_actions actions) a o e following acc
  = inr (tuples, rest) ->
  Forall (fun t => In t.1 actions
                   /\ (nargs t.1 = NargsOne -> exists x, t.2 = [x])) tuples
  /\ exists pre, following = pre ++ rest.
Proof.
  assert (Hone : forall a x acc,
             In a actions ->
             Forall (fun t : Action * list (list Z) =>
                       In t.1 actions
                       /\ (nargs t.1 = NargsOne -> exists y, t.2 = [y])) acc ->
             Forall (fun t : Action * list (list Z) =>
                       In t.1 actions
                       /\ (nargs t.1 = NargsOne -> exists y, t.2 = [y]))
               (acc ++ [(a, [x])])).
  { intros a x acc Ha Hacc. apply Forall_app. split; [exact Hacc|].
    constructor; [|constructor]. split; [exact Ha|]. intros _. eauto. }
  induction e as [|c e IH]; intros a o following acc tuples rest Ha Hacc.
  - cbn [consume_explicit]. destruct (nargs a) eqn:En; try discriminate;
      intros H; injection H as <- <-;
      (split; [apply Hone; assumption | exists []; reflexivity]).
  - cbn [consume_explicit]. destruct (nargs a) eqn:En;
      try (intros H; injection H as <- <-;
           (split; [apply Hone; assumption | exists []; reflexivity])).
    destruct (is_single_dash_option o); [|discriminate].
    destruct (lookup_option _ [dash; c]) as [a'|] eqn:El; [|discriminate].
    assert (Ha' : In a' actions)
      by (eapply option_string_actions_in, lookup_option_in, El).
    assert (Hacc' : Forall (fun t : Action * list (list Z) =>
                              In t.1 actions
                              /\ (nargs t.1 = NargsOne -> exists y, t.2 = [y]))
                      (acc ++ [(a, [])])).
    { apply Forall_app. split; [exact Hacc|]. constructor; [|constructor].
      split; [exact Ha|]. cbn [fst]. rewrite En. discriminate. }
    destruct e as [|c' e'].
    + destruct (match_following a' following) as [err|[args rest']] eqn:Em;
        [discriminate|].
      intros H. injection H as <- <-.
      apply match_following_ok in Em as [Hargs Hpre]. split; [|exact Hpre].
      change (acc ++ [(a, []); (a', args)])
        with (acc ++ [(a, [])] ++ [(a', args)]).
      rewrite app_assoc. apply Forall_app. split; [exact Hacc'|].
      constructor; [|constructor]. split; assumption.
    + apply IH; assumption.
Qed.

Lemma consume_optional_ok a o explicit following tuples rest :
  In a parser ->
  consume_optional (option_string_actions parser) a o explicit following
  = inr (tuples, rest) ->
  Forall tuple_ok tuples /\ exists pre, following = pre ++ rest.
Proof.
  intros Ha. unfold consume_optional. destruct explicit as [e|].
  - apply consume_explicit_ok; [exact Ha|constructor].
  - destruct (match_following a following) as [err|[args rest']] eqn:Em;
      [discriminate|].
    intros H. injection H as <- <-.
    apply match_following_ok in Em as [Hargs Hpre]. split; [|exact Hpre].
    constructor; [|constructor]. split; assumption.
Qed.

Lemma get_values_one a x :
  nargs a = NargsOne -> given_value (get_values a [x]) = true.
Proof.
  intros H. unfold get_values. rewrite H. cbn [remove_first].
  destruct (str_eqb x (lit "--")); reflexivity.
Qed.

Lemma get_values_list a args :
  nargs a = NargsOneOrMore -> exists l, get_values a args = VList l.
Proof. intros H. unfold get_values. rewrite H. eauto. Qed.

Lemma elem_of_snoc {A} (x y : A) l : x ∈ l ++ [y] <-> x ∈ l \/ x = y.
Proof. rewrite elem_of_app, list_elem_of_singleton. reflexivity. Qed.

Lemma take_action_ok st a args st' :
  state_ok st -> tuple_ok (a, args) ->
  take_action st a args = Some st' -> state_ok st'.
Proof.
  intros (cs & sc & nls & out & env & q & Hns & Hcs & Ho & He & Hseen)
    [Ha Hargs].
  cbn [fst snd] in *. unfold parser in Ha. simpl in Ha.
  destruct Ha as [<-|[<-|[<-|[<-|[<-|[<-|[<-|[]]]]]]]];
    unfold take_action; cbn [kind add_argument add_argument_store_true dest
                               help_action option_strings];
    try discriminate; intros H; injection H as <-;
    unfold state_ok; cbn [st_namespace st_seen]; rewrite Hns.
  - destruct (Hargs eq_refl) as [x ->].
    pose proof (get_values_one
                  (add_argument [lit "--client-secret"] NargsOne true VNone) x
                  eq_refl) as Hv.
    set (v := get_values _ [x]) in *.
    exists v, sc, nls, out, env, q.
    split; [reflexivity|].
    split; [destruct v as [| |?|[|? ?]];
            try discriminate; reflexivity|].
    repeat split; try assumption. intros _. exact Hv.
  - destruct (get_values_list
                (add_argument [lit "--scopes"] NargsOneOrMore false
                   (VList [default_scope])) args eq_refl) as [l Hl].
    rewrite Hl.
    exists cs, l, nls, out, env, q.
    split; [reflexivity|]. repeat split; try assumption.
    intros H. apply elem_of_snoc in H as [H|H]; [auto|].
    vm_compute in H. discriminate.
  - exists cs, sc, true, out, env, q.
    split; [reflexivity|]. repeat split; try assumption.
    intros H. apply elem_of_snoc in H as [H|H]; [auto|].
    vm_compute in H. discriminate.
  - destruct (Hargs eq_refl) as [x ->].
    pose proof (get_values_one
                  (add_argument [lit "--output"] NargsOne false VNone) x
                  eq_refl) as Hv.
    set (v := get_values _ [x]) in *.
    exists cs, sc, nls, v, env, q.
    split; [reflexivity|]. repeat split; try assumption.
    + destruct v as [| |?|[|? ?]];
        try discriminate; reflexivity.
    + intros H. apply elem_of_snoc in H as [H|H]; [auto|].
      vm_compute in H. discriminate.
  - destruct (Hargs eq_refl) as [x ->].
    pose proof (get_values_one
                  (add_argument [lit "--env-file"] NargsOne false VNone) x
                  eq_refl) as Hv.
    set (v := get_values _ [x]) in *.
    exists cs, sc, nls, out, v, q.
    split; [reflexivity|]. repeat split; try assumption.
    + destruct v as [| |?|[|? ?]];
        try discriminate; reflexivity.
    + intros H. apply elem_of_snoc in H as [H|H]; [auto|].
      vm_compute in H. discriminate.
  - exists cs, sc, nls, out, env, true.
    split; [reflexivity|]. repeat split; try assumption.
    intros H. apply elem_of_snoc in H as [H|H]; [auto|].
    vm_compute in H. discriminate.
Qed.

Lemma take_actions_ok tuples : forall st st',
  state_ok st -> Forall tuple_ok tuples ->
  take_actions st tuples = Some st' -> state_ok st'.
Proof.
  induction tuples as [|[a args] tuples IH]; intros st st' Hst Ht.
  - intros H. injection H as <-. exact Hst.
  - cbn [take_actions]. inversion Ht as [|? ? H1 H2]; subst.
    destruct (take_action st a args) as [st1|] eqn:E; [|discriminate].
    apply IH; [|exact H2]. eapply take_action_ok; eassumption.
Qed.

Lemma consume_ok fuel : forall toks st st',
  state_ok st -> Forall tok_ok toks ->
  consume fuel (option_string_actions parser) toks st = inr (Some st') ->
  state_ok st'.
Proof.
  induction fuel as [|fuel IH]; intros toks st st' Hst Ht.
  { intros H. injection H as <-. exact Hst. }
  cbn [consume]. destruct toks as [|[raw tok] rest].
  { intros H. injection H as <-. exact Hst. }
  inversion Ht as [|? ? H1 H2]; subst.
  destruct tok; try (apply IH; [exact Hst | exact H2]).
  destruct (consume_optional _ a option_string explicit rest)
    as [err|[tuples rest']] eqn:Ec; [discriminate|].
  apply consume_optional_ok in Ec as [Htu [pre ->]]; [|exact H1].
  destruct (take_actions st tuples) as [st1|] eqn:Et; [|discriminate].
  apply IH.
  - eapply take_actions_ok; eassumption.
  - apply Forall_app in H2 as [_ H2]. exact H2.
Qed.

Lemma parsed_state nd argv ns :
  parse_args nd argv = Parsed ns ->
  exists st,
    state_ok st /\ ns = st_namespace st
    /\ [lit "--client-secret"] ∈ st_seen st.
Proof.
  unfold parse_args, parse_args_with.
  destruct (first_ambiguous _); [discriminate|].
  destruct (consume _ _ _ _) as [err|[st|]] eqn:Ec; try discriminate.
  apply consume_ok in Ec; [|
    exists VNone, [default_scope], false, VNone, VNone, false;
    repeat split; intros H; inversion H | apply classify_ok].
  rewrite missing_required.
  destruct (bool_decide ([lit "--client-secret"] ∈ st_seen st)) eqn:Es;
    [|discriminate].
  apply bool_decide_eq_true in Es.
  destruct (st_extras st); [|discriminate].
  intros H. injection H as <-. exists st. auto.
Qed.

(** X20. Whatever the command line, when [parse_args] returns, the
    namespace holds exactly the six attributes that [main] reads, in the
    order of their declaration: [client_secret] was given (it is a string,
    or the empty list that the explicit argument [--] leaves),
    [scopes] is a list, the two flags are booleans, and [output] and
    [env_file] are [None] or a given value. *)
Theorem parse_args_namespace (nd : Z -> bool) (argv : list (list Z))
    (ns : Namespace) :
  parse_args nd argv = Parsed ns ->
  exists cs scopes nls out env quiet,
    ns = namespace_of cs scopes nls out env quiet
    /\ given_value cs = true
    /\ optional_value out = true
    /\ optional_value env = true.
Proof.
  intros H. apply parsed_state in H as (st & Hst & -> & Hseen).
  destruct Hst as (cs & sc & nls & out & env & q & Hns & _ & Ho & He & Hcs).
  exists cs, sc, nls, out, env, q. auto.
Qed.

Lemma parse_args_namespace_witness :
  parse_args ascii_digit [lit "--client-secret=--"; lit "--q"; lit "--o=x"]
  = Parsed (namespace_of (VList []) [default_scope] false (VStr (lit "x"))
              VNone true)
  /\ exists cs scopes nls out env quiet,
       namespace_of (VList []) [default_scope] false (VStr (lit "x")) VNone
         true
       = namespace_of cs scopes nls out env quiet
       /\ given_value cs = true
       /\ optional_value out = true
       /\ optional_value env = true.
Proof.
  split; [vm_compute; reflexivity|].
  apply (parse_args_namespace ascii_digit
           [lit "--client-secret=--"; lit "--q"; lit "--o=x"]).
  vm_compute. reflexivity.
Defined.



(** ** The loop over the arguments ends *)

Lemma consume_optional_rest osa a o explicit following tuples rest :
  consume_optional osa a o explicit following = inr (tuples, rest) ->
  (length rest <= length following)%nat.
Proof.
  assert (Hm : forall a' args r,
             match_following a' following = inr (args, r) ->
             (length r <= length following)%nat).
  { intros a' args r H. apply match_following_ok in H as [_ [pre ->]].
    rewrite length_app. lia. }
  unfold consume_optional. destruct explicit as [e|].
  - generalize (@nil (Action * list (list Z))). revert a o.
    induction e as [|c e IH]; intros a o acc; cbn [consume_explicit].
    + destruct (nargs a); try discriminate;
        intros H; injection H as _ <-; reflexivity.
    + destruct (nargs a);
        try (intros H; injection H as _ <-; reflexivity).
      destruct (is_single_dash_option o); [|discriminate].
      destruct (lookup_option osa [dash; c]) as [a'|]; [|discriminate].
      destruct e as [|c' e'].
      * destruct (match_following a' following) as [err|[args r]] eqn:Em;
          [discriminate|].
        intros H. injection H as _ <-. eapply Hm, Em.
      * apply IH.
  - destruct (match_following a following) as [err|[args r]] eqn:Em;
      [discriminate|].
    intros H. injection H as _ <-. eapply Hm, Em.
Qed.

(** The fuel that [parse_args_with] gives, the number of argument strings,
    is enough: with that much or more the loop never stops early, so its
    result does not depend on the fuel. *)
Lemma consume_fuel osa fuel1 : forall fuel2 toks st,
  (length toks <= fuel1)%nat -> (length toks <= fuel2)%nat ->
  consume fuel1 osa toks st = consume fuel2 osa toks st.
Proof.
  induction fuel1 as [|fuel1 IH]; intros fuel2 toks st H1 H2.
  - destruct toks; [|simpl in H1; lia]. destruct fuel2; reflexivity.
  - destruct toks as [|[raw tok] rest]; [destruct fuel2; reflexivity|].
    destruct fuel2 as [|fuel2]; [simpl in H2; lia|].
    simpl in H1, H2. cbn [consume].
    destruct tok; try (apply IH; lia).
    destruct (consume_optional osa a option_string explicit rest)
      as [err|[tuples rest']] eqn:Ec; [reflexivity|].
    apply consume_optional_rest in Ec.
    destruct (take_actions st tuples); [|reflexivity].
    apply IH; lia.
Qed.

(** ** From the command line to the first check of [run_flow] *)


